(** * Stem separation client: mix engine and separation orchestrator

    A shallow embedding of the three React hooks that carry the logic of the
    application:

    - [Mix]      : [useAudioPlayer]   (src/hooks/useAudioPlayer.ts)
    - [Sync]     : [useStemSeparation], synchronous edge-function protocol
                   (src/hooks/useStemSeparation.ts)
    - [Polling]  : [useStemSeparation], submit-then-poll protocol
                   (the earliest revision of the same hook)

    A revision between the two is synchronous like [Sync] and differs from it
    in the upload step only (a public URL instead of a signed one); it is
    not embedded separately.

    Around the hooks, the code they call and the code that calls them:

    - [Edge]          : the edge function the synchronous hook invokes
    - [Separator]     : the component that drives [useStemSeparation]
                        (src/components/audio/StemSeparator.tsx)
    - [EditPage]      : the page that drives [useAudioPlayer]
    - [LocalProjects] : the project store (src/hooks/useLocalProjects.ts)
    - [ConfigurePage] : the updates the configure page saves
                        (src/pages/Configure.tsx)

    React state is a record, [useRef] cells are fields of that record, every
    [await] is a suspension point of a task, and the environment (user,
    network, timers, media elements) drives the hook through events. *)

From Stdlib Require Import QArith Lqa.
From stdpp Require Import gmap strings list fin_maps pretty sorting.

Open Scope string_scope.

(** ** JavaScript objects used as maps *)

(** The property names every object literal inherits from [Object.prototype].
    A lookup [o[k]] that finds no own property [k] falls through to these. *)
Definition object_prototype_keys : list string :=
  [ "constructor"; "__defineGetter__"; "__defineSetter__"; "hasOwnProperty";
    "__lookupGetter__"; "__lookupSetter__"; "isPrototypeOf";
    "propertyIsEnumerable"; "toString"; "valueOf"; "__proto__";
    "toLocaleString" ].

(** Result of the property read [o[k]] on an object literal whose own
    properties are the finite map [o]. *)
Inductive property (V : Type) : Type :=
  | Own (v : V)      (* an own property *)
  | Inherited        (* a member of Object.prototype: a function or object *)
  | Missing.         (* undefined *)
Arguments Own {V} v.
Arguments Inherited {V}.
Arguments Missing {V}.

Definition js_get {V} (o : gmap string V) (k : string) : property V :=
  match o !! k with
  | Some v => Own v
  | None => if bool_decide (k ∈ object_prototype_keys) then Inherited else Missing
  end.

(** The text an inherited member reached through key [k] turns into when it
    is converted to a string (as V8 prints it): [o.__proto__] is
    [Object.prototype] itself, [o.constructor] is [Object], the others are the
    built-in functions of their own name. *)
Definition object_prototype_text (k : string) : string :=
  if bool_decide (k = "__proto__") then "[object Object]"
  else if bool_decide (k = "constructor") then "function Object() { [native code] }"
  else "function " ++ k ++ "() { [native code] }".

(** Truthiness of a property of a [Record<string, boolean>]. *)
Definition truthy_flag (p : property bool) : bool :=
  match p with
  | Own b => b
  | Inherited => true
  | Missing => false
  end.

(** [Object.values(o)]; only own properties are enumerated. *)
Definition Object_values {V} (o : gmap string V) : list V := (map_to_list o).*2.

(** [Object.fromEntries(ids.map(id => [id, v]))]: later entries overwrite. *)
Definition fromEntries_const {V} (ids : list string) (v : V) : gmap string V :=
  foldl (λ o k, <[k := v]> o) ∅ ids.

(** [s.includes(needle)] *)
Fixpoint includes (needle s : string) : bool :=
  String.prefix needle s ||
  match s with
  | EmptyString => false
  | String _ s' => includes needle s'
  end.

(** * The multi-track mix engine (useAudioPlayer.ts) *)
Module Mix.

(** The part of an [HTMLAudioElement] the hook reads or writes.  A JavaScript
    number is an exact rational here; [None] in [audio_duration] is [NaN]
    (no metadata yet). *)
Record AudioElement := mkAudio {
  audio_src : option string;
  audio_volume : Q;
  audio_currentTime : Q;
  audio_paused : bool;
  audio_duration : option Q
}.

(** [new Audio()] *)
Definition new_Audio : AudioElement :=
  {| audio_src := None; audio_volume := 1; audio_currentTime := 0;
     audio_paused := true; audio_duration := None |}.

(** An entry of [tracksRef.current].  [seen_duration] is not a field of the
    JavaScript object: it is the value of the state variable [duration] that
    the listeners of this track closed over when the track was created. *)
Record AudioTrack := mkTrack {
  id : string;
  audio : AudioElement;
  volume : Q;
  isMuted : bool;
  isSolo : bool;
  seen_duration : Q
}.

(** The props of the hook. *)
Record Options := mkOptions {
  stemIds : list string;
  audioUrls : gmap string string
}.

(** The hook's state: [tracksRef] is a [Map] (insertion order, one entry per
    id); [animationRef] tells whether a frame callback is scheduled (the
    handle returned by [requestAnimationFrame] is used for nothing else than
    cancelling it); the rest are the [useState] cells. *)
Record Player := mkPlayer {
  tracksRef : list AudioTrack;
  animationRef : bool;
  isPlaying : bool;
  currentTime : Q;
  duration : Q;
  isLoaded : bool;
  volumes : gmap string Q;
  mutedStems : gmap string bool;
  soloStems : gmap string bool
}.

Definition set_tracksRef (ts : list AudioTrack) (p : Player) : Player :=
  mkPlayer ts (animationRef p) (isPlaying p) (currentTime p) (duration p)
           (isLoaded p) (volumes p) (mutedStems p) (soloStems p).
Definition set_animationRef (b : bool) (p : Player) : Player :=
  mkPlayer (tracksRef p) b (isPlaying p) (currentTime p) (duration p)
           (isLoaded p) (volumes p) (mutedStems p) (soloStems p).
Definition setIsPlaying (b : bool) (p : Player) : Player :=
  mkPlayer (tracksRef p) (animationRef p) b (currentTime p) (duration p)
           (isLoaded p) (volumes p) (mutedStems p) (soloStems p).
Definition setCurrentTime (t : Q) (p : Player) : Player :=
  mkPlayer (tracksRef p) (animationRef p) (isPlaying p) t (duration p)
           (isLoaded p) (volumes p) (mutedStems p) (soloStems p).
Definition setDuration (d : Q) (p : Player) : Player :=
  mkPlayer (tracksRef p) (animationRef p) (isPlaying p) (currentTime p) d
           (isLoaded p) (volumes p) (mutedStems p) (soloStems p).
Definition setIsLoaded (b : bool) (p : Player) : Player :=
  mkPlayer (tracksRef p) (animationRef p) (isPlaying p) (currentTime p)
           (duration p) b (volumes p) (mutedStems p) (soloStems p).
Definition setVolumes (v : gmap string Q) (p : Player) : Player :=
  mkPlayer (tracksRef p) (animationRef p) (isPlaying p) (currentTime p)
           (duration p) (isLoaded p) v (mutedStems p) (soloStems p).
Definition setMutedStems (m : gmap string bool) (p : Player) : Player :=
  mkPlayer (tracksRef p) (animationRef p) (isPlaying p) (currentTime p)
           (duration p) (isLoaded p) (volumes p) m (soloStems p).
Definition setSoloStems (s : gmap string bool) (p : Player) : Player :=
  mkPlayer (tracksRef p) (animationRef p) (isPlaying p) (currentTime p)
           (duration p) (isLoaded p) (volumes p) (mutedStems p) s.

Definition with_audio (a : AudioElement) (t : AudioTrack) : AudioTrack :=
  mkTrack (id t) a (volume t) (isMuted t) (isSolo t) (seen_duration t).

(** Writes to the media element. *)
Definition write_currentTime (x : Q) (a : AudioElement) : AudioElement :=
  mkAudio (audio_src a) (audio_volume a) x (audio_paused a) (audio_duration a).
Definition write_paused (b : bool) (a : AudioElement) : AudioElement :=
  mkAudio (audio_src a) (audio_volume a) (audio_currentTime a) b (audio_duration a).
Definition write_src (s : option string) (a : AudioElement) : AudioElement :=
  mkAudio s (audio_volume a) (audio_currentTime a) (audio_paused a) (audio_duration a).
Definition write_duration (d : option Q) (a : AudioElement) : AudioElement :=
  mkAudio (audio_src a) (audio_volume a) (audio_currentTime a) (audio_paused a) d.

(** [audio.volume = x].  The setter throws for [NaN] ([None]) and for a value
    outside [0, 1]; a throw is [None]. *)
Definition write_volume (x : option Q) (a : AudioElement) : option AudioElement :=
  match x with
  | Some q =>
      if Qle_bool 0 q && Qle_bool q 1
      then Some (mkAudio (audio_src a) q (audio_currentTime a) (audio_paused a)
                         (audio_duration a))
      else None
  | None => None
  end.

(** The initial values of the [useState] cells (lines 20-32). *)
Definition initial (o : Options) : Player :=
  {| tracksRef := []; animationRef := false; isPlaying := false;
     currentTime := 0; duration := 0; isLoaded := false;
     volumes := fromEntries_const (stemIds o) 80%Q;
     mutedStems := fromEntries_const (stemIds o) false;
     soloStems := fromEntries_const (stemIds o) false |}.

Definition has (ts : list AudioTrack) (k : string) : bool :=
  bool_decide (k ∈ id <$> ts).

(** Body of the [stemIds.forEach] of the initialisation effect (lines 38-72):
    a track is created for every id not yet in the map; its listeners close
    over the [duration] of the render that runs the effect. *)
Definition create_track (o : Options) (seen : Q) (k : string) : AudioTrack :=
  let a := new_Audio in
  let a := match js_get (audioUrls o) k with
           | Own u => if bool_decide (u = EmptyString) then a else write_src (Some u) a
           | Inherited => write_src (Some (object_prototype_text k)) a
           | Missing => a
           end in
  {| id := k; audio := a; volume := 80; isMuted := false; isSolo := false;
     seen_duration := seen |}.

Definition add_tracks (o : Options) (seen : Q) (ts : list AudioTrack) : list AudioTrack :=
  foldl (λ acc k, if has acc k then acc else (acc ++ [create_track o seen k])%list)
        ts (stemIds o).

Definition demo_mode (o : Options) : bool :=
  bool_decide (length (map_to_list (audioUrls o)) = 0%nat).

(** The initialisation effect (lines 35-79). *)
Definition init_effect (o : Options) (p : Player) : Player :=
  let p := set_tracksRef (add_tracks o (duration p) (tracksRef p)) p in
  if demo_mode o then setIsLoaded true (setDuration 180 p) else p.

(** Its cleanup (lines 80-89). *)
Definition init_cleanup (p : Player) : Player :=
  set_animationRef false (set_tracksRef [] p).

(** [updateTrackVolumes] (lines 93-112). *)
Definition hasSolo (p : Player) : bool :=
  existsb (λ s, s) (Object_values (soloStems p)).

Definition effectiveVolume (p : Player) (t : AudioTrack) : option Q :=
  let isSoloed := truthy_flag (js_get (soloStems p) (id t)) in
  let isMuted := truthy_flag (js_get (mutedStems p) (id t)) in
  let effective :=
    match js_get (volumes p) (id t) with
    | Own v => Some (v / 100)%Q
    | Missing => Some (80 / 100)%Q
    | Inherited => None
    end in
  if hasSolo p then (if isSoloed then effective else Some 0%Q)
  else if isMuted then Some 0%Q
  else effective.

Definition updateTrackVolumes (p : Player) : option Player :=
  ts ← mapM (λ t, a ← write_volume (effectiveVolume p t) (audio t);
                  Some (with_audio a t)) (tracksRef p);
  Some (set_tracksRef ts p).

(** [loadedmetadata] on the element of track [k], whose media lasts [d]
    (lines 48-53).  [audio.duration && ...] skips a zero duration. *)
Definition loadedmetadata_listener (t : AudioTrack) (p : Player) : Player :=
  let p := match audio_duration (audio t) with
           | Some d =>
               if negb (Qeq_bool d 0) && negb (Qle_bool d (seen_duration t))
               then setDuration d p else p
           | None => p
           end in
  setIsLoaded true p.

Definition on_loadedmetadata (k : string) (d : Q) (p : Player) : Player :=
  let ts := (λ t, if bool_decide (id t = k)
                  then with_audio (write_duration (Some d) (audio t)) t else t)
            <$> tracksRef p in
  let p := set_tracksRef ts p in
  match list_find (λ t, id t = k) ts with
  | Some (_, t) => loadedmetadata_listener t p
  | None => p
  end.

(** The [ended] listener (lines 55-62); every track carries the same one. *)
Definition ended_listener (p : Player) : Player :=
  let p := setCurrentTime 0 (setIsPlaying false p) in
  set_tracksRef ((λ t, with_audio (write_currentTime 0 (audio t)) t) <$> tracksRef p) p.

(** [updateTime], the animation-frame callback (lines 119-127). *)
Definition updateTime (p : Player) : Player :=
  match tracksRef p with
  | firstTrack :: _ =>
      if negb (audio_paused (audio firstTrack))
      then set_animationRef true
             (setCurrentTime (audio_currentTime (audio firstTrack)) p)
      else set_animationRef false p
  | [] => set_animationRef false p
  end.

(** [play] (lines 129-142). *)
Definition play (o : Options) (p : Player) : option Player :=
  p ← updateTrackVolumes p;
  let p := if demo_mode o then p
           else set_tracksRef
                  ((λ t, with_audio (write_paused false (audio t)) t) <$> tracksRef p) p in
  Some (set_animationRef true (setIsPlaying true p)).




(** The three state mutations (lines 175-185). *)
Definition setVolume (stemId : string) (v : Q) (p : Player) : Player :=
  setVolumes (<[stemId := v]> (volumes p)) p.

Definition toggleMute (stemId : string) (p : Player) : Player :=
  setMutedStems
    (<[stemId := negb (truthy_flag (js_get (mutedStems p) stemId))]> (mutedStems p)) p.

Definition toggleSolo (stemId : string) (p : Player) : Player :=
  setSoloStems
    (<[stemId := negb (truthy_flag (js_get (soloStems p) stemId))]> (soloStems p)) p.

(** The callback of the demo-mode interval (lines 191-199); the interval only
    exists while [isPlaying] and no audio URL was given. *)
Definition demo_tick (o : Options) (p : Player) : Player :=
  if isPlaying p && demo_mode o then
    if Qle_bool (duration p) (currentTime p)
    then setCurrentTime 0 (setIsPlaying false p)
    else setCurrentTime (currentTime p + (1 # 10))%Q p
  else p.

(** A mutation of the mixer, as issued by the UI. *)
Inductive Mutation :=
  | SetVolume (stemId : string) (v : Q)
  | ToggleMute (stemId : string)
  | ToggleSolo (stemId : string).

Definition reduce (m : Mutation) (p : Player) : Player :=
  match m with
  | SetVolume k v => setVolume k v p
  | ToggleMute k => toggleMute k p
  | ToggleSolo k => toggleSolo k p
  end.

(** One commit of React.  The initialisation effect is keyed on the identity
    of the two props: [fresh_props] says that the caller passed a new
    [stemIds] or [audioUrls] object in the render being committed (a caller
    that builds them inline, or leaves [audioUrls] to its default [{}], does
    so in every render); the effect is then cleaned up and run again.
    [mix_changed] says that [volumes], [mutedStems] or [soloStems] was
    replaced, so that [updateTrackVolumes] is a new callback and the effect
    of lines 114-116 runs it. *)
Definition rerender (o : Options) (fresh_props : bool) (p : Player) : Player :=
  if fresh_props then init_effect o (init_cleanup p) else p.

Definition commit (o : Options) (fresh_props mix_changed : bool) (p : Player)
  : option Player :=
  let p := rerender o fresh_props p in
  if mix_changed then updateTrackVolumes p else Some p.

(** A mutation replaces one of the three records by a new object and is
    followed by a commit. *)
Definition mutate (o : Options) (fresh_props : bool) (m : Mutation) (p : Player)
  : option Player :=
  commit o fresh_props true (reduce m p).

(** Mounting: first render, then both effects in order. *)
Definition mount (o : Options) : option Player :=
  updateTrackVolumes (init_effect o (initial o)).

(** The flags and the volume of a stem as the resolution rule reads them. *)
Definition soloed (p : Player) (k : string) : bool := truthy_flag (js_get (soloStems p) k).
Definition muted (p : Player) (k : string) : bool := truthy_flag (js_get (mutedStems p) k).

End Mix.

(** * Values shared by the two revisions of useStemSeparation *)
Module Stems.

(** A JSON value; an array is an object whose keys are its indices. *)
#[local] Unset Elimination Schemes.
Inductive json : Type :=
  | JNull
  | JBool (b : bool)
  | JNum (n : Z)
  | JStr (s : string)
  | JObject (entries : list (string * json)).
#[local] Set Elimination Schemes.

(** A value that is a string or, when a table lookup fell through to
    [Object.prototype], the inherited member reached through key [k]. *)
Inductive text_or_native : Type :=
  | Text (s : string)
  | Native (k : string).

Inductive Stage := idle | uploading | processing | complete | error.

Record SeparationProgress := mkProgress {
  stage : Stage;
  progress : Z;
  message : string
}.

Record StemResult := mkStem {
  id : string;
  label : text_or_native;
  url : string
}.

Global Instance Stage_eq_dec : EqDecision Stage.
Proof. solve_decision. Defined.

(** [Object.entries(v)] in enumeration order; [None] is the [TypeError] for
    [undefined] ([None] as argument) and [null]. *)
Definition Object_entries (v : option json) : option (list (string * json)) :=
  match v with
  | None | Some JNull => None
  | Some (JObject entries) => Some entries
  | Some (JStr s) =>
      Some (imap (λ i c, (pretty i, JStr (String c EmptyString))) (String.list_ascii_of_string s))
  | Some (JBool _) | Some (JNum _) => Some []
  end.

(** The loop both revisions of the hook run over the stem map
    (useStemSeparation.ts lines 225-235): an entry is kept when its value is
    a non-empty string; [labels[key] || key] is its label. *)
Definition stem_label (labels : gmap string string) (key : string) : text_or_native :=
  match js_get labels key with
  | Own l => if bool_decide (l = EmptyString) then Text key else Text l
  | Inherited => Native key
  | Missing => Text key
  end.

Definition extract_stems (labels : gmap string string)
    (entries : list (string * json)) : list StemResult :=
  omap (λ '(key, v),
          match v with
          | JStr u => if bool_decide (u = EmptyString) then None
                      else Some {| id := key; label := stem_label labels key; url := u |}
          | _ => None
          end) entries.

End Stems.

(** * The orchestrator, synchronous protocol (useStemSeparation.ts) *)
Module Sync.
Import Stems.

(** [STEM_LABELS] (lines 61-69). *)
Definition STEM_LABELS : gmap string string :=
  list_to_map
    [ ("vocals", "Vocals"); ("drums", "Drums"); ("bass", "Bass");
      ("other", "Other"); ("instrumental", "Instrumental");
      ("guitar", "Guitar"); ("piano", "Piano") ].

(** [errorTypeMap] of [getErrorMessage] (lines 87-96). *)
Definition errorTypeMap : gmap string string :=
  list_to_map
    [ ("MISSING_BACKEND_CONFIG",
       "A backend szerver nincs konfigurálva. Kérjük, ellenőrizze a telepítést.");
      ("INVALID_BACKEND_URL", "A backend szerver URL-je érvénytelen.");
      ("BACKEND_CONNECTION_FAILED",
       "A backend szerver nem elérhető. Kérjük, győződjön meg, hogy a FastAPI szerver fut.");
      ("AUDIO_DOWNLOAD_FAILED", "Az audio fájl letöltése sikertelen.");
      ("AUDIO_DOWNLOAD_HTTP_ERROR",
       "Az audio fájl már nem elérhető vagy nem érvényes.");
      ("INVALID_AUDIO_URL",
       "Az audio URL érvénytelen. A fájl feltöltése sikertelen lehet.");
      ("PROCESSING_FAILED",
       "Az audio feldolgozása sikertelen. Kérjük, próbálja újra.");
      ("UNEXPECTED_ERROR", "Váratlan hiba történt. Kérjük, próbálja újra később.") ].

(** [getErrorMessage] (lines 86-99); an [undefined] error type reads the key
    "undefined".  The result is a string or an inherited member. *)
Definition getErrorMessage (errorType : option string) (originalError : string)
  : text_or_native :=
  match js_get errorTypeMap (default "undefined" errorType) with
  | Own m => Text m
  | Inherited => Native (default "undefined" errorType)
  | Missing =>
      if bool_decide (originalError = EmptyString) then Text "Feldolgozási hiba történt."
      else Text originalError
  end.

(** String conversion in [userMessage + details]. *)
Definition to_text (v : text_or_native) : string :=
  match v with
  | Text s => s
  | Native k => object_prototype_text k
  end.

(** The body the edge function answers with, typed by its contract: every
    field may be absent. *)
Record ResponseData := mkData {
  data_error : option string;
  data_errorType : option string;
  data_details : option string;
  data_status : option string;
  data_output : option json
}.

(** What [supabase.functions.invoke] resolves to. *)
Record InvokeResult := mkInvoke {
  data : option ResponseData;
  invokeError : option string
}.

(** The [throw new Error(...)] sites of the hook, which the code tells apart
    by their message only. *)
Inductive Failure :=
  | Cancelled                              (* line 199 *)
  | UploadError (msg : string)             (* line 133 *)
  | SignedUrlError (msg : string)          (* line 143 *)
  | InvalidLocationError (signedUrl : string)  (* lines 150-152 *)
  | InvokeError (msg : string)             (* line 204 *)
  | RemoteProcessingError (text : string)  (* line 211 *)
  | UnexpectedStatus                       (* line 216 *)
  | InvalidOutput                          (* line 222 *)
  | NoStemsProducedError.                  (* line 239 *)

Definition failure_message (f : Failure) : string :=
  match f with
  | Cancelled => "Cancelled"
  | UploadError m => "Feltöltés sikertelen: " ++ m
  | SignedUrlError m => "Signed URL létrehozása sikertelen: " ++ m
  | InvalidLocationError u =>
      "Tárolási URL érvénytelen: " ++ u ++
      ". A Supabase kliens konfigurációja lehet hibás."
  | InvokeError m => "Szétválasztás sikertelen: " ++ m
  | RemoteProcessingError t => t
  | UnexpectedStatus => "Ismeretlen hiba történt a feldolgozás során"
  | InvalidOutput => "Nem sikerült stem-eket kinyerni"
  | NoStemsProducedError =>
      "Nem sikerült stem-eket kinyerni a feldolgozás eredményéből"
  end.

(** The React state and the two refs of the hook (lines 102-112).
    [abortControllerRef]: [None] is [null], [Some aborted] a controller. *)
Record Hook := mkHook {
  isProcessing : bool;
  progress_state : SeparationProgress;
  stems : list StemResult;
  error_state : option string;
  cancelledRef : bool;
  abortControllerRef : option bool
}.

(** An activation of [separate] or [separateFromUrl], suspended at an
    [await] or finished.  While a task is at [AwaitInvoke] its progress
    interval is armed. *)
Inductive Task :=
  | AwaitUpload (filePath modelName : string)
  | AwaitSignedUrl (filePath modelName : string)
  | AwaitInvoke (audioUrl modelName : string)
  | Resolved (results : list StemResult)
  | Rejected (f : Failure).

(** Requests the hook sends out. *)
Inductive Call :=
  | StorageUpload (filePath : string)
  | CreateSignedUrl (filePath : string)
  | InvokeSeparation (audioUrl modelName : string).

(** The hook together with its pending activations and two histories: the
    requests sent and the values passed to [setProgress], oldest first. *)
Record World := mkWorld {
  hook : Hook;
  tasks : list Task;
  calls : list Call;
  emitted : list SeparationProgress
}.

(** What drives the hook: calls of its three functions by the UI, the
    settling of a request of task [t], and a tick of the progress interval of
    task [t].  [uuid] is the value of [crypto.randomUUID()]; [signedUrl] is
    [urlData.signedUrl], [None] when [urlData] is null; an error is given by
    its message. *)
Inductive Event :=
  | call_separate (fileName uuid : string) (modelName : option string)
  | call_separateFromUrl (audioUrl : string) (modelName : option string)
  | call_cancel
  | upload_settled (t : nat) (uploadError : option string)
  | signedUrl_settled (t : nat) (signedUrl : option string) (urlError : option string)
  | invoke_settled (t : nat) (r : InvokeResult)
  | interval_tick (t : nat).

Definition initial : World :=
  {| hook := {| isProcessing := false;
                progress_state := mkProgress idle 0 "Ready";
                stems := []; error_state := None;
                cancelledRef := false; abortControllerRef := None |};
     tasks := []; calls := []; emitted := [] |}.

Definition with_hook (f : Hook → Hook) (w : World) : World :=
  mkWorld (f (hook w)) (tasks w) (calls w) (emitted w).

Definition setIsProcessing (b : bool) : World → World :=
  with_hook (λ h, mkHook b (progress_state h) (stems h) (error_state h)
                         (cancelledRef h) (abortControllerRef h)).
Definition setStems (s : list StemResult) : World → World :=
  with_hook (λ h, mkHook (isProcessing h) (progress_state h) s (error_state h)
                         (cancelledRef h) (abortControllerRef h)).
Definition setError (e : option string) : World → World :=
  with_hook (λ h, mkHook (isProcessing h) (progress_state h) (stems h) e
                         (cancelledRef h) (abortControllerRef h)).
Definition set_cancelledRef (b : bool) : World → World :=
  with_hook (λ h, mkHook (isProcessing h) (progress_state h) (stems h)
                         (error_state h) b (abortControllerRef h)).
Definition set_abortControllerRef (a : option bool) : World → World :=
  with_hook (λ h, mkHook (isProcessing h) (progress_state h) (stems h)
                         (error_state h) (cancelledRef h) a).

(** [setProgress(value)] *)
Definition setProgress (sp : SeparationProgress) (w : World) : World :=
  mkWorld (mkHook (isProcessing (hook w)) sp (stems (hook w)) (error_state (hook w))
                  (cancelledRef (hook w)) (abortControllerRef (hook w)))
          (tasks w) (calls w) (emitted w ++ [sp]).

Definition send (c : Call) (w : World) : World :=
  mkWorld (hook w) (tasks w) (calls w ++ [c]) (emitted w).

Definition spawn (k : Task) (w : World) : World :=
  mkWorld (hook w) (tasks w ++ [k]) (calls w) (emitted w).

Definition set_task (t : nat) (k : Task) (w : World) : World :=
  mkWorld (hook w) (<[t := k]> (tasks w)) (calls w) (emitted w).

Section WithPlatform.

(** Whether [new URL(s)] returns rather than throws; the URL parser is the
    platform's. *)
Variable URL_parses : string → bool.

(** [isValidUrl] (lines 71-84). *)
Definition isValidUrl (urlString : string) : bool :=
  if bool_decide (urlString = EmptyString) then false
  else if includes "undefined" urlString then false
  else URL_parses urlString.

(** The [catch] and [finally] of [separate] and [separateFromUrl]
    (lines 271-287 and 313-329). *)
Definition reject (t : nat) (f : Failure) (w : World) : World :=
  let errorMessage := failure_message f in
  let w := if bool_decide (errorMessage ≠ "Cancelled")
           then setProgress (mkProgress error 0 errorMessage)
                            (setError (Some errorMessage) w)
           else w in
  set_task t (Rejected f) (setIsProcessing false w).

(** The normal end of the two functions (lines 263-270 and 305-312). *)
Definition resolve (t : nat) (results : list StemResult) (w : World) : World :=
  let w := setProgress (mkProgress complete 100 "Szétválasztás kész!")
                       (setStems results w) in
  set_task t (Resolved results) (setIsProcessing false w).

(** The common prologue of the two functions (lines 255-258, 294-297). *)
Definition begin (w : World) : World :=
  set_cancelledRef false (setStems [] (setError None (setIsProcessing true w))).

(** [processSeparation] up to its [await] (lines 163-194); the caller
    suspends at [AwaitInvoke]. *)
Definition processSeparation_start (audioUrl modelName : string) (w : World) : World :=
  let w := setProgress (mkProgress processing 30 "Stem szétválasztás indítása...") w in
  let w := set_abortControllerRef (Some false) w in
  send (InvokeSeparation audioUrl modelName) w.

(** [processSeparation] after its [await], as a value thrown or returned
    (lines 196-243). *)
Definition truthy_text (s : option string) : bool :=
  match s with
  | Some s => negb (bool_decide (s = EmptyString))
  | None => false
  end.

Definition processSeparation_result (cancelled : bool) (r : InvokeResult)
  : Failure + list StemResult :=
  if cancelled then inl Cancelled
  else match invokeError r with
  | Some m => inl (InvokeError m)
  | None =>
    let error := data r ≫= data_error in
    if truthy_text error then
      let userMessage := getErrorMessage (data r ≫= data_errorType) (default EmptyString error) in
      let details := data r ≫= data_details in
      let details := if truthy_text details
                     then " (" ++ default EmptyString details ++ ")" else EmptyString in
      inl (RemoteProcessingError (to_text userMessage ++ details))
    else if negb (bool_decide (data r ≫= data_status = Some "succeeded")) then
      inl UnexpectedStatus
    else match data r ≫= data_output with
    | Some (JObject entries) =>
        let results := extract_stems STEM_LABELS entries in
        if bool_decide (length results = 0%nat) then inl NoStemsProducedError
        else inr results
    | _ => inl InvalidOutput
    end
  end.

(** The progress interval's callback (lines 172-181). *)
Definition ramp (prev : SeparationProgress) : option SeparationProgress :=
  if bool_decide (progress prev < 90)%Z
  then Some (mkProgress (stage prev) (Z.min (progress prev + 5) 90)
               "Szétválasztás folyamatban (ez eltarthat 1-5 percig)...")
  else None.

(** [cancel] (lines 332-343). *)
Definition cancel (w : World) : World :=
  let w := set_cancelledRef true w in
  let w := match abortControllerRef (hook w) with
           | Some _ => set_abortControllerRef (Some true) w
           | None => w
           end in
  setProgress (mkProgress idle 0 "Megszakítva") (setIsProcessing false w).

(** One step of the hook.  [None]: the event cannot happen in this state. *)
Definition step (w : World) (e : Event) : option World :=
  match e with
  | call_separate fileName uuid modelName =>
      let modelName := default "htdemucs_ft" modelName in
      let filePath := "uploads/" ++ uuid ++ "-" ++ fileName in
      let w := begin w in
      let w := setProgress (mkProgress uploading 10 "Feltöltés folyamatban...") w in
      Some (spawn (AwaitUpload filePath modelName) (send (StorageUpload filePath) w))
  | call_separateFromUrl audioUrl modelName =>
      let modelName := default "htdemucs_ft" modelName in
      Some (spawn (AwaitInvoke audioUrl modelName)
                  (processSeparation_start audioUrl modelName (begin w)))
  | call_cancel => Some (cancel w)
  | upload_settled t uploadError =>
      match tasks w !! t with
      | Some (AwaitUpload filePath modelName) =>
          match uploadError with
          | Some m => Some (reject t (UploadError m) w)
          | None => Some (set_task t (AwaitSignedUrl filePath modelName)
                                   (send (CreateSignedUrl filePath) w))
          end
      | _ => None
      end
  | signedUrl_settled t urlData urlError =>
      match tasks w !! t with
      | Some (AwaitSignedUrl filePath modelName) =>
          match urlError, urlData with
          | Some m, _ =>
              Some (reject t (SignedUrlError
                                (if bool_decide (m = EmptyString) then "Unknown error" else m)) w)
          | None, None => Some (reject t (SignedUrlError "Unknown error") w)
          | None, Some signedUrl =>
              if isValidUrl signedUrl
              then Some (set_task t (AwaitInvoke signedUrl modelName)
                                  (processSeparation_start signedUrl modelName w))
              else Some (reject t (InvalidLocationError signedUrl) w)
          end
      | _ => None
      end
  | invoke_settled t r =>
      match tasks w !! t with
      | Some (AwaitInvoke _ _) =>
          let outcome := processSeparation_result (cancelledRef (hook w)) r in
          let w := set_abortControllerRef None w in
          match outcome with
          | inl f => Some (reject t f w)
          | inr results => Some (resolve t results w)
          end
      | _ => None
      end
  | interval_tick t =>
      match tasks w !! t with
      | Some (AwaitInvoke _ _) =>
          match ramp (progress_state (hook w)) with
          | Some sp => Some (setProgress sp w)
          | None => Some w
          end
      | _ => None
      end
  end.

Fixpoint run (w : World) (events : list Event) : option World :=
  match events with
  | [] => Some w
  | e :: events => w' ← step w e; run w' events
  end.

End WithPlatform.

(** Activations that have not finished. *)
Definition pending (k : Task) : bool :=
  match k with
  | Resolved _ | Rejected _ => false
  | _ => true
  end.

Definition outstanding (w : World) : nat := length (filter (λ k, pending k = true) (tasks w)).

End Sync.

(** * The orchestrator, submit-then-poll protocol (earlier revision) *)
Module Polling.
Import Stems.

(** [STEM_LABELS] (lines 26-33). *)
Definition STEM_LABELS : gmap string string :=
  list_to_map
    [ ("vocals", "Vocals"); ("drums", "Drums"); ("bass", "Bass");
      ("other", "Other"); ("guitar", "Guitar"); ("piano", "Piano") ].

Definition POLL_INTERVAL : Z := 2000.

(** The body the edge function answers with; every field may be absent. *)
Record ResponseData := mkData {
  data_error : option string;
  data_id : option string;
  data_status : option string;
  data_output : option json
}.

Record InvokeResult := mkInvoke {
  data : option ResponseData;
  invokeError : option string
}.

(** The values the hook throws: its [throw new Error(...)] sites and the
    [TypeError]s of a property read on a null body and of [Object.entries]
    on a missing output (with V8's messages). *)
Inductive Failure :=
  | Cancelled                          (* line 108 *)
  | UploadError (msg : string)         (* line 68 *)
  | StartError (msg : string)          (* line 95 *)
  | StartRejected (text : string)      (* line 99 *)
  | StatusError (msg : string)         (* line 116 *)
  | SeparationFailed (text : string)   (* line 141 *)
  | TypeError (text : string).

Definition failure_message (f : Failure) : string :=
  match f with
  | Cancelled => "Cancelled"
  | UploadError m => "Upload failed: " ++ m
  | StartError m => "Failed to start separation: " ++ m
  | StartRejected t => t
  | StatusError m => "Failed to check status: " ++ m
  | SeparationFailed t => t
  | TypeError t => t
  end.

(** The React state and the two refs (lines 38-48); [pollTimeoutRef] holds
    the handle of the last timer created. *)
Record Hook := mkHook {
  isProcessing : bool;
  progress_state : SeparationProgress;
  stems : list StemResult;
  error_state : option string;
  cancelledRef : bool;
  pollTimeoutRef : option nat
}.

(** An activation of [separate] or [separateFromUrl].  [selectedStems] is
    [None] in [separate], which does not filter.  [Orphaned]: the timer the
    activation waits for was cleared, its promise never settles. *)
Inductive Task :=
  | AwaitUpload (filePath : string)
  | AwaitSubmit (selectedStems : option (list string))
  | AwaitStatus (predictionId : option string) (selectedStems : option (list string))
  | AwaitTimer (timer : nat) (predictionId : option string)
               (selectedStems : option (list string))
  | Orphaned
  | Resolved (results : list StemResult)
  | Rejected (f : Failure).

Inductive Call :=
  | StorageUpload (filePath : string)
  | StartSeparation (audioUrl : string) (stem : option string)
  | FetchStatus (predictionId : option string).

Record World := mkWorld {
  hook : Hook;
  tasks : list Task;
  timers : nat;
  calls : list Call;
  emitted : list SeparationProgress
}.

(** [publicUrl] is what [getPublicUrl] computes for the uploaded path. *)
Inductive Event :=
  | call_separate (fileName uuid : string)
  | call_separateFromUrl (audioUrl : string) (selectedStems : option (list string))
  | call_cancel
  | upload_settled (t : nat) (uploadError : option string) (publicUrl : string)
  | submit_settled (t : nat) (r : InvokeResult)
  | status_settled (t : nat) (r : InvokeResult)
  | timer_fired (t : nat).

Definition initial : World :=
  {| hook := {| isProcessing := false;
                progress_state := mkProgress idle 0 "Ready";
                stems := []; error_state := None;
                cancelledRef := false; pollTimeoutRef := None |};
     tasks := []; timers := 0; calls := []; emitted := [] |}.

Definition with_hook (f : Hook → Hook) (w : World) : World :=
  mkWorld (f (hook w)) (tasks w) (timers w) (calls w) (emitted w).

Definition setIsProcessing (b : bool) : World → World :=
  with_hook (λ h, mkHook b (progress_state h) (stems h) (error_state h)
                         (cancelledRef h) (pollTimeoutRef h)).
Definition setStems (s : list StemResult) : World → World :=
  with_hook (λ h, mkHook (isProcessing h) (progress_state h) s (error_state h)
                         (cancelledRef h) (pollTimeoutRef h)).
Definition setError (e : option string) : World → World :=
  with_hook (λ h, mkHook (isProcessing h) (progress_state h) (stems h) e
                         (cancelledRef h) (pollTimeoutRef h)).
Definition set_cancelledRef (b : bool) : World → World :=
  with_hook (λ h, mkHook (isProcessing h) (progress_state h) (stems h)
                         (error_state h) b (pollTimeoutRef h)).

Definition setProgress (sp : SeparationProgress) (w : World) : World :=
  mkWorld (mkHook (isProcessing (hook w)) sp (stems (hook w)) (error_state (hook w))
                  (cancelledRef (hook w)) (pollTimeoutRef (hook w)))
          (tasks w) (timers w) (calls w) (emitted w ++ [sp]).

Definition send (c : Call) (w : World) : World :=
  mkWorld (hook w) (tasks w) (timers w) (calls w ++ [c]) (emitted w).

Definition spawn (k : Task) (w : World) : World :=
  mkWorld (hook w) (tasks w ++ [k]) (timers w) (calls w) (emitted w).

Definition set_task (t : nat) (k : Task) (w : World) : World :=
  mkWorld (hook w) (<[t := k]> (tasks w)) (timers w) (calls w) (emitted w).

(** [pollTimeoutRef.current = setTimeout(resolve, POLL_INTERVAL)] by task
    [t] (lines 163-165). *)
Definition setTimeout (t : nat) (predictionId : option string)
    (selectedStems : option (list string)) (w : World) : World :=
  let timer := S (timers w) in
  mkWorld (mkHook (isProcessing (hook w)) (progress_state (hook w)) (stems (hook w))
                  (error_state (hook w)) (cancelledRef (hook w)) (Some timer))
          (<[t := AwaitTimer timer predictionId selectedStems]> (tasks w))
          timer (calls w) (emitted w).

(** [clearTimeout(timer)]: the activation waiting for it, if any, never
    resumes. *)
Definition clearTimeout (timer : nat) (w : World) : World :=
  mkWorld (hook w)
          ((λ k, match k with
                 | AwaitTimer timer' _ _ =>
                     if bool_decide (timer' = timer) then Orphaned else k
                 | _ => k
                 end) <$> tasks w)
          (timers w) (calls w) (emitted w).

(** The [catch] and [finally] of the two functions (lines 206-221, 250-265). *)
Definition reject (t : nat) (f : Failure) (w : World) : World :=
  let errorMessage := failure_message f in
  let w := if bool_decide (errorMessage ≠ "Cancelled")
           then setProgress (mkProgress error 0 errorMessage)
                            (setError (Some errorMessage) w)
           else w in
  set_task t (Rejected f) (setIsProcessing false w).

(** The filter of [separateFromUrl] (lines 194-196) and the normal end of
    both functions (lines 198-205, 242-249). *)
Definition filter_selected (selectedStems : option (list string))
    (results : list StemResult) : list StemResult :=
  match selectedStems with
  | Some (x :: l) => filter (λ r, id r ∈ x :: l) results
  | _ => results
  end.

Definition resolve (t : nat) (selectedStems : option (list string))
    (results : list StemResult) (w : World) : World :=
  let filteredResults := filter_selected selectedStems results in
  let w := setProgress (mkProgress complete 100 "Separation complete!")
                       (setStems filteredResults w) in
  set_task t (Resolved filteredResults) (setIsProcessing false w).

(** The common prologue (lines 177-180, 225-228). *)
Definition begin (w : World) : World :=
  set_cancelledRef false (setStems [] (setError None (setIsProcessing true w))).

(** [startSeparation] up to its [await] (lines 78-92). *)
Definition startSeparation_start (audioUrl : string) (stem : option string)
    (w : World) : World :=
  send (StartSeparation audioUrl stem)
       (setProgress (mkProgress processing 20 "Starting stem separation...") w).

(** [poll] up to its first [await] (lines 106-113). *)
Definition poll (t : nat) (predictionId : option string)
    (selectedStems : option (list string)) (w : World) : World :=
  if cancelledRef (hook w) then reject t Cancelled w
  else set_task t (AwaitStatus predictionId selectedStems)
                (send (FetchStatus predictionId) w).

Definition truthy_text (s : option string) : bool :=
  match s with
  | Some s => negb (bool_decide (s = EmptyString))
  | None => false
  end.

(** The progress shown for a status that is not terminal (lines 144-154). *)
Definition status_progress (status : option string) : SeparationProgress :=
  if bool_decide (status = Some "starting")
  then mkProgress processing 25 "Starting AI model..."
  else if bool_decide (status = Some "processing")
  then mkProgress processing 50 "Separating stems (this may take a few minutes)..."
  else mkProgress processing 30 "Processing...".

(** [cancel] (lines 268-279); timer handles are positive, hence truthy. *)
Definition cancel (w : World) : World :=
  let w := set_cancelledRef true w in
  let w := match pollTimeoutRef (hook w) with
           | Some timer => clearTimeout timer w
           | None => w
           end in
  setProgress (mkProgress idle 0 "Cancelled") (setIsProcessing false w).

(** One step of the hook.  [None]: the event cannot happen in this state. *)
Definition step (w : World) (e : Event) : option World :=
  match e with
  | call_separate fileName uuid =>
      let filePath := "uploads/" ++ uuid ++ "-" ++ fileName in
      let w := begin w in
      let w := setProgress (mkProgress uploading 10 "Uploading audio file...") w in
      Some (spawn (AwaitUpload filePath) (send (StorageUpload filePath) w))
  | call_separateFromUrl audioUrl selectedStems =>
      let stem := match selectedStems with
                  | Some [x] => Some x
                  | _ => None
                  end in
      Some (spawn (AwaitSubmit selectedStems)
                  (startSeparation_start audioUrl stem (begin w)))
  | call_cancel => Some (cancel w)
  | upload_settled t uploadError publicUrl =>
      match tasks w !! t with
      | Some (AwaitUpload filePath) =>
          match uploadError with
          | Some m => Some (reject t (UploadError m) w)
          | None => Some (set_task t (AwaitSubmit None)
                                   (startSeparation_start publicUrl None w))
          end
      | _ => None
      end
  | submit_settled t r =>
      match tasks w !! t with
      | Some (AwaitSubmit selectedStems) =>
          match invokeError r, data r with
          | Some m, _ => Some (reject t (StartError m) w)
          | None, None =>
              Some (reject t (TypeError
                     "Cannot read properties of null (reading 'error')") w)
          | None, Some d =>
              if truthy_text (data_error d)
              then Some (reject t (StartRejected (default EmptyString (data_error d))) w)
              else Some (poll t (data_id d) selectedStems w)
          end
      | _ => None
      end
  | status_settled t r =>
      match tasks w !! t with
      | Some (AwaitStatus predictionId selectedStems) =>
          match invokeError r, data r with
          | Some m, _ => Some (reject t (StatusError m) w)
          | None, None =>
              Some (reject t (TypeError
                     "Cannot read properties of null (reading 'status')") w)
          | None, Some d =>
              let status := data_status d in
              if bool_decide (status = Some "succeeded") then
                match Object_entries (data_output d) with
                | Some entries =>
                    Some (resolve t selectedStems (extract_stems STEM_LABELS entries) w)
                | None =>
                    Some (reject t (TypeError
                           "Cannot convert undefined or null to object") w)
                end
              else if bool_decide (status = Some "failed")
                      || bool_decide (status = Some "canceled") then
                Some (reject t (SeparationFailed
                        (if truthy_text (data_error d) then default EmptyString (data_error d)
                         else "Separation failed")) w)
              else
                Some (setTimeout t predictionId selectedStems
                        (setProgress (status_progress status) w))
          end
      | _ => None
      end
  | timer_fired t =>
      match tasks w !! t with
      | Some (AwaitTimer _ predictionId selectedStems) =>
          Some (poll t predictionId selectedStems w)
      | _ => None
      end
  end.

Fixpoint run (w : World) (events : list Event) : option World :=
  match events with
  | [] => Some w
  | e :: events => w' ← step w e; run w' events
  end.

Definition pending (k : Task) : bool :=
  match k with
  | Resolved _ | Rejected _ | Orphaned => false
  | _ => true
  end.

Definition outstanding (w : World) : nat := length (filter (λ k, pending k = true) (tasks w)).

End Polling.


(** * The edge function stem-separation, FastAPI revision

    The function the synchronous hook invokes.  Its platform (URL parser,
    [decodeURIComponent]) is a parameter; what the network answers is part of
    the environment of a call. *)
Module Edge.
Import Stems.

(** The outcome of an operation that may throw an [Error] with a message. *)
Inductive outcome (A : Type) : Type :=
  | Throws (message : string)
  | Returns (v : A).
Arguments Throws {A} message.
Arguments Returns {A} v.

(** What [isValidUrl] returns (lines 9-38). *)
Inductive Validation :=
  | Valid
  | Invalid (reason : string).

(** A parsed URL, as far as the function looks at it. *)
Record Url := mkUrl {
  protocol : string;
  hostname : string
}.

(** The destructured request body (line 84), typed as the two clients send
    it: [audioUrl] is any JSON value, [modelName] and [outputFormat] are
    strings; [None] is an absent field. *)
Record Fields := mkFields {
  audioUrl : option json;
  modelName : option string;
  outputFormat : option string
}.

(** A request: its method and what [req.json()] followed by the
    destructuring gives; it throws for a body that is not JSON and for the
    body [null]. *)
Record Request := mkRequest {
  method : string;
  json_body : outcome Fields
}.

(** The bytes of the downloaded file. *)
Definition Blob := string.

(** What the function posts to the FastAPI backend (lines 163-166). *)
Record FormData := mkForm {
  file : Blob;
  filename : string;
  model_name : string;
  output_format : string
}.

(** The answer to the download of the audio file: the fetch rejects, or it
    responds with a status and a body that [blob()] reads or fails to read. *)
Inductive Download :=
  | download_fails (message : string)
  | download_responds (status : nat) (blob : outcome Blob).

(** The parsed answer of the backend: [result.stems] and
    [result.processing_time], [None] when absent. *)
Record Result := mkResult {
  stems : option json;
  processing_time : option json
}.

(** The answer of the backend: the fetch rejects, or it responds with a
    status, a body that [text()] reads or not, and that [json()] parses or
    not ([json()] followed by [result.stems] also throws for [null]). *)
Inductive Separation :=
  | separation_fails (message : string)
  | separation_responds (status : nat) (text : outcome string) (parsed : outcome Result).

(** The environment of one call. *)
Record Env := mkEnv {
  AUDIO_SPLITTER_API_URL : option string;
  download : string → Download;
  separate : string → FormData → Separation
}.

(** The requests the function makes. *)
Inductive Fetch :=
  | fetch_audio (url : string)
  | fetch_backend (url : string) (form : FormData).

(** The JSON body of a response. *)
Inductive Body :=
  | NoBody
  | ErrorBody (error : string) (details : option string) (errorType : string)
              (statusCode : option nat)
  | SuccessBody (output : list (string * json)) (processing_time : option json).

Record Response := mkResponse {
  status : nat;
  body : Body
}.

(** [response.ok] *)
Definition ok (status : nat) : bool := Nat.leb 200 status && Nat.leb status 299.

(** Truthiness of a JSON value. *)
Definition truthy (v : json) : bool :=
  match v with
  | JNull => false
  | JBool b => b
  | JNum n => negb (Z.eqb n 0)
  | JStr s => negb (bool_decide (s = EmptyString))
  | JObject _ => true
  end.

(** The quotation mark. *)
Definition quot : string := String (Ascii.ascii_of_nat 34) EmptyString.

(** [s.split("/")] and its last element. *)
Fixpoint last_segment_from (acc s : string) : string :=
  match s with
  | EmptyString => acc
  | String c s' =>
      if Nat.eqb (Ascii.nat_of_ascii c) 47 then last_segment_from EmptyString s'
      else last_segment_from (acc ++ String c EmptyString) s'
  end.

Definition last_segment (s : string) : string := last_segment_from EmptyString s.

(** [stemData.url] of an object that has the key. *)
Definition field (k : string) (entries : list (string * json)) : option json :=
  snd <$> List.find (λ e, bool_decide (e.1 = k)) entries.

(** [output[k] = v] on an object literal: the key "__proto__" reaches the
    setter of [Object.prototype] and creates no own property; a present key
    keeps its place. *)
Definition assign (k : string) (v : json) (output : list (string * json))
  : list (string * json) :=
  if bool_decide (k = "__proto__") then output
  else if bool_decide (k ∈ output.*1)
  then (λ e, if bool_decide (e.1 = k) then (k, v) else e) <$> output
  else output ++ [(k, v)].

(** The data URL made of a base64 payload (line 229). *)
Definition data_url (outputFormat payload : string) : string :=
  "data:audio/" ++ outputFormat ++ ";base64," ++ payload.

(** The loop over [result.stems] (lines 220-237). *)
Definition transform (outputFormat : string) (stems : option json)
  : list (string * json) :=
  match stems with
  | Some s =>
      if truthy s then
        foldl (λ output e,
                 match e.2 with
                 | JStr stemData =>
                     if String.prefix "data:" stemData
                     then assign e.1 (JStr stemData) output
                     else assign e.1 (JStr (data_url outputFormat stemData)) output
                 | JObject entries =>
                     match field "url" entries with
                     | Some url => assign e.1 url output
                     | None => output
                     end
                 | _ => output
                 end)
              [] (default [] (Object_entries (Some s)))
      else []
  | None => []
  end.

(** The error responses (lines 50-61, 68-78, 87-96, 103-113, 127-137,
    142-152, 180-190, 201-211, 251-261). *)
Definition missing_backend_config : Response :=
  mkResponse 500
    (ErrorBody "AUDIO_SPLITTER_API_URL is not configured"
       (Some "The backend audio processing service URL is not set. Please configure the AUDIO_SPLITTER_API_URL environment variable with your FastAPI backend URL (e.g., http://localhost:8000 for local development).")
       "MISSING_BACKEND_CONFIG" None).

Definition invalid_backend_url (reason : string) : Response :=
  mkResponse 500
    (ErrorBody "Invalid AUDIO_SPLITTER_API_URL format"
       (Some ("The backend URL is not valid: " ++ reason))
       "INVALID_BACKEND_URL" None).

Definition missing_audio_url : Response :=
  mkResponse 400
    (ErrorBody "Missing required field: audioUrl" None "MISSING_AUDIO_URL" None).

Definition invalid_audio_url (reason : string) : Response :=
  mkResponse 400
    (ErrorBody "Invalid audio URL format"
       (Some ("The audio URL is not valid: " ++ reason ++
              ". Make sure the Supabase storage is configured correctly and the file was uploaded successfully."))
       "INVALID_AUDIO_URL" None).

Definition audio_download_failed (errorMsg : string) : Response :=
  mkResponse 500
    (ErrorBody "Failed to download audio file"
       (Some ("Could not download the audio file from the storage URL: " ++ errorMsg ++
              ". This may indicate a network issue or the audio file is no longer available."))
       "AUDIO_DOWNLOAD_FAILED" None).

Definition audio_download_http_error (status : nat) : Response :=
  mkResponse 500
    (ErrorBody "Failed to download audio file"
       (Some ("The server returned status " ++ pretty status ++
              ". The audio file may not exist or may not be accessible."))
       "AUDIO_DOWNLOAD_HTTP_ERROR" None).

Definition backend_connection_failed (backend errorMsg : string) : Response :=
  mkResponse 500
    (ErrorBody "Backend server unreachable"
       (Some ("Could not connect to the audio processing backend at " ++ backend ++ ": " ++
              errorMsg ++ ". Make sure the FastAPI backend is running and accessible."))
       "BACKEND_CONNECTION_FAILED" None).

Definition processing_failed (status : nat) (errorText : string) : Response :=
  mkResponse 500
    (ErrorBody "Audio processing failed"
       (Some ("The FastAPI backend returned an error: " ++ errorText))
       "PROCESSING_FAILED" (Some status)).

Definition unexpected_error (errorMessage : string) : Response :=
  mkResponse 500
    (ErrorBody "Unexpected error" (Some errorMessage) "UNEXPECTED_ERROR" None).

Section WithPlatform.

(** [new URL(s)]: the parsed URL, or the [TypeError] it throws. *)
Variable new_URL : string → outcome Url.

(** [decodeURIComponent(s)], or the [URIError] it throws. *)
Variable decodeURIComponent : string → outcome string.

(** [isValidUrl] (lines 9-38). *)
Definition isValidUrl (urlString : json) : Validation :=
  match urlString with
  | JStr s =>
      if bool_decide (s = EmptyString) then Invalid "URL must be a non-empty string"
      else if includes "undefined" s
      then Invalid ("URL contains " ++ quot ++ "undefined" ++ quot)
      else match new_URL s with
           | Throws errorMsg => Invalid errorMsg
           | Returns url =>
               if negb (bool_decide (protocol url ∈ ["http:"; "https:"]))
               then Invalid "URL must use http or https protocol"
               else if bool_decide (hostname url = EmptyString)
               then Invalid "URL must have a valid hostname"
               else Valid
           end
  | _ => Invalid "URL must be a non-empty string"
  end.

(** The handler from the download on (lines 119-247), for a validated audio
    URL. *)
Definition process (env : Env) (backend url : string) (f : Fields)
  : Response * list Fetch :=
  match download env url with
  | download_fails errorMsg => (audio_download_failed errorMsg, [fetch_audio url])
  | download_responds st blob =>
      if negb (ok st) then (audio_download_http_error st, [fetch_audio url])
      else match blob with
      | Throws errorMessage => (unexpected_error errorMessage, [fetch_audio url])
      | Returns audioBlob =>
          let last := last_segment url in
          let name := if bool_decide (last = EmptyString) then "audio.mp3" else last in
          match decodeURIComponent name with
          | Throws errorMessage => (unexpected_error errorMessage, [fetch_audio url])
          | Returns name =>
              let format := default "mp3" (outputFormat f) in
              let formData :=
                {| file := audioBlob; filename := name;
                   model_name := default "htdemucs_ft" (modelName f);
                   output_format := format |} in
              let target := backend ++ "/api/separate" in
              let fetches := [fetch_audio url; fetch_backend target formData] in
              match separate env target formData with
              | separation_fails errorMsg =>
                  (backend_connection_failed backend errorMsg, fetches)
              | separation_responds st text parsed =>
                  if negb (ok st) then
                    let errorText :=
                      match text with
                      | Returns t => t
                      | Throws _ => "Unable to read error response"
                      end in
                    (processing_failed st errorText, fetches)
                  else match parsed with
                  | Throws errorMessage => (unexpected_error errorMessage, fetches)
                  | Returns result =>
                      (mkResponse 200
                         (SuccessBody (transform format (stems result))
                                      (processing_time result)),
                       fetches)
                  end
              end
          end
      end
  end.

(** The handler (lines 40-263): the response and the requests made, in
    order. *)
Definition serve (env : Env) (req : Request) : Response * list Fetch :=
  if bool_decide (method req = "OPTIONS") then (mkResponse 200 NoBody, [])
  else match AUDIO_SPLITTER_API_URL env with
  | None => (missing_backend_config, [])
  | Some backend =>
      if bool_decide (backend = EmptyString) then (missing_backend_config, [])
      else match isValidUrl (JStr backend) with
      | Invalid reason => (invalid_backend_url reason, [])
      | Valid =>
          match json_body req with
          | Throws errorMessage => (unexpected_error errorMessage, [])
          | Returns f =>
              match audioUrl f with
              | None => (missing_audio_url, [])
              | Some v =>
                  if negb (truthy v) then (missing_audio_url, [])
                  else match isValidUrl v, v with
                  | Invalid reason, _ => (invalid_audio_url reason, [])
                  | Valid, JStr url => process env backend url f
                  | Valid, _ =>
                      (* not reached: [isValidUrl] accepts strings only *)
                      (invalid_audio_url "URL must be a non-empty string", [])
                  end
              end
          end
      end
  end.

End WithPlatform.

End Edge.

(** * The separator component (components/audio/StemSeparator.tsx), caller of
      useStemSeparation *)
Module Separator.
Import Stems.


Definition initial_selection : list string := ["vocals"; "drums"; "bass"; "other"].

(** [handleStemToggle] (lines 45-51), as the update of [selectedStems]. *)
Definition handleStemToggle (stemId : string) (prev : list string) : list string :=
  if bool_decide (stemId ∈ prev)
  then filter (λ s, s ≠ stemId) prev
  else prev ++ [stemId].


(** The part of an [HTMLAudioElement] the preview uses; [at_end] is its
    [ended] attribute. *)
Record Element := mkElement {
  src : string;
  paused : bool;
  currentTime : Q;
  at_end : bool
}.

(** [new Audio(url)], [audio.pause(); audio.currentTime = 0] and
    [audio.play()], which starts an element that has ended from the
    beginning. *)
Definition new_Audio (url : string) : Element := mkElement url true 0 false.

Definition pause_and_rewind (a : Element) : Element := mkElement (src a) true 0 false.

Definition play (a : Element) : Element :=
  mkElement (src a) false (if at_end a then 0%Q else currentTime a) false.

(** The state of the preview: [playingStem] (line 42) and the [Map] of
    [audioRefs] (line 43). *)
Record Preview := mkPreview {
  playingStem : option string;
  audioRefs : gmap string Element
}.

Definition no_preview : Preview := {| playingStem := None; audioRefs := ∅ |}.

(** [handlePlayStem] (lines 73-97).  [if (playingStem)] is false for
    [null] and for the empty string. *)
Definition handlePlayStem (stem : StemResult) (v : Preview) : Preview :=
  let refs :=
    match playingStem v with
    | Some current =>
        if bool_decide (current = EmptyString) then audioRefs v
        else match audioRefs v !! current with
             | Some currentAudio =>
                 <[current := pause_and_rewind currentAudio]> (audioRefs v)
             | None => audioRefs v
             end
    | None => audioRefs v
    end in
  if bool_decide (playingStem v = Some (id stem)) then mkPreview None refs
  else
    let audio := match refs !! id stem with
                 | Some audio => audio
                 | None => new_Audio (url stem)
                 end in
    mkPreview (Some (id stem)) (<[id stem := play audio]> refs).

(** What happens to the preview: a click on the play button of a stem, the
    playing element of stem [k] advancing to position [x], and its reaching
    the end of the media, where the element pauses itself and its [onended]
    handler (line 91) runs. *)
Inductive Event :=
  | click (stem : StemResult)
  | plays (k : string) (x : Q)
  | reaches_end (k : string).

Definition step (v : Preview) (e : Event) : option Preview :=
  match e with
  | click stem => Some (handlePlayStem stem v)
  | plays k x =>
      match audioRefs v !! k with
      | Some a => if paused a then None
                  else Some (mkPreview (playingStem v)
                                       (<[k := mkElement (src a) false x false]>
                                          (audioRefs v)))
      | None => None
      end
  | reaches_end k =>
      match audioRefs v !! k with
      | Some a => if paused a then None
                  else Some (mkPreview None
                                       (<[k := mkElement (src a) true (currentTime a) true]>
                                          (audioRefs v)))
      | None => None
      end
  end.

Fixpoint run (v : Preview) (events : list Event) : option Preview :=
  match events with
  | [] => Some v
  | e :: events => v' ← step v e; run v' events
  end.











End Separator.

(** * The edit page (pages/Edit.tsx), caller of useAudioPlayer *)
Module EditPage.
Import Mix.



(** [hasSolo] of the page (line 85). *)
Definition hasSolo (p : Player) : bool :=
  existsb (λ s, s) (Object_values (soloStems p)).





End EditPage.

(** * The project store (hooks/useLocalProjects.ts), used by the pages *)
Module LocalProjects.

(** [StemData] (lines 5-9). *)
Record StemData := mkStemData {
  stem_id : string;
  stem_label : string;
  stem_url : string
}.

(** The JSON stored in the column [separation_config]; a field is [None]
    when the object does not have the key. *)
Record Config := mkConfig {
  cfg_stems : option (list StemData);
  cfg_selected_stems : option (list string);
  cfg_file_name : option string;
  cfg_file_type : option string
}.

(** A row of the table [projects] (integrations/supabase/types.ts lines
    75-89) without its owner; [None] is SQL [NULL]. *)
Record Row := mkRow {
  row_id : string;
  row_title : string;
  row_artist : option string;
  row_genre : option string;
  row_bpm : option Z;
  row_key : option string;
  row_duration : option Q;
  row_status : option string;
  row_created_at : string;
  row_updated_at : string;
  row_original_file_url : option string;
  row_separation_config : option Config
}.

(** [LocalProject] (lines 11-27); for the optional fields [None] is
    [undefined], for the nullable ones it is [null]. *)
Record LocalProject := mkProject {
  id : string;
  title : string;
  artist : option string;
  genre : option string;
  bpm : option Z;
  key : option string;
  duration : option Q;
  status : string;
  created_at : string;
  updated_at : string;
  original_file_url : option string;
  file_name : option string;
  file_type : option string;
  stems : option (list StemData);
  selected_stems : option (list string)
}.

(** [Partial<LocalProject>]: [None] is an absent key. *)
Record Updates := mkUpdates {
  u_id : option string;
  u_title : option string;
  u_artist : option (option string);
  u_genre : option (option string);
  u_bpm : option (option Z);
  u_key : option (option string);
  u_duration : option (option Q);
  u_status : option string;
  u_created_at : option string;
  u_updated_at : option string;
  u_original_file_url : option (option string);
  u_file_name : option string;
  u_file_type : option string;
  u_stems : option (list StemData);
  u_selected_stems : option (list string)
}.

Definition no_updates : Updates :=
  mkUpdates None None None None None None None None None None None None None None None.

(** The mapping of [loadProjects] (lines 51-65). *)
Definition mapped (p : Row) : LocalProject :=
  {| id := row_id p; title := row_title p; artist := row_artist p;
     genre := row_genre p; bpm := row_bpm p; key := row_key p;
     duration := row_duration p;
     status := match row_status p with
               | Some s => if bool_decide (s = EmptyString) then "uploaded" else s
               | None => "uploaded"
               end;
     created_at := row_created_at p; updated_at := row_updated_at p;
     original_file_url := row_original_file_url p;
     file_name := None; file_type := None;
     stems := row_separation_config p ≫= cfg_stems;
     selected_stems := row_separation_config p ≫= cfg_selected_stems |}.

(** The hook's list of projects together with the table behind it. *)
Record Store := mkStore {
  projects : list LocalProject;
  table : list Row
}.

(** [loadProjects] when the query succeeds (lines 43-67); the rows are those
    of the user, newest first. *)
Definition loadProjects (s : Store) : Store :=
  mkStore (mapped <$> table s) (table s).

(** [updateData] of [updateProject] applied to a row (lines 160-178): the
    eight columns that are given, a new [separation_config] when [stems] or
    [selected_stems] is given, and the time of the update. *)
Definition update_row (updates : Updates) (now : string) (p : Row) : Row :=
  {| row_id := row_id p;
     row_title := default (row_title p) (u_title updates);
     row_artist := default (row_artist p) (u_artist updates);
     row_genre := default (row_genre p) (u_genre updates);
     row_bpm := default (row_bpm p) (u_bpm updates);
     row_key := default (row_key p) (u_key updates);
     row_duration := default (row_duration p) (u_duration updates);
     row_status := match u_status updates with
                   | Some s => Some s
                   | None => row_status p
                   end;
     row_created_at := row_created_at p;
     row_updated_at := now;
     row_original_file_url :=
       default (row_original_file_url p) (u_original_file_url updates);
     row_separation_config :=
       if bool_decide (is_Some (u_stems updates) ∨ is_Some (u_selected_stems updates))
       then Some {| cfg_stems := Some (default [] (u_stems updates));
                    cfg_selected_stems := Some (default [] (u_selected_stems updates));
                    cfg_file_name := None; cfg_file_type := None |}
       else row_separation_config p |}.

(** [{ ...p, ...updates, updated_at }] (line 192). *)
Definition merged (updates : Updates) (now : string) (p : LocalProject) : LocalProject :=
  {| id := default (id p) (u_id updates);
     title := default (title p) (u_title updates);
     artist := default (artist p) (u_artist updates);
     genre := default (genre p) (u_genre updates);
     bpm := default (bpm p) (u_bpm updates);
     key := default (key p) (u_key updates);
     duration := default (duration p) (u_duration updates);
     status := default (status p) (u_status updates);
     created_at := default (created_at p) (u_created_at updates);
     updated_at := now;
     original_file_url := default (original_file_url p) (u_original_file_url updates);
     file_name := match u_file_name updates with Some x => Some x | None => file_name p end;
     file_type := match u_file_type updates with Some x => Some x | None => file_type p end;
     stems := match u_stems updates with Some x => Some x | None => stems p end;
     selected_stems := match u_selected_stems updates with
                       | Some x => Some x
                       | None => selected_stems p
                       end |}.

(** [updateProject] (lines 159-195).  [refused]: the request returns an
    error and changes no row; the hook then logs it and leaves its list as
    it is.  [now] and [now'] are the two readings of the clock. *)
Definition updateProject (refused : bool) (now now' : string) (pid : string)
    (updates : Updates) (s : Store) : Store :=
  if refused then s
  else mkStore
         ((λ p, if bool_decide (id p = pid) then merged updates now' p else p)
            <$> projects s)
         ((λ r, if bool_decide (row_id r = pid) then update_row updates now r else r)
            <$> table s).

(** [deleteProject] (lines 197-209). *)
Definition deleteProject (refused : bool) (pid : string) (s : Store) : Store :=
  if refused then s
  else mkStore (filter (λ p, id p ≠ pid) (projects s))
               (filter (λ r, row_id r ≠ pid) (table s)).

(** [getProject] (lines 211-213). *)
Definition getProject (pid : string) (s : Store) : option LocalProject :=
  snd <$> list_find (λ p, id p = pid) (projects s).

(** [getProjectWithFile] (lines 215-223): the project and
    [original_file_url || '']. *)
Definition getProjectWithFile (pid : string) (s : Store)
  : option (LocalProject * string) :=
  p ← getProject pid s; Some (p, default EmptyString (original_file_url p)).

End LocalProjects.

(** * The configure page (pages/Configure.tsx), as far as it saves *)
Module ConfigurePage.
Import LocalProjects.

(** The form of the page (lines 34-39). *)
Record Metadata := mkMetadata {
  m_artist : string;
  m_genre : string;
  m_bpm : option Z;
  m_key : string
}.

(** [x || null] *)
Definition or_null (x : string) : option string :=
  if bool_decide (x = EmptyString) then None else Some x.

(** The update of [handleStartProcessing] (lines 76-83).  [m_bpm] is what
    [metadata.bpm ? parseInt(metadata.bpm) : null] gives. *)
Definition start_updates (metadata : Metadata) (selectedStems : list string) : Updates :=
  {| u_id := None; u_title := None;
     u_artist := Some (or_null (m_artist metadata));
     u_genre := Some (or_null (m_genre metadata));
     u_bpm := Some (m_bpm metadata);
     u_key := Some (or_null (m_key metadata));
     u_duration := None; u_status := Some "processing";
     u_created_at := None; u_updated_at := None; u_original_file_url := None;
     u_file_name := None; u_file_type := None;
     u_stems := None; u_selected_stems := Some selectedStems |}.

(** The update of [handleSeparationComplete] (lines 97-100), given the
    [stemData] it made of the results. *)
Definition complete_updates (stemData : list StemData) : Updates :=
  {| u_id := None; u_title := None; u_artist := None; u_genre := None;
     u_bpm := None; u_key := None; u_duration := None;
     u_status := Some "completed";
     u_created_at := None; u_updated_at := None; u_original_file_url := None;
     u_file_name := None; u_file_type := None;
     u_stems := Some stemData; u_selected_stems := None |}.

(** The update of [handleSeparationError] (lines 115-117). *)
Definition error_updates : Updates :=
  {| u_id := None; u_title := None; u_artist := None; u_genre := None;
     u_bpm := None; u_key := None; u_duration := None;
     u_status := Some "error";
     u_created_at := None; u_updated_at := None; u_original_file_url := None;
     u_file_name := None; u_file_type := None;
     u_stems := None; u_selected_stems := None |}.

End ConfigurePage.

(** * Properties of the mix engine *)
Module MixFacts.
Import Mix.

Definition ids (p : Player) : list string := id <$> tracksRef p.

(** ** The resolution rule in the words of the specification *)

Definition anySoloed (p : Player) : bool :=
  existsb (λ t, soloed p (id t)) (tracksRef p).

Definition audible (p : Player) (t : AudioTrack) : bool :=
  (anySoloed p && soloed p (id t)) || (negb (anySoloed p) && negb (muted p (id t))).

(** ** States the rule is stated for *)

(** The tracks are those of the props, every stem has an entry in the three
    records, no stem without a track is soloed, and every stored volume is in
    [0, 100].  This is what mounting establishes and what the mutations the
    UI issues preserve. *)
Record consistent (o : Options) (p : Player) : Prop := {
  tracks_of_props : ∀ k, k ∈ ids p ↔ k ∈ stemIds o;
  volume_keyed : ∀ k, k ∈ stemIds o → is_Some (volumes p !! k);
  muted_keyed : ∀ k, k ∈ stemIds o → is_Some (mutedStems p !! k);
  solo_keyed : ∀ k, k ∈ stemIds o → is_Some (soloStems p !! k);
  solo_within_tracks : ∀ k, soloStems p !! k = Some true → k ∈ stemIds o;
  volumes_in_range : ∀ k v, volumes p !! k = Some v → (0 <= v <= 100)%Q
}.

(** A mutation the UI can issue: a volume in range, a solo toggle on a stem
    that has a track. *)
Definition admissible (o : Options) (m : Mutation) : Prop :=
  match m with
  | SetVolume _ v => (0 <= v <= 100)%Q
  | ToggleMute _ => True
  | ToggleSolo k => k ∈ stemIds o
  end.

(** The gain [updateTrackVolumes] writes to a track when it does not throw,
    and the state it leaves. *)
Definition gain (p : Player) (t : AudioTrack) : Q :=
  default 0%Q (effectiveVolume p t).

Definition with_volume (q : Q) (t : AudioTrack) : AudioTrack :=
  with_audio (mkAudio (audio_src (audio t)) q (audio_currentTime (audio t))
                      (audio_paused (audio t)) (audio_duration (audio t))) t.

Definition settled (p : Player) : Player :=
  set_tracksRef ((λ t, with_volume (gain p t) t) <$> tracksRef p) p.



(** Example sessions. *)
Definition four_stems : Options :=
  {| stemIds := ["vocals"; "drums"; "bass"; "other"]; audioUrls := ∅ |}.

Definition two_files : Options :=
  {| stemIds := ["vocals"; "drums"];
     audioUrls := <["vocals" := "https://cdn.example/vocals.mp3"]>
                    (<["drums" := "https://cdn.example/drums.mp3"]> ∅) |}.

Definition studio : Player := settled (init_effect four_stems (initial four_stems)).



(** One [loadedmetadata] event: the element of stem [e.1] reports the media
    duration [e.2]. *)
Definition report (p : Player) (e : string * Q) : Player :=
  on_loadedmetadata e.1 e.2 p.

(** ** The effect that writes the gains *)

Lemma mapM_pointwise {A B} (f : A → option B) (g : A → B) (l : list A) :
  (∀ x, x ∈ l → f x = Some (g x)) → mapM f l = Some (g <$> l).
Proof.
  intros H. apply mapM_Some. induction l as [|x l IH]; simpl.
  - constructor.
  - constructor.
    + apply H. left.
    + apply IH. intros y Hy. apply H. by right.
Qed.

Lemma write_volume_in_range q a :
  (0 <= q <= 1)%Q →
  write_volume (Some q) a =
    Some (mkAudio (audio_src a) q (audio_currentTime a) (audio_paused a) (audio_duration a)).
Proof.
  intros [H0 H1]. unfold write_volume.
  apply Qle_bool_iff in H0. apply Qle_bool_iff in H1. by rewrite H0, H1.
Qed.

Lemma centi_in_range v : (0 <= v <= 100)%Q → (0 <= v / 100 <= 1)%Q.
Proof.
  intros [H0 H1]. split.
  - apply Qle_shift_div_l; [reflexivity | lra].
  - apply Qle_shift_div_r; [reflexivity | lra].
Qed.

(** Without a throw, the effect rewrites the volume of every element and
    nothing else. *)
Lemma updateTrackVolumes_total p :
  (∀ t, t ∈ tracksRef p → ∃ q, effectiveVolume p t = Some q ∧ (0 <= q <= 1)%Q) →
  updateTrackVolumes p = Some (settled p).
Proof.
  intros H. unfold updateTrackVolumes, settled.
  rewrite (mapM_pointwise _ (λ t, with_volume (gain p t) t)); [done|].
  intros t Ht. destruct (H t Ht) as (q & Hq & Hr).
  unfold gain. rewrite Hq. by rewrite write_volume_in_range.
Qed.

Lemma in_ids p t : t ∈ tracksRef p → id t ∈ ids p.
Proof. intros. apply list_elem_of_fmap. eauto. Qed.

Lemma track_of_props o p t : consistent o p → t ∈ tracksRef p → id t ∈ stemIds o.
Proof. intros Hc Ht. apply (tracks_of_props o p Hc). by apply in_ids. Qed.

Lemma effectiveVolume_in_range o p t :
  consistent o p → t ∈ tracksRef p →
  ∃ q, effectiveVolume p t = Some q ∧ (0 <= q <= 1)%Q.
Proof.
  intros Hc Ht.
  destruct (volume_keyed o p Hc _ (track_of_props o p t Hc Ht)) as [v Hv].
  pose proof (centi_in_range v (volumes_in_range o p Hc _ _ Hv)) as Hr.
  assert (H01 : (0 <= 0 <= 1)%Q) by (split; discriminate).
  unfold effectiveVolume, js_get. rewrite Hv.
  destruct (hasSolo p); [destruct (truthy_flag _)|destruct (truthy_flag _)]; eauto.
Qed.

Lemma updateTrackVolumes_consistent o p :
  consistent o p → updateTrackVolumes p = Some (settled p).
Proof.
  intros Hc. apply updateTrackVolumes_total. intros.
  by apply (effectiveVolume_in_range o).
Qed.

(** [Object.values(soloStems).some(s => s)] sees exactly the soloed tracks. *)
Lemma hasSolo_true p : hasSolo p = true ↔ ∃ k, soloStems p !! k = Some true.
Proof.
  unfold hasSolo, Object_values. rewrite existsb_exists. split.
  - intros (b & Hin & ->). apply list_elem_of_In, list_elem_of_fmap in Hin.
    destruct Hin as ([k b] & Hb & Hin). simpl in Hb. subst b.
    apply elem_of_map_to_list in Hin. eauto.
  - intros (k & Hk). exists true. split; [|done].
    apply list_elem_of_In, list_elem_of_fmap. exists (k, true). split; [done|].
    by apply elem_of_map_to_list.
Qed.

Lemma soloed_true p k :
  soloStems p !! k = Some true → soloed p k = true.
Proof. intros H. unfold soloed, js_get. by rewrite H. Qed.

Lemma anySoloed_true p : anySoloed p = true ↔ ∃ t, t ∈ tracksRef p ∧ soloed p (id t) = true.
Proof.
  unfold anySoloed. rewrite existsb_exists. split.
  - intros (t & Hin & Ht). exists t. by rewrite list_elem_of_In.
  - intros (t & Hin & Ht). exists t. by rewrite <- list_elem_of_In.
Qed.

Lemma hasSolo_anySoloed o p :
  consistent o p → hasSolo p = anySoloed p.
Proof.
  intros Hc. apply eq_true_iff_eq. rewrite hasSolo_true, anySoloed_true. split.
  - intros (k & Hk). pose proof (solo_within_tracks o p Hc k Hk) as Hin.
    apply (tracks_of_props o p Hc), list_elem_of_fmap in Hin.
    destruct Hin as (t & -> & Ht).
    exists t. split; [done|]. by apply soloed_true.
  - intros (t & Ht & Hs).
    destruct (solo_keyed o p Hc _ (track_of_props o p t Hc Ht)) as [b Hb].
    unfold soloed, js_get in Hs. rewrite Hb in Hs. simpl in Hs. subst b. eauto.
Qed.



Lemma same_ids p q t :
  (∀ k, k ∈ ids p ↔ k ∈ ids q) → t ∈ tracksRef p → ∃ u, u ∈ tracksRef q ∧ id u = id t.
Proof.
  intros Hi Ht. apply in_ids, Hi in Ht.
  apply list_elem_of_fmap in Ht. destruct Ht as (u & ? & ?). eauto.
Qed.

Lemma anySoloed_ext p q :
  soloStems p = soloStems q → (∀ k, k ∈ ids p ↔ k ∈ ids q) →
  anySoloed p = anySoloed q.
Proof.
  intros Hs Hi. apply eq_true_iff_eq. rewrite !anySoloed_true.
  assert (E : ∀ a b, soloStems a = soloStems b → (∀ k, k ∈ ids a ↔ k ∈ ids b) →
            (∃ t, t ∈ tracksRef a ∧ soloed a (id t) = true) →
            ∃ t, t ∈ tracksRef b ∧ soloed b (id t) = true).
  { intros a b Hab Hids (t & Ht & Hsol).
    destruct (same_ids a b t Hids Ht) as (u & Hu & Hub).
    exists u. split; [done|]. unfold soloed in *. by rewrite <- Hab, Hub. }
  split; apply E; try done; intros k; by rewrite Hi.
Qed.

(** The gain of a track in a consistent state is the resolution rule. *)
Lemma gain_rule o p t v :
  consistent o p → t ∈ tracksRef p → volumes p !! id t = Some v →
  gain p t = if audible p t then (v / 100)%Q else 0%Q.
Proof.
  intros Hc Ht Hv. unfold gain, effectiveVolume, audible.
  rewrite (hasSolo_anySoloed o p Hc).
  replace (js_get (volumes p) (id t)) with (Own v)
    by (unfold js_get; by rewrite Hv).
  fold (soloed p (id t)). fold (muted p (id t)).
  by destruct (anySoloed p), (soloed p (id t)), (muted p (id t)).
Qed.

Lemma ids_with_volume (f : AudioTrack → Q) (ts : list AudioTrack) :
  id <$> ((λ t, with_volume (f t) t) <$> ts) = id <$> ts.
Proof. rewrite <- list_fmap_compose. by apply list_fmap_ext. Qed.

Lemma ids_settled p : ids (settled p) = ids p.
Proof. unfold ids, settled. simpl. apply ids_with_volume. Qed.

Lemma settle_consistent o p : consistent o p → consistent o (settled p).
Proof.
  intros [Ht Hv Hm Hs Hw Hr]. split; try done.
  intros k. rewrite ids_settled. apply Ht.
Qed.

Lemma reduce_consistent o p m :
  consistent o p → admissible o m → consistent o (reduce m p).
Proof.
  intros [Ht Hv Hm Hs Hw Hr] Ha. destruct m as [k v|k|k]; simpl in *.
  - split; simpl; try done.
    + intros j Hj. destruct (decide (k = j)) as [->|Hne].
      * rewrite lookup_insert_eq. by eexists.
      * rewrite lookup_insert_ne by done. by apply Hv.
    + intros j w. destruct (decide (k = j)) as [->|Hne].
      * rewrite lookup_insert_eq. by intros [= <-].
      * rewrite lookup_insert_ne by done. by apply Hr.
  - split; simpl; try done.
    intros j Hj. destruct (decide (k = j)) as [->|Hne].
    + rewrite lookup_insert_eq. by eexists.
    + rewrite lookup_insert_ne by done. by apply Hm.
  - split; simpl; try done.
    + intros j Hj. destruct (decide (k = j)) as [->|Hne].
      * rewrite lookup_insert_eq. by eexists.
      * rewrite lookup_insert_ne by done. by apply Hs.
    + intros j. destruct (decide (k = j)) as [->|Hne]; [done|].
      rewrite lookup_insert_ne by done. by apply Hw.
Qed.

(** ** Track creation *)

Lemma add_tracks_ids o seen ts k :
  k ∈ id <$> add_tracks o seen ts ↔ k ∈ id <$> ts ∨ k ∈ stemIds o.
Proof.
  unfold add_tracks. generalize (stemIds o) as l. intros l. revert ts.
  induction l as [|x l IH]; intros ts; simpl.
  - split; [by left|]. intros [?|H]; [done|]. by apply elem_of_nil in H.
  - rewrite IH. unfold has. case_bool_decide as Hx.
    + rewrite elem_of_cons. split; [intros [?|?]; auto|].
      intros [?|[->|?]]; auto.
    + rewrite fmap_app, elem_of_app. simpl. rewrite list_elem_of_singleton.
      rewrite elem_of_cons. tauto.
Qed.

Lemma rerender_consistent o fresh p :
  consistent o p → consistent o (rerender o fresh p).
Proof.
  intros Hc. destruct fresh; [|done]. simpl.
  destruct Hc as [Ht Hv Hm Hs Hw Hr].
  assert (C : consistent o (set_tracksRef
                (add_tracks o (duration (init_cleanup p)) []) (init_cleanup p))).
  { split; simpl; try done.
    intros k. unfold ids. simpl. rewrite add_tracks_ids. simpl.
    split; [|by right]. intros [H|H]; [by apply elem_of_nil in H|done]. }
  unfold init_effect. destruct (demo_mode o); [|exact C].
  destruct C. split; done.
Qed.

Lemma fromEntries_const_lookup {V} (l : list string) (v : V) k :
  fromEntries_const l v !! k = if bool_decide (k ∈ l) then Some v else None.
Proof.
  unfold fromEntries_const.
  assert (G : ∀ (acc : gmap string V),
    foldl (λ o k, <[k := v]> o) acc l !! k =
      if bool_decide (k ∈ l) then Some v else acc !! k).
  { induction l as [|x l IH]; intros acc; simpl.
    - done.
    - rewrite IH. destruct (decide (k ∈ l)) as [Hin|Hnin].
      + rewrite !bool_decide_eq_true_2; [done| |done]. by right.
      + rewrite (bool_decide_eq_false_2 (k ∈ l)) by done.
        destruct (decide (x = k)) as [->|Hne].
        * rewrite lookup_insert_eq. rewrite bool_decide_eq_true_2; [done|left].
        * rewrite lookup_insert_ne by done.
          rewrite bool_decide_eq_false_2; [done|].
          intros Hk. apply elem_of_cons in Hk. destruct Hk; [congruence|done]. }
  rewrite G. by rewrite lookup_empty.
Qed.

(** ** Mounting establishes consistency *)

Lemma init_effect_consistent o : consistent o (init_effect o (initial o)).
Proof.
  assert (C : consistent o (set_tracksRef (add_tracks o 0 []) (initial o))).
  { split; simpl.
    - intros k. unfold ids. simpl. rewrite add_tracks_ids. simpl.
      split; [|by right]. intros [H|H]; [by apply elem_of_nil in H|done].
    - intros k Hk. rewrite fromEntries_const_lookup.
      rewrite bool_decide_eq_true_2; [by eexists|done].
    - intros k Hk. rewrite fromEntries_const_lookup.
      rewrite bool_decide_eq_true_2; [by eexists|done].
    - intros k Hk. rewrite fromEntries_const_lookup.
      rewrite bool_decide_eq_true_2; [by eexists|done].
    - intros k. rewrite fromEntries_const_lookup. by case_bool_decide.
    - intros k v. rewrite fromEntries_const_lookup. case_bool_decide; [|done].
      intros [= <-]. split; discriminate. }
  unfold init_effect. simpl. destruct (demo_mode o); [|exact C].
  destruct C. split; done.
Qed.

Lemma mount_consistent o :
  mount o = Some (settled (init_effect o (initial o))) ∧
  consistent o (settled (init_effect o (initial o))).
Proof.
  split.
  - apply (updateTrackVolumes_consistent o), init_effect_consistent.
  - apply settle_consistent, init_effect_consistent.
Qed.

(** ** The resolution rule after a mutation *)

Lemma mutate_consistent o fresh p m :
  consistent o p → admissible o m →
  mutate o fresh m p = Some (settled (rerender o fresh (reduce m p))) ∧
  consistent o (settled (rerender o fresh (reduce m p))).
Proof.
  intros Hc Ha.
  pose proof (rerender_consistent o fresh _ (reduce_consistent o p m Hc Ha)) as Hr.
  split; [|by apply settle_consistent].
  unfold mutate, commit. by apply (updateTrackVolumes_consistent o).
Qed.

Lemma settled_rule o p t v :
  consistent o p → t ∈ tracksRef (settled p) → volumes p !! id t = Some v →
  audio_volume (audio t) = if audible (settled p) t then (v / 100)%Q else 0%Q.
Proof.
  intros Hc Ht Hv. simpl in Ht. apply list_elem_of_fmap in Ht.
  destruct Ht as (u & -> & Hu). simpl in *.
  rewrite (gain_rule o p u v Hc Hu Hv). unfold audible.
  rewrite (anySoloed_ext (settled p) p); [done|done|].
  intros k. by rewrite ids_settled.
Qed.

Lemma rerender_records o fresh p :
  volumes (rerender o fresh p) = volumes p ∧
  mutedStems (rerender o fresh p) = mutedStems p ∧
  soloStems (rerender o fresh p) = soloStems p.
Proof.
  destruct fresh; [|done]. unfold rerender, init_effect.
  by destruct (demo_mode o).
Qed.

Lemma rule_after_mutation o fresh p m :
  consistent o p → admissible o m →
  ∃ p', mutate o fresh m p = Some p' ∧ consistent o p' ∧
    volumes p' = volumes (reduce m p) ∧
    mutedStems p' = mutedStems (reduce m p) ∧
    soloStems p' = soloStems (reduce m p) ∧
    ∀ t v, t ∈ tracksRef p' → volumes p' !! id t = Some v →
      audio_volume (audio t) = if audible p' t then (v / 100)%Q else 0%Q.
Proof.
  intros Hc Ha. exists (settled (rerender o fresh (reduce m p))).
  destruct (mutate_consistent o fresh p m Hc Ha) as [E Hc'].
  destruct (rerender_records o fresh (reduce m p)) as (Rv & Rm & Rs).
  split; [done|]. split; [done|].
  do 3 (split; [done|]).
  intros t v Ht Hv. apply (settled_rule o); [|done|done].
  by apply rerender_consistent, reduce_consistent.
Qed.

Lemma not_anySoloed p t :
  anySoloed p = false → t ∈ tracksRef p → soloed p (id t) = false.
Proof.
  intros Hn Ht. destruct (soloed p (id t)) eqn:E; [|done].
  assert (anySoloed p = true) by (apply anySoloed_true; eauto). congruence.
Qed.

Lemma soloed_insert p k b j :
  truthy_flag (js_get (<[k := b]> (soloStems p)) j) =
    if bool_decide (k = j) then b else soloed p j.
Proof.
  unfold soloed, js_get. destruct (decide (k = j)) as [->|Hne].
  - rewrite lookup_insert_eq. simpl. by rewrite (bool_decide_eq_true_2 (j = j)).
  - rewrite lookup_insert_ne by done. by rewrite (bool_decide_eq_false_2 (k = j)).
Qed.

Lemma consistent_same_ids o p q :
  consistent o p → consistent o q → ∀ k, k ∈ ids p ↔ k ∈ ids q.
Proof.
  intros Hp Hq k.
  rewrite (tracks_of_props o p Hp), (tracks_of_props o q Hq). done.
Qed.

(** C1. Mute/solo resolution.  In a consistent mixer (the tracks are those
    of the props, every stem has its entries, volumes in [0,100]) every
    admissible mutation of a volume, a mute flag or a solo flag is followed
    by a recomputation after which each track's gain is [v/100] when the
    track is audible and [0] otherwise, where a track is audible iff some
    track is soloed and it is one of them, or no track is soloed and it is
    not muted.  In particular, soloing one track while none is soloed
    silences every other track whatever its mute flag, and un-soloing it
    gives each track its mute-derived gain again. *)
Theorem mute_solo_resolution (o : Options) (fresh_props : bool) (p : Player) :
  consistent o p →
  (∀ m, admissible o m →
     ∃ p', mutate o fresh_props m p = Some p' ∧
       volumes p' = volumes (reduce m p) ∧
       mutedStems p' = mutedStems (reduce m p) ∧
       soloStems p' = soloStems (reduce m p) ∧
       (∀ k, k ∈ ids p' ↔ k ∈ ids p) ∧
       ∀ t v, t ∈ tracksRef p' → volumes p' !! id t = Some v →
         audio_volume (audio t) = if audible p' t then (v / 100)%Q else 0%Q)
  ∧
  (∀ k, k ∈ stemIds o → anySoloed p = false →
     ∃ p1 p2,
       mutate o fresh_props (ToggleSolo k) p = Some p1 ∧
       mutate o fresh_props (ToggleSolo k) p1 = Some p2 ∧
       (∀ t, t ∈ tracksRef p1 → id t ≠ k → audio_volume (audio t) = 0%Q) ∧
       (∀ t v, t ∈ tracksRef p2 → volumes p !! id t = Some v →
          audio_volume (audio t) = if muted p (id t) then 0%Q else (v / 100)%Q)).
Proof.
  intros Hc. split.
  - intros m Ha.
    destruct (rule_after_mutation o fresh_props p m Hc Ha)
      as (p' & ? & Hc' & ? & ? & ? & ?).
    exists p'. do 4 (split; [done|]). split; [|done].
    by apply (consistent_same_ids o).
  - intros k Hk Hnone.
    destruct (rule_after_mutation o fresh_props p (ToggleSolo k) Hc Hk)
      as (p1 & E1 & Hc1 & Hv1 & Hm1 & Hs1 & R1).
    destruct (rule_after_mutation o fresh_props p1 (ToggleSolo k) Hc1 Hk)
      as (p2 & E2 & Hc2 & Hv2 & Hm2 & Hs2 & R2).
    simpl in Hv1, Hm1, Hs1, Hv2, Hm2, Hs2.
    pose proof (consistent_same_ids o p p1 Hc Hc1) as Hi1.
    pose proof (consistent_same_ids o p p2 Hc Hc2) as Hi2.
    exists p1, p2. split; [done|]. split; [done|].
    apply (tracks_of_props o p Hc) in Hk.
    assert (Sk : soloed p k = false).
    { apply list_elem_of_fmap in Hk. destruct Hk as (u & -> & Hu).
      by apply not_anySoloed. }
    assert (S1 : ∀ j, soloed p1 j = if bool_decide (k = j) then true else soloed p j).
    { intros j. unfold soloed at 1. rewrite Hs1.
      fold (soloed p k). rewrite Sk. apply soloed_insert. }
    assert (S2 : ∀ j, soloed p2 j = soloed p j).
    { intros j. unfold soloed at 1. rewrite Hs2.
      fold (soloed p1 k). rewrite (S1 k), bool_decide_eq_true_2 by done.
      rewrite soloed_insert. fold (soloed p1 j). rewrite S1.
      case_bool_decide; [by subst|done]. }
    split.
    + intros t Ht Hne.
      destruct (volume_keyed o p1 Hc1 _ (track_of_props o p1 t Hc1 Ht)) as [v Hv].
      rewrite (R1 t v Ht Hv). unfold audible.
      assert (A1 : anySoloed p1 = true).
      { apply list_elem_of_fmap in Hk. destruct Hk as (u & -> & Hu).
        destruct (same_ids p p1 u Hi1 Hu) as (w & Hw & Ew).
        apply anySoloed_true. exists w. split; [done|].
        rewrite S1, Ew. by rewrite bool_decide_eq_true_2. }
      rewrite A1, S1. rewrite bool_decide_eq_false_2 by congruence.
      assert (Hi1' : ∀ j, j ∈ ids p1 ↔ j ∈ ids p) by (intros j; by rewrite Hi1).
      destruct (same_ids p1 p t Hi1' Ht) as (w & Hw & Ew).
      rewrite <- Ew. by rewrite (not_anySoloed p w Hnone Hw).
    + intros t v Ht Hv.
      rewrite (R2 t v Ht) by (by rewrite Hv2, Hv1).
      assert (A2 : anySoloed p2 = false).
      { apply not_true_is_false. rewrite anySoloed_true.
        intros (u & Hu & Su). rewrite S2 in Su.
        assert (Hi2' : ∀ j, j ∈ ids p2 ↔ j ∈ ids p) by (intros j; by rewrite Hi2).
        destruct (same_ids p2 p u Hi2' Hu) as (w & Hw & Ew).
        rewrite <- Ew in Su. by rewrite (not_anySoloed p w Hnone Hw) in Su. }
      unfold audible. rewrite A2. simpl.
      unfold muted. rewrite Hm2, Hm1.
      by destruct (truthy_flag (js_get (mutedStems p) (id t))).
Qed.

(** ** Toggles *)

Lemma with_volume_twice a b t : with_volume a (with_volume b t) = with_volume a t.
Proof. done. Qed.



Lemma reinit_cells o q :
  let r := rerender o true q in
  isPlaying r = isPlaying q ∧ currentTime r = currentTime q ∧
  duration r = (if demo_mode o then 180%Q else duration q) ∧
  isLoaded r = (if demo_mode o then true else isLoaded q) ∧
  tracksRef r = add_tracks o (duration q) [].
Proof.
  simpl. unfold init_effect. by destruct (demo_mode o).
Qed.









Lemma mute_solo_resolution_witness :
  consistent four_stems studio ∧
  ∃ p', mutate four_stems false (ToggleSolo "vocals") studio = Some p' ∧
    ∀ t v, t ∈ tracksRef p' → volumes p' !! id t = Some v →
      audio_volume (audio t) = if audible p' t then (v / 100)%Q else 0%Q.
Proof.
  split; [apply mount_consistent|].
  destruct (mute_solo_resolution four_stems false studio) as [H _];
    [apply mount_consistent|].
  destruct (H (ToggleSolo "vocals")) as (p' & E & _ & _ & _ & _ & R).
  { simpl. unfold four_stems. simpl. apply (bool_decide_unpack _). vm_compute. exact I. }
  exists p'. split; [exact E|exact R].
Defined.


(** A state left behind by a commit that re-created the tracks. *)
Example commit_fixpoint_fresh_props :
  let p := settled (rerender four_stems true studio) in
  commit four_stems true true p = Some p.
Proof. vm_compute. reflexivity. Qed.

(** ** End of media *)

(** The [ended] listener stops the transport and rewinds every track. *)
Lemma ended_listener_rewinds p :
  let p' := ended_listener p in
  isPlaying p' = false ∧ currentTime p' = 0%Q ∧
  ∀ t, t ∈ tracksRef p' → audio_currentTime (audio t) = 0%Q.
Proof.
  simpl. split; [done|]. split; [done|].
  intros t Ht. apply list_elem_of_fmap in Ht. by destruct Ht as (u & -> & _).
Qed.

(** The simulated clock, once at the nominal duration, stops the transport
    and rewinds the shared time; it does not touch the tracks. *)
Lemma demo_tick_completion o p :
  isPlaying p = true → demo_mode o = true → (duration p <= currentTime p)%Q →
  let p' := demo_tick o p in
  isPlaying p' = false ∧ currentTime p' = 0%Q ∧ tracksRef p' = tracksRef p.
Proof.
  intros Hp Hd Hle. simpl. unfold demo_tick. rewrite Hp, Hd. simpl.
  apply Qle_bool_iff in Hle. by rewrite Hle.
Qed.


(** ** Shared duration *)

(** A [loadedmetadata] listener compares the media duration with the
    [duration] its closure has seen, not with the current one. *)
Lemma loadedmetadata_listener_stale t p d :
  audio_duration (audio t) = Some d → (seen_duration t < d)%Q → ¬ (d == 0)%Q →
  duration (loadedmetadata_listener t p) = d.
Proof.
  intros Hd Hlt Hnz. unfold loadedmetadata_listener. rewrite Hd.
  assert (E1 : Qeq_bool d 0 = false).
  { apply not_true_is_false. by rewrite Qeq_bool_iff. }
  assert (E2 : Qle_bool d (seen_duration t) = false).
  { apply not_true_is_false. rewrite Qle_bool_iff. by apply Qlt_not_le. }
  by rewrite E1, E2.
Qed.

Lemma on_loadedmetadata_tracks k d p :
  id <$> tracksRef (on_loadedmetadata k d p) = id <$> tracksRef p ∧
  seen_duration <$> tracksRef (on_loadedmetadata k d p) = seen_duration <$> tracksRef p.
Proof.
  unfold on_loadedmetadata.
  set (ts := (λ t, if bool_decide (id t = k)
                   then with_audio (write_duration (Some d) (audio t)) t else t)
             <$> tracksRef p).
  assert (E : id <$> ts = id <$> tracksRef p ∧
              seen_duration <$> ts = seen_duration <$> tracksRef p).
  { unfold ts. rewrite <- !list_fmap_compose.
    split; apply list_fmap_ext; intros i t _; simpl; by case_bool_decide. }
  destruct (list_find _ ts) as [[i t]|]; [|done].
  unfold loadedmetadata_listener.
  destruct (audio_duration (audio t)); [|done].
  by destruct (negb _ && negb _).
Qed.

(** With tracks created at mount (their listeners have seen duration 0),
    every report of a positive media duration overwrites the shared
    duration. *)
Lemma on_loadedmetadata_overwrites k d p :
  Forall (λ t, seen_duration t = 0%Q) (tracksRef p) → k ∈ ids p → (0 < d)%Q →
  duration (on_loadedmetadata k d p) = d.
Proof.
  intros Hseen Hk Hd. unfold on_loadedmetadata.
  set (ts := (λ t, if bool_decide (id t = k)
                   then with_audio (write_duration (Some d) (audio t)) t else t)
             <$> tracksRef p).
  assert (Hts : Forall (λ t, seen_duration t = 0%Q ∧
                             (id t = k → audio_duration (audio t) = Some d)) ts).
  { unfold ts. apply Forall_fmap. eapply Forall_impl; [exact Hseen|].
    intros t Ht. simpl. case_bool_decide; simpl; split; try done. }
  assert (Hex : ∃ t, t ∈ ts ∧ id t = k).
  { apply list_elem_of_fmap in Hk as (t & -> & Ht).
    exists (with_audio (write_duration (Some d) (audio t)) t). split; [|done].
    unfold ts. apply list_elem_of_fmap. exists t. split; [|done].
    by rewrite bool_decide_eq_true_2. }
  destruct Hex as (t0 & Ht0 & Hid0).
  destruct (list_find (λ t, id t = k) ts) as [[i t]|] eqn:Ef.
  - apply list_find_Some in Ef as (Hi & Hid & _).
    apply list_elem_of_lookup_2 in Hi.
    destruct (proj1 (Forall_forall _ _) Hts t Hi) as [Hs Ha].
    apply loadedmetadata_listener_stale; [by apply Ha|by rewrite Hs|].
    intros Hz. rewrite Hz in Hd. by apply Qlt_irrefl in Hd.
  - exfalso. apply list_find_None in Ef.
    by apply (proj1 (Forall_forall _ _) Ef t0 Ht0).
Qed.

Lemma last_loaded_wins reports : ∀ p k d,
  Forall (λ t, seen_duration t = 0%Q) (tracksRef p) →
  Forall (λ e, e.1 ∈ ids p ∧ (0 < e.2)%Q) (reports ++ [(k, d)]) →
  duration (foldl report p (reports ++ [(k, d)])) = d.
Proof.
  induction reports as [|[k0 d0] reports IH]; intros p k d Hseen Hall; simpl.
  - apply Forall_cons in Hall as [[Hk Hd] _]. by apply on_loadedmetadata_overwrites.
  - apply Forall_cons in Hall as [[Hk0 Hd0] Hall]. simpl in *.
    destruct (on_loadedmetadata_tracks k0 d0 p) as [Ei Es].
    apply IH.
    + apply Forall_forall. intros t Ht.
      assert (Hin : seen_duration t ∈ seen_duration <$> tracksRef (on_loadedmetadata k0 d0 p)).
      { apply list_elem_of_fmap. eauto. }
      rewrite Es in Hin. apply list_elem_of_fmap in Hin as (u & -> & Hu).
      by apply (proj1 (Forall_forall _ _) Hseen u Hu).
    + eapply Forall_impl; [exact Hall|]. intros [k1 d1] [H1 H2]. simpl in *.
      split; [|done]. unfold ids, report. simpl. by rewrite Ei.
Qed.

(** C9. Shared duration.  Two tracks with media of 200 s and 100 s, props
    that keep their identity: when the longer track reports first the
    shared duration ends at 100 s, not at the maximum; in the other order it
    ends at 200 s. *)
Theorem duration_is_last_loaded :
  ∃ p0, mount two_files = Some p0 ∧
    (let p := on_loadedmetadata "drums" 100 (on_loadedmetadata "vocals" 200 p0) in
     (λ t, audio_duration (audio t)) <$> tracksRef p = [Some 200; Some 100]%Q ∧
     duration p = 100%Q) ∧
    (let p := on_loadedmetadata "vocals" 200 (on_loadedmetadata "drums" 100 p0) in
     (λ t, audio_duration (audio t)) <$> tracksRef p = [Some 200; Some 100]%Q ∧
     duration p = 200%Q).
Proof.
  eexists. split; [vm_compute; reflexivity|]. vm_compute. done.
Qed.
End MixFacts.

(** * Properties shared by the two revisions of the orchestrator *)
Module Runs.
Import Stems.
#[local] Open Scope list_scope.
#[local] Open Scope nat_scope.

(** A progress value the UI may show: within [0, 100], and 100 only together
    with stage [complete]. *)
Definition in_bounds (sp : SeparationProgress) : Prop :=
  (0 ≤ progress sp ≤ 100)%Z ∧ (progress sp = 100%Z → stage sp = complete).

(** The progress values of a history, a failure's reset to 0 left out. *)
Definition climb (history : list SeparationProgress) : list Z :=
  progress <$> filter (λ sp, stage sp ≠ error) history.

Definition non_decreasing (l : list Z) : Prop := StronglySorted Z.le l.

Lemma non_decreasing_snoc l x :
  non_decreasing l → Forall (λ y, (y ≤ x)%Z) l → non_decreasing (l ++ [x]).
Proof.
  intros Hs Hle. apply StronglySorted_app_2; [|done|repeat constructor].
  intros a b Ha Hb. apply list_elem_of_singleton in Hb. subst b.
  by apply (proj1 (Forall_forall _ _) Hle).
Qed.

Lemma climb_snoc history sp :
  climb (history ++ [sp]) =
    if decide (stage sp ≠ error) then climb history ++ [progress sp] else climb history.
Proof.
  unfold climb. rewrite filter_app. rewrite fmap_app.
  rewrite filter_cons, filter_nil. destruct (decide (stage sp ≠ error)); simpl; [done|].
  by rewrite app_nil_r.
Qed.

Lemma climb_snoc_keep history sp :
  stage sp ≠ error → climb (history ++ [sp]) = climb history ++ [progress sp].
Proof. intros H. rewrite climb_snoc. by destruct (decide (stage sp ≠ error)). Qed.

Lemma climb_snoc_drop history sp :
  stage sp = error → climb (history ++ [sp]) = climb history.
Proof. intros H. rewrite climb_snoc. by destruct (decide (stage sp ≠ error)). Qed.

(** Replacing one element changes a count by what the two elements count. *)
Lemma count_insert {A} (P : A → Prop) `{!∀ x, Decision (P x)} (l : list A) i old new :
  l !! i = Some old →
  length (filter P (<[i := new]> l)) + (if decide (P old) then 1 else 0) =
  length (filter P l) + (if decide (P new) then 1 else 0).
Proof.
  revert i. induction l as [|x l IH]; intros i Hi; [done|].
  destruct i as [|i]; simpl in *.
  - injection Hi as ->. rewrite !filter_cons.
    destruct (decide (P old)), (decide (P new)); simpl; lia.
  - rewrite !filter_cons. specialize (IH i Hi).
    destruct (decide (P x)); simpl; lia.
Qed.

Lemma count_snoc {A} (P : A → Prop) `{!∀ x, Decision (P x)} (l : list A) x :
  length (filter P (l ++ [x])) = length (filter P l) + (if decide (P x) then 1 else 0).
Proof.
  rewrite filter_app, length_app, filter_cons, filter_nil.
  destruct (decide (P x)); simpl; lia.
Qed.

Lemma Forall_le_trans (l : list Z) a b :
  Forall (λ y, (y ≤ a)%Z) l → (a ≤ b)%Z → Forall (λ y, (y ≤ b)%Z) l.
Proof. intros H Hab. eapply Forall_impl; [exact H|]. simpl. intros. lia. Qed.

Lemma single_task_lookup {A} (k k' : A) t : [k] !! t = Some k' → t = 0%nat ∧ k' = k.
Proof. destruct t as [|t]; simpl; [by intros [= ->]|]. by destruct t. Qed.

End Runs.

(** * Properties of the synchronous revision *)
Module SyncFacts.
Import Stems Sync Runs.
#[local] Open Scope list_scope.
#[local] Open Scope nat_scope.

(** ** Vocabulary *)

(** A URL oracle for the examples: a string is accepted when it begins with
    a scheme (a letter, then letters, digits, [+], [-] or [.], then a
    colon).  [new URL] accepts no string without one, and accepts each URL
    the examples below use. *)
Definition scheme_char (c : Ascii.ascii) : bool :=
  let n := Ascii.nat_of_ascii c in
  (Nat.leb 65 n && Nat.leb n 90) || (Nat.leb 97 n && Nat.leb n 122) ||
  (Nat.leb 48 n && Nat.leb n 57) || Nat.eqb n 43 || Nat.eqb n 45 || Nat.eqb n 46.

Definition letter (c : Ascii.ascii) : bool :=
  let n := Ascii.nat_of_ascii c in
  (Nat.leb 65 n && Nat.leb n 90) || (Nat.leb 97 n && Nat.leb n 122).

Fixpoint scheme_rest (s : string) : bool :=
  match s with
  | EmptyString => false
  | String c s' => if Nat.eqb (Ascii.nat_of_ascii c) 58 then true
                   else scheme_char c && scheme_rest s'
  end.

Definition begins_with_scheme (s : string) : bool :=
  match s with
  | EmptyString => false
  | String c s' => letter c && scheme_rest s'
  end.

(** The events of a run that the UI gates: a start is only offered while
    [isProcessing] is false, and the user does not cancel. *)
Definition is_start (e : Event) : bool :=
  match e with
  | call_separate _ _ _ | call_separateFromUrl _ _ => true
  | _ => false
  end.

Definition is_cancel (e : Event) : bool :=
  match e with
  | call_cancel => true
  | _ => false
  end.

Definition offered (w : World) (e : Event) : bool :=
  negb (is_cancel e) && (negb (is_start e) || negb (isProcessing (hook w))).

Fixpoint gated_run (URL_parses : string → bool) (w : World) (events : list Event)
  : option World :=
  match events with
  | [] => Some w
  | e :: events =>
      if offered w e then w' ← step URL_parses w e; gated_run URL_parses w' events
      else None
  end.

(** The specification's single-flight property of the hook on its own. *)
Definition single_flight (URL_parses : string → bool) : Prop :=
  ∀ events w, run URL_parses initial events = Some w → outstanding w ≤ 1.

Definition bounded (w : World) : Prop :=
  Forall in_bounds (emitted w) ∧ in_bounds (progress_state (hook w)).

(** A run of one activation: after the start, no other start and no
    cancel. *)
Definition undisturbed (events : list Event) : Prop :=
  Forall (λ e, is_start e = false ∧ is_cancel e = false) events.

(** A response that reports success with the stem map [entries]. *)
Definition succeeded (entries : list (string * json)) : InvokeResult :=
  {| data := Some {| data_error := None; data_errorType := None;
                     data_details := None; data_status := Some "succeeded";
                     data_output := Some (JObject entries) |};
     invokeError := None |}.

(** The specification's validation of the stored location: empty, not
    parseable, containing "undefined", or not http/https. *)
Definition http_scheme (u : string) : bool :=
  String.prefix "http://" u || String.prefix "https://" u.

Definition location_refused_by_spec (URL_parses : string → bool) (u : string) : bool :=
  bool_decide (u = EmptyString) || negb (URL_parses u) || includes "undefined" u
  || negb (http_scheme u).

Definition upload_validates_location (URL_parses : string → bool) : Prop :=
  ∀ w t filePath modelName u,
    tasks w !! t = Some (AwaitSignedUrl filePath modelName) →
    location_refused_by_spec URL_parses u = true →
    ∃ w', step URL_parses w (signedUrl_settled t (Some u) None) = Some w' ∧
          tasks w' !! t = Some (Rejected (InvalidLocationError u)).

(** The specification's normalisation: one record per entry of the map. *)
Definition normalizes_every_entry (URL_parses : string → bool) : Prop :=
  ∀ w t audioUrl modelName entries w',
    tasks w !! t = Some (AwaitInvoke audioUrl modelName) →
    cancelledRef (hook w) = false →
    step URL_parses w (invoke_settled t (succeeded entries)) = Some w' →
    id <$> stems (hook w') = entries.*1.

(** A hook that has uploaded a file and waits for its signed URL, and one
    that waits for the separation service. *)
Definition awaiting_location : World :=
  default initial
    (run begins_with_scheme initial
       [call_separate "song.mp3" "6f1c" None; upload_settled 0 None]).

Definition awaiting_service : World :=
  default initial
    (run begins_with_scheme initial
       [call_separateFromUrl "https://cdn.example/song.mp3" None]).

(** At most one activation is waiting, and none while [isProcessing] is
    false. *)
Definition gated (w : World) : Prop :=
  outstanding w ≤ 1 ∧ (isProcessing (hook w) = false → outstanding w = 0).

(** The state of a run with a single activation, as far as the progress
    history goes. *)
Definition climbing (w : World) : Prop :=
  ∃ k, tasks w = [k] ∧ non_decreasing (climb (emitted w)) ∧
    match k with
    | AwaitUpload _ _ | AwaitSignedUrl _ _ =>
        Forall (λ y, (y ≤ 10)%Z) (climb (emitted w))
    | AwaitInvoke _ _ =>
        stage (progress_state (hook w)) ≠ error ∧
        (progress (progress_state (hook w)) ≤ 90)%Z ∧
        Forall (λ y, (y ≤ progress (progress_state (hook w)))%Z) (climb (emitted w))
    | _ => True
    end.

(** ** Bounds of the progress value *)

Lemma in_bounds_const st n m :
  (0 ≤ n ≤ 100)%Z → (n = 100%Z → st = complete) → in_bounds (mkProgress st n m).
Proof. done. Qed.

Lemma setProgress_bounded sp w :
  bounded w → in_bounds sp → bounded (setProgress sp w).
Proof.
  intros [He Hp] Hsp. split; simpl; [|done].
  apply Forall_app. split; [done|]. by constructor.
Qed.

Lemma reject_bounded t f w : bounded w → bounded (reject t f w).
Proof.
  intros Hb. unfold reject. case_bool_decide; [|done].
  assert (B : bounded (setProgress (mkProgress error 0 (failure_message f))
                         (setError (Some (failure_message f)) w))).
  { apply setProgress_bounded; [done|]. by split. }
  exact B.
Qed.

Lemma ramp_bounded prev sp :
  in_bounds prev → ramp prev = Some sp →
  in_bounds sp ∧ (progress prev ≤ progress sp ≤ 90)%Z ∧ stage sp = stage prev.
Proof.
  intros [Hr Hc] H. unfold ramp in H. case_bool_decide; [|done].
  injection H as <-. unfold in_bounds. simpl.
  split; [split; [lia|intros; exfalso; lia]|]. split; [lia|done].
Qed.

Lemma step_bounded URL_parses w e w' :
  bounded w → step URL_parses w e = Some w' → bounded w'.
Proof.
  intros Hb H. destruct e; simpl in H.
  - injection H as <-. unfold bounded. simpl. destruct Hb as [He Hp].
    split; [|by split]. apply Forall_app. split; [done|]. constructor; [by split|done].
  - injection H as <-. unfold bounded. simpl. destruct Hb as [He Hp].
    split; [|by split]. apply Forall_app. split; [done|]. constructor; [by split|done].
  - injection H as <-. unfold bounded. simpl. destruct Hb as [He Hp].
    split; [|by split].
    destruct (abortControllerRef (hook w)); simpl;
      (apply Forall_app; split; [done|]; constructor; [by split|done]).
  - repeat case_match; simplify_eq; by try apply reject_bounded.
  - repeat case_match; simplify_eq; try by apply reject_bounded.
    unfold bounded. simpl. destruct Hb as [He Hp].
    split; [|by split]. apply Forall_app. split; [done|]. constructor; [by split|done].
  - repeat case_match; simplify_eq.
    + by apply reject_bounded.
    + unfold bounded. simpl. destruct Hb as [He Hp].
      split; [|by split]. apply Forall_app. split; [done|]. constructor; [by split|done].
  - repeat case_match; simplify_eq; [|done].
    destruct Hb as [He Hp].
    destruct (ramp_bounded _ _ Hp ltac:(eassumption)) as (Hs & _ & _).
    by apply setProgress_bounded.
Qed.

Lemma run_bounded URL_parses events : ∀ w w',
  bounded w → run URL_parses w events = Some w' → bounded w'.
Proof.
  induction events as [|e events IH]; intros w w' Hb H; simpl in H.
  - by injection H as <-.
  - destruct (step URL_parses w e) as [w1|] eqn:E; [|done]. simpl in H.
    eapply IH; [|exact H]. by eapply step_bounded.
Qed.

Lemma initial_bounded : bounded initial.
Proof. split; [constructor|]. by split. Qed.


(** ** Single flight *)

Lemma reject_tasks t f w : tasks (reject t f w) = <[t := Rejected f]> (tasks w).
Proof. unfold reject. by case_bool_decide. Qed.

Lemma reject_isProcessing t f w : isProcessing (hook (reject t f w)) = false.
Proof. unfold reject. by case_bool_decide. Qed.

Lemma reject_calls t f w : calls (reject t f w) = calls w.
Proof. unfold reject. by case_bool_decide. Qed.

Lemma outstanding_insert (l : list Task) t old new :
  l !! t = Some old →
  length (filter (λ k, pending k = true) (<[t := new]> l))
    + (if pending old then 1 else 0) =
  length (filter (λ k, pending k = true) l) + (if pending new then 1 else 0).
Proof.
  intros Hl. pose proof (count_insert (λ k, pending k = true) l t old new Hl) as H.
  cbv beta in H. revert H.
  destruct (pending old), (pending new); repeat case_decide; try done; lia.
Qed.

(** The hook never refuses a start: whatever is in flight, a call of
    [separate] or [separateFromUrl] clears the error, the stems and the
    cancel flag and adds one more activation with its own request. *)
Lemma start_never_refused URL_parses w e :
  is_start e = true →
  ∃ w', step URL_parses w e = Some w' ∧
    outstanding w' = S (outstanding w) ∧
    length (calls w') = S (length (calls w)) ∧
    isProcessing (hook w') = true ∧ cancelledRef (hook w') = false ∧
    error_state (hook w') = None ∧ stems (hook w') = [].
Proof.
  intros He. destruct e; try done; simpl; eexists; (split; [done|]).
  - unfold outstanding. simpl. rewrite count_snoc. simpl.
    rewrite length_app. simpl. repeat split; lia.
  - unfold outstanding. simpl. rewrite count_snoc. simpl.
    rewrite length_app. simpl. repeat split; lia.
Qed.

Lemma set_task_done t k old w w0 :
  gated w → tasks w !! t = Some old → pending old = true → pending k = false →
  tasks w0 = <[t := k]> (tasks w) → gated w0.
Proof.
  intros [H1 H0] Ht Hp Hk E. unfold gated, outstanding in *. rewrite E.
  pose proof (outstanding_insert (tasks w) t old k Ht) as H.
  rewrite Hp, Hk in H. split; [lia|]. intros _. lia.
Qed.

Lemma set_task_on t k old w w0 :
  gated w → tasks w !! t = Some old → pending old = true → pending k = true →
  tasks w0 = <[t := k]> (tasks w) → isProcessing (hook w0) = isProcessing (hook w) →
  gated w0.
Proof.
  intros [H1 H0] Ht Hp Hk E Ei. unfold gated, outstanding in *. rewrite E, Ei.
  pose proof (outstanding_insert (tasks w) t old k Ht) as H.
  rewrite Hp, Hk in H. split; [lia|]. intros Hi. specialize (H0 Hi). lia.
Qed.

Lemma reject_gated t f old w w0 :
  gated w → tasks w !! t = Some old → pending old = true → tasks w0 = tasks w →
  gated (reject t f w0).
Proof.
  intros Hg Ht Hp E. apply (set_task_done t (Rejected f) old w); try done.
  by rewrite reject_tasks, E.
Qed.

Lemma resolve_gated t results old w w0 :
  gated w → tasks w !! t = Some old → pending old = true → tasks w0 = tasks w →
  gated (resolve t results w0).
Proof.
  intros Hg Ht Hp E. apply (set_task_done t (Resolved results) old w); try done.
  simpl. by rewrite E.
Qed.

Lemma step_gated URL_parses w e w' :
  gated w → offered w e = true → step URL_parses w e = Some w' → gated w'.
Proof.
  intros Hg Ho H. destruct e; simpl in H.
  - destruct (start_never_refused URL_parses w (call_separate fileName uuid modelName))
      as (w1 & E & Hout & _ & Hp & _); [done|].
    simpl in E. rewrite E in H. injection H as <-.
    unfold offered in Ho. simpl in Ho. apply negb_true_iff in Ho.
    destruct Hg as [_ H0]. specialize (H0 Ho). split; [lia|]. congruence.
  - destruct (start_never_refused URL_parses w (call_separateFromUrl audioUrl modelName))
      as (w1 & E & Hout & _ & Hp & _); [done|].
    simpl in E. rewrite E in H. injection H as <-.
    unfold offered in Ho. simpl in Ho. apply negb_true_iff in Ho.
    destruct Hg as [_ H0]. specialize (H0 Ho). split; [lia|]. congruence.
  - done.
  - destruct (tasks w !! t) as [[]|] eqn:Et; try done.
    destruct uploadError; injection H as <-.
    + by eapply reject_gated.
    + by eapply (set_task_on t (AwaitSignedUrl filePath modelName)).
  - destruct (tasks w !! t) as [[]|] eqn:Et; try done.
    repeat case_match; simplify_eq; try by eapply reject_gated.
    by eapply (set_task_on t (AwaitInvoke _ modelName)).
  - destruct (tasks w !! t) as [[]|] eqn:Et; try done.
    repeat case_match; simplify_eq.
    + by eapply reject_gated.
    + by eapply resolve_gated.
  - repeat case_match; simplify_eq; done.
Qed.

Lemma gated_run_gated URL_parses events : ∀ w w',
  gated w → gated_run URL_parses w events = Some w' → gated w'.
Proof.
  induction events as [|e events IH]; intros w w' Hg H; simpl in H.
  - by injection H as <-.
  - destruct (offered w e) eqn:Ho; [|done].
    destruct (step URL_parses w e) as [w1|] eqn:E; [|done]. simpl in H.
    eapply IH; [|exact H]. by eapply step_gated.
Qed.

(** C3 as the specification states it does not hold: two calls of
    [separate] in a row leave two uploads in flight. *)
Lemma single_flight_fails : ¬ single_flight begins_with_scheme.
Proof.
  intros H.
  specialize (H [call_separate "a.mp3" "u1" None; call_separate "b.mp3" "u2" None]).
  simpl in H. specialize (H _ eq_refl). vm_compute in H. lia.
Qed.

Lemma sync_single_flight (URL_parses : string → bool) :
  (∀ w e, is_start e = true →
     ∃ w', step URL_parses w e = Some w' ∧
       outstanding w' = S (outstanding w) ∧
       length (calls w') = S (length (calls w))) ∧
  (∀ events w, gated_run URL_parses initial events = Some w →
     outstanding w ≤ 1 ∧ (isProcessing (hook w) = false → outstanding w = 0)).
Proof.
  split.
  - intros w e He.
    destruct (start_never_refused URL_parses w e He) as (w' & ? & ? & ? & _).
    eauto.
  - intros events w H. apply (gated_run_gated URL_parses events initial w); [|done].
    split; [vm_compute; lia|done].
Qed.

(** ** Validation of the stored location *)

Lemma invalid_location_message u m :
  failure_message (InvalidLocationError u) ≠ failure_message (UploadError m) ∧
  failure_message (InvalidLocationError u) ≠ "Cancelled".
Proof. split; simpl; discriminate. Qed.

Lemma lookup_set_task t k w old :
  tasks w !! t = Some old → tasks (set_task t k w) !! t = Some k.
Proof.
  intros H. simpl. apply list_lookup_insert_eq. by eapply lookup_lt_Some.
Qed.

Lemma reject_lookup t f w old :
  tasks w !! t = Some old → tasks (reject t f w) !! t = Some (Rejected f).
Proof.
  intros H. rewrite reject_tasks. apply list_lookup_insert_eq. by eapply lookup_lt_Some.
Qed.

Lemma reject_hook t f w :
  failure_message f ≠ "Cancelled" →
  progress_state (hook (reject t f w)) = mkProgress error 0 (failure_message f) ∧
  error_state (hook (reject t f w)) = Some (failure_message f).
Proof. intros H. unfold reject. by rewrite bool_decide_eq_true_2. Qed.

(** The counterexample to C7 as stated: a parseable location with another
    scheme passes the hook's validation and is handed to the service. *)
Lemma other_scheme_is_accepted : ¬ upload_validates_location begins_with_scheme.
Proof.
  intros H.
  destruct (H awaiting_location 0 "uploads/6f1c-song.mp3" "htdemucs_ft"
              "ftp://files.example/audio/song.mp3") as (w' & E & Ht);
    [done|done|].
  vm_compute in E. injection E as <-. vm_compute in Ht. discriminate.
Qed.

(** C7. Validation of the stored location.  When the store has written
    the file and answers with a location that is empty, contains
    "undefined" or is not parseable as a URL, the upload fails with the
    invalid-location failure, whose message differs from that of a failed
    write; the stage becomes [error] and no request is sent.  A location that
    passes these three checks, whatever its scheme, is handed to the
    separation service. *)
Theorem invalid_location_fails_before_any_request (URL_parses : string → bool)
    (w : World) (t : nat) (filePath modelName u : string) :
  tasks w !! t = Some (AwaitSignedUrl filePath modelName) →
  (u = EmptyString ∨ includes "undefined" u = true ∨ URL_parses u = false →
   ∃ w', step URL_parses w (signedUrl_settled t (Some u) None) = Some w' ∧
     tasks w' !! t = Some (Rejected (InvalidLocationError u)) ∧
     stage (progress_state (hook w')) = error ∧
     error_state (hook w') = Some (failure_message (InvalidLocationError u)) ∧
     (∀ m, failure_message (InvalidLocationError u) ≠ failure_message (UploadError m)) ∧
     calls w' = calls w) ∧
  (u ≠ EmptyString → includes "undefined" u = false → URL_parses u = true →
   ∃ w', step URL_parses w (signedUrl_settled t (Some u) None) = Some w' ∧
     tasks w' !! t = Some (AwaitInvoke u modelName) ∧
     calls w' = calls w ++ [InvokeSeparation u modelName]).
Proof.
  intros Ht. split.
  - intros Hbad. simpl. rewrite Ht.
    assert (Hv : isValidUrl URL_parses u = false).
    { unfold isValidUrl. destruct Hbad as [->|[Hu|Hp]]; [done| |].
      - case_bool_decide; [done|]. by rewrite Hu.
      - case_bool_decide; [done|]. by destruct (includes "undefined" u). }
    rewrite Hv. eexists. split; [done|].
    destruct (invalid_location_message u EmptyString) as [_ Hc].
    destruct (reject_hook t (InvalidLocationError u) w Hc) as [Hp He].
    split; [by eapply reject_lookup|]. split; [by rewrite Hp|].
    split; [done|]. split; [|apply reject_calls].
    intros m. apply invalid_location_message.
  - intros Hne Hu Hp. simpl. rewrite Ht.
    assert (Hv : isValidUrl URL_parses u = true).
    { unfold isValidUrl. rewrite bool_decide_eq_false_2 by done. by rewrite Hu. }
    rewrite Hv. eexists. split; [done|]. split; [|done].
    by eapply lookup_set_task.
Qed.

Lemma invalid_location_fails_before_any_request_witness :
  tasks awaiting_location !! 0 = Some (AwaitSignedUrl "uploads/6f1c-song.mp3" "htdemucs_ft") ∧
  includes "undefined" "https://host/path/undefined-file.mp3" = true ∧
  ∃ w', step begins_with_scheme awaiting_location
          (signedUrl_settled 0 (Some "https://host/path/undefined-file.mp3") None) = Some w' ∧
        tasks w' !! 0 =
          Some (Rejected (InvalidLocationError "https://host/path/undefined-file.mp3")) ∧
        calls w' = [StorageUpload "uploads/6f1c-song.mp3";
                    CreateSignedUrl "uploads/6f1c-song.mp3"].
Proof.
  split; [reflexivity|]. split; [reflexivity|].
  destruct (invalid_location_fails_before_any_request begins_with_scheme
              awaiting_location 0 "uploads/6f1c-song.mp3" "htdemucs_ft"
              "https://host/path/undefined-file.mp3" eq_refl) as [H _].
  destruct H as (w' & E & Ht & _ & _ & _ & Hc); [right; left; reflexivity|].
  exists w'. split; [exact E|]. split; [exact Ht|]. rewrite Hc. reflexivity.
Defined.

(** ** A success without stems *)

Lemma extract_stems_length labels entries :
  length (extract_stems labels entries) = 0 ↔ extract_stems labels entries = [].
Proof. by destruct (extract_stems labels entries). Qed.

(** What the hook does with a response that reports success. *)
Lemma success_outcome (r : InvokeResult) :
  invokeError r = None → truthy_text (data r ≫= data_error) = false →
  data r ≫= data_status = Some "succeeded" →
  processSeparation_result false r =
    match data r ≫= data_output with
    | Some (JObject entries) =>
        if bool_decide (extract_stems STEM_LABELS entries = [])
        then inl NoStemsProducedError
        else inr (extract_stems STEM_LABELS entries)
    | _ => inl InvalidOutput
    end.
Proof.
  intros He Hd Hs. unfold processSeparation_result. rewrite He, Hd, Hs. simpl.
  destruct (data r ≫= data_output) as [[| | | |entries]|]; try done.
  destruct (extract_stems STEM_LABELS entries); done.
Qed.

(** In this revision a success whose stem map yields no stem ends in stage
    [error], with the no-stems failure (or the invalid-output one when the
    map itself is missing), and never sets the stems. *)
Lemma empty_success_is_error URL_parses w t audioUrl modelName r :
  tasks w !! t = Some (AwaitInvoke audioUrl modelName) →
  cancelledRef (hook w) = false →
  invokeError r = None → truthy_text (data r ≫= data_error) = false →
  data r ≫= data_status = Some "succeeded" →
  (∀ entries, data r ≫= data_output = Some (JObject entries) →
              extract_stems STEM_LABELS entries = []) →
  ∃ w' f, step URL_parses w (invoke_settled t r) = Some w' ∧
    (f = NoStemsProducedError ∨ f = InvalidOutput) ∧
    tasks w' !! t = Some (Rejected f) ∧
    stage (progress_state (hook w')) = error ∧
    error_state (hook w') = Some (failure_message f) ∧
    stems (hook w') = stems (hook w).
Proof.
  intros Ht Hc He Hd Hs Hempty. simpl. rewrite Ht, Hc.
  rewrite (success_outcome r He Hd Hs).
  assert (K : ∀ f w0, failure_message f ≠ "Cancelled" → tasks w0 = tasks w →
            stems (hook w0) = stems (hook w) →
            ∃ w' f', Some (reject t f w0) = Some w' ∧
              (f = NoStemsProducedError ∨ f = InvalidOutput → f' = NoStemsProducedError ∨ f' = InvalidOutput) ∧
              tasks w' !! t = Some (Rejected f') ∧
              stage (progress_state (hook w')) = error ∧
              error_state (hook w') = Some (failure_message f') ∧
              stems (hook w') = stems (hook w)).
  { intros f w0 Hm Et Es. exists (reject t f w0), f.
    destruct (reject_hook t f w0 Hm) as [Hp Her].
    split; [done|]. split; [done|]. split.
    - eapply reject_lookup. by rewrite Et.
    - rewrite Hp, Her. repeat split. unfold reject.
      by rewrite bool_decide_eq_true_2. }
  destruct (data r ≫= data_output) as [[| | | |entries]|] eqn:Eo;
    try (destruct (K InvalidOutput (set_abortControllerRef None w))
           as (w' & f' & E & Hf & R); [done|done|done|];
         exists w', f'; split; [exact E|]; split; [apply Hf; by right|exact R]).
  rewrite (Hempty entries eq_refl). simpl.
  destruct (K NoStemsProducedError (set_abortControllerRef None w))
    as (w' & f' & E & Hf & R); [done|done|done|].
  exists w', f'. split; [exact E|]. split; [apply Hf; by left|exact R].
Qed.

(** ** Cancellation *)

(** The check after the [await] of [processSeparation] (lines 198-200): when
    the cancel flag is set as the separation service answers, whatever the
    answer, the activation ends with [Cancelled], and neither the error nor
    the progress is written. *)
Lemma cancelled_invoke_is_silent URL_parses w t a m r :
  tasks w !! t = Some (AwaitInvoke a m) → cancelledRef (hook w) = true →
  ∃ w', step URL_parses w (invoke_settled t r) = Some w' ∧
    tasks w' = <[t := Rejected Cancelled]> (tasks w) ∧
    error_state (hook w') = error_state (hook w) ∧
    progress_state (hook w') = progress_state (hook w) ∧
    emitted w' = emitted w.
Proof.
  intros Ht Hc. simpl. rewrite Ht, Hc. simpl. eexists. split; [done|]. done.
Qed.

(** ** One undisturbed run *)

Lemma reject_climb t f w : climb (emitted (reject t f w)) = climb (emitted w).
Proof.
  unfold reject. case_bool_decide; [|done]. simpl. by rewrite climb_snoc_drop.
Qed.

Lemma step_climbing URL_parses w e w' :
  climbing w → is_start e = false → is_cancel e = false →
  step URL_parses w e = Some w' → climbing w'.
Proof.
  intros (k & Ek & Hs & Hk) Hns Hnc H. destruct e; try done; simpl in H; rewrite Ek in H.
  - (* upload_settled *)
    destruct ([k] !! t) as [k'|] eqn:Et; [|done].
    apply single_task_lookup in Et as [-> ->].
    destruct k; try done. destruct uploadError; injection H as <-.
    + exists (Rejected (UploadError s)). rewrite reject_tasks, reject_climb, Ek.
      by repeat split.
    + exists (AwaitSignedUrl filePath modelName). simpl. rewrite Ek.
      split; [reflexivity|]. split; [exact Hs|exact Hk].
  - (* signedUrl_settled *)
    destruct ([k] !! t) as [k'|] eqn:Et; [|done].
    apply single_task_lookup in Et as [-> ->].
    destruct k; try done.
    repeat case_match; simplify_eq;
      try (eexists (Rejected _); rewrite reject_tasks, reject_climb, Ek; by repeat split).
    exists (AwaitInvoke s modelName). simpl. rewrite Ek. split; [done|].
    rewrite climb_snoc_keep by done. simpl.
    split; [apply non_decreasing_snoc; [done|by apply (Forall_le_trans _ 10)]|].
    split; [done|]. split; [lia|].
    apply Forall_app. split; [by apply (Forall_le_trans _ 10)|]. by constructor.
  - (* invoke_settled *)
    destruct ([k] !! t) as [k'|] eqn:Et; [|done].
    apply single_task_lookup in Et as [-> ->].
    destruct k; try done. destruct Hk as (Hne & H90 & Hle).
    destruct (processSeparation_result _ r) as [f|results]; injection H as <-.
    + exists (Rejected f). rewrite reject_tasks, reject_climb. simpl. rewrite Ek.
      by repeat split.
    + exists (Resolved results). simpl. rewrite Ek. split; [done|].
      rewrite climb_snoc_keep by done. simpl.
      split; [|done]. apply non_decreasing_snoc; [done|].
      apply (Forall_le_trans _ _ _ Hle). lia.
  - (* interval_tick *)
    destruct ([k] !! t) as [k'|] eqn:Et; [|done].
    apply single_task_lookup in Et as [-> ->].
    destruct k; try done. destruct Hk as (Hne & H90 & Hle).
    destruct (ramp (progress_state (hook w))) as [sp|] eqn:Er; injection H as <-.
    + unfold ramp in Er. case_bool_decide; [|done]. injection Er as <-.
      exists (AwaitInvoke audioUrl modelName). simpl. split; [done|].
      rewrite climb_snoc_keep by done. simpl.
      assert (Hup : Forall (λ y, (y ≤ Z.min (progress (progress_state (hook w)) + 5) 90)%Z)
                      (climb (emitted w))).
      { apply (Forall_le_trans _ _ _ Hle). lia. }
      split; [by apply non_decreasing_snoc|].
      split; [done|]. split; [lia|].
      apply Forall_app. split; [done|]. by constructor.
    + exists (AwaitInvoke audioUrl modelName). rewrite Ek. by repeat split.
Qed.

Lemma run_climbing URL_parses events : ∀ w w',
  climbing w → undisturbed events → run URL_parses w events = Some w' → climbing w'.
Proof.
  induction events as [|e events IH]; intros w w' Hc Hu H; simpl in H.
  - by injection H as <-.
  - destruct (step URL_parses w e) as [w1|] eqn:E; [|done]. simpl in H.
    apply Forall_cons in Hu as [[Hs Hn] Hu].
    eapply IH; [|exact Hu|exact H]. by eapply step_climbing.
Qed.

Lemma start_climbing URL_parses e w :
  is_start e = true → step URL_parses initial e = Some w → climbing w.
Proof.
  intros He H. destruct e; try done; injection H as <-.
  - eexists. split; [reflexivity|]. split; [repeat constructor|].
    simpl. repeat constructor. done.
  - eexists. split; [reflexivity|]. split; [repeat constructor|].
    simpl. split; [done|]. split; [lia|]. repeat constructor. done.
Qed.
End SyncFacts.

(** * Properties of the polling revision *)
Module PollingFacts.
Import Stems Polling Runs.
#[local] Open Scope list_scope.
#[local] Open Scope nat_scope.

(** ** Vocabulary *)

Definition is_start (e : Event) : bool :=
  match e with
  | call_separate _ _ | call_separateFromUrl _ _ => true
  | _ => false
  end.

Definition is_cancel (e : Event) : bool :=
  match e with
  | call_cancel => true
  | _ => false
  end.

Definition is_status_call (c : Call) : bool :=
  match c with
  | FetchStatus _ => true
  | _ => false
  end.

(** The UI's gate: a start is only offered while [isProcessing] is false,
    and the user does not cancel. *)
Definition offered (w : World) (e : Event) : bool :=
  negb (is_cancel e) && (negb (is_start e) || negb (isProcessing (hook w))).

Fixpoint gated_run (w : World) (events : list Event) : option World :=
  match events with
  | [] => Some w
  | e :: events =>
      if offered w e then w' ← step w e; gated_run w' events else None
  end.

Definition undisturbed (events : list Event) : Prop :=
  Forall (λ e, is_start e = false ∧ is_cancel e = false) events.

Definition bounded (w : World) : Prop :=
  Forall in_bounds (emitted w) ∧ in_bounds (progress_state (hook w)).

(** A status response, and the answer to a submission. *)
Definition status (s : string) (output : option json) : InvokeResult :=
  {| data := Some {| data_error := None; data_id := None;
                     data_status := Some s; data_output := output |};
     invokeError := None |}.

Definition submitted (predictionId : string) : InvokeResult :=
  {| data := Some {| data_error := None; data_id := Some predictionId;
                     data_status := Some "starting"; data_output := None |};
     invokeError := None |}.

Definition network_error (msg : string) : InvokeResult :=
  {| data := None; invokeError := Some msg |}.

(** The progress a status event makes the hook show, if it shows one. *)
Definition polled (e : Event) : option Z :=
  match e with
  | status_settled _ r =>
      match invokeError r, data r with
      | None, Some d =>
          if bool_decide (data_status d = Some "succeeded")
             || bool_decide (data_status d = Some "failed")
             || bool_decide (data_status d = Some "canceled")
          then None
          else Some (progress (status_progress (data_status d)))
      | _, _ => None
      end
  | _ => None
  end.

(** The polled statuses do not regress. *)
Definition no_regress (events : list Event) : Prop :=
  non_decreasing (omap polled events).

(** The specification's monotonicity of the progress emitted by one run: a
    start followed by events that are neither a start nor a cancel. *)
Definition progress_never_decreases : Prop :=
  ∀ e events w, is_start e = true → undisturbed events →
    run initial (e :: events) = Some w →
    non_decreasing (progress <$> emitted w).

(** The specification's trust rule for a success without stems. *)
Definition empty_success_is_an_error : Prop :=
  ∀ events w t selectedStems predictionId w',
    run initial events = Some w →
    tasks w !! t = Some (AwaitStatus predictionId selectedStems) →
    step w (status_settled t (status "succeeded" (Some (JObject [])))) = Some w' →
    stage (progress_state (hook w')) = error.

(** The specification's cancellation rule: nothing that happens after a
    cancel (and before a new start) populates the error. *)
Definition cancel_never_reports_an_error : Prop :=
  ∀ before after w w',
    run initial (before ++ [call_cancel]) = Some w →
    undisturbed after →
    run w after = Some w' →
    error_state (hook w') = error_state (hook w).

(** At most one activation is waiting, and none while [isProcessing] is
    false. *)
Definition gated (w : World) : Prop :=
  outstanding w ≤ 1 ∧ (isProcessing (hook w) = false → outstanding w = 0).

(** The state of a run with a single activation, as far as the progress
    history goes. *)
Definition climbing (w : World) : Prop :=
  ∃ k, tasks w = [k] ∧ non_decreasing (climb (emitted w)) ∧
    match k with
    | AwaitUpload _ => Forall (λ y, (y ≤ 10)%Z) (climb (emitted w))
    | AwaitSubmit _ =>
        (progress (progress_state (hook w)) ≤ 20)%Z ∧
        Forall (λ y, (y ≤ progress (progress_state (hook w)))%Z) (climb (emitted w))
    | AwaitStatus _ _ | AwaitTimer _ _ _ =>
        (progress (progress_state (hook w)) ≤ 50)%Z ∧
        Forall (λ y, (y ≤ progress (progress_state (hook w)))%Z) (climb (emitted w))
    | _ => True
    end.

(** The activation is polling and the statuses still to come are not below
    the progress shown. *)
Definition ahead (w : World) (events : list Event) : Prop :=
  ∀ k, tasks w = [k] →
    match k with
    | AwaitStatus _ _ | AwaitTimer _ _ _ =>
        Forall (λ x, (progress (progress_state (hook w)) ≤ x)%Z) (omap polled events)
    | _ => True
    end.

(** ** Bounds of the progress value *)

Lemma polling_setProgress_bounded sp w :
  bounded w → in_bounds sp → bounded (setProgress sp w).
Proof.
  intros [He Hp] Hsp. split; simpl; [|done].
  apply Forall_app. split; [done|]. by constructor.
Qed.

Lemma polling_reject_bounded t f w : bounded w → bounded (reject t f w).
Proof.
  intros Hb. unfold reject. case_bool_decide; [|done].
  assert (B : bounded (setProgress (mkProgress error 0 (failure_message f))
                         (setError (Some (failure_message f)) w))).
  { apply polling_setProgress_bounded; [done|]. by split. }
  exact B.
Qed.

Lemma status_progress_range s :
  stage (status_progress s) = processing ∧
  (25 ≤ progress (status_progress s) ≤ 50)%Z.
Proof. unfold status_progress. repeat case_bool_decide; simpl; split; (done || lia). Qed.

Lemma status_progress_bounded s : in_bounds (status_progress s).
Proof.
  destruct (status_progress_range s) as [_ H]. split; [lia|]. intros. exfalso. lia.
Qed.

Lemma poll_bounded t p sel w : bounded w → bounded (poll t p sel w).
Proof.
  intros Hb. unfold poll. destruct (cancelledRef (hook w)); [by apply polling_reject_bounded|done].
Qed.

Lemma clearTimeout_bounded timer w : bounded w → bounded (clearTimeout timer w).
Proof. done. Qed.

Lemma polling_step_bounded w e w' : bounded w → step w e = Some w' → bounded w'.
Proof.
  intros Hb H. destruct e; simpl in H.
  - injection H as <-. unfold bounded. simpl. destruct Hb as [He Hp].
    split; [|by split]. apply Forall_app. split; [done|]. constructor; [by split|done].
  - injection H as <-. unfold bounded. simpl. destruct Hb as [He Hp].
    split; [|by split]. apply Forall_app. split; [done|]. constructor; [by split|done].
  - injection H as <-. unfold cancel.
    apply polling_setProgress_bounded; [|by split].
    destruct (pollTimeoutRef (hook (set_cancelledRef true w))); done.
  - repeat case_match; simplify_eq; [by apply polling_reject_bounded|].
    unfold bounded. simpl. destruct Hb as [He Hp].
    split; [|by split]. apply Forall_app. split; [done|]. constructor; [by split|done].
  - repeat case_match; simplify_eq; try by apply polling_reject_bounded.
    by apply poll_bounded.
  - repeat case_match; simplify_eq; try by apply polling_reject_bounded.
    + unfold bounded. simpl. destruct Hb as [He Hp].
      split; [|by split]. apply Forall_app. split; [done|]. constructor; [by split|done].
    + pose proof (polling_setProgress_bounded _ w Hb (status_progress_bounded (data_status r0))) as B.
      exact B.
  - repeat case_match; simplify_eq. by apply poll_bounded.
Qed.

Lemma polling_run_bounded events : ∀ w w',
  bounded w → run w events = Some w' → bounded w'.
Proof.
  induction events as [|e events IH]; intros w w' Hb H; simpl in H.
  - by injection H as <-.
  - destruct (step w e) as [w1|] eqn:E; [|done]. simpl in H.
    eapply IH; [|exact H]. by eapply polling_step_bounded.
Qed.

Lemma polling_initial_bounded : bounded initial.
Proof. split; [constructor|]. by split. Qed.


(** ** Single flight *)

Lemma polling_reject_tasks t f w : tasks (reject t f w) = <[t := Rejected f]> (tasks w).
Proof. unfold reject. by case_bool_decide. Qed.

Lemma polling_reject_calls t f w : calls (reject t f w) = calls w.
Proof. unfold reject. by case_bool_decide. Qed.

Lemma reject_cancelledRef t f w :
  cancelledRef (hook (reject t f w)) = cancelledRef (hook w).
Proof. unfold reject. by case_bool_decide. Qed.

Lemma polling_outstanding_insert (l : list Task) t old new :
  l !! t = Some old →
  length (filter (λ k, pending k = true) (<[t := new]> l))
    + (if pending old then 1 else 0) =
  length (filter (λ k, pending k = true) l) + (if pending new then 1 else 0).
Proof.
  intros Hl. pose proof (count_insert (λ k, pending k = true) l t old new Hl) as H.
  cbv beta in H. revert H.
  destruct (pending old), (pending new); repeat case_decide; try done; lia.
Qed.

Lemma polling_start_never_refused w e :
  is_start e = true →
  ∃ w', step w e = Some w' ∧
    outstanding w' = S (outstanding w) ∧
    length (calls w') = S (length (calls w)) ∧
    isProcessing (hook w') = true ∧ cancelledRef (hook w') = false ∧
    error_state (hook w') = None ∧ stems (hook w') = [].
Proof.
  intros He. destruct e; try done; simpl; eexists; (split; [done|]).
  - unfold outstanding. simpl. rewrite count_snoc. simpl.
    rewrite length_app. simpl. repeat split; lia.
  - unfold outstanding. simpl. rewrite count_snoc. simpl.
    rewrite length_app. simpl. repeat split; lia.
Qed.

Lemma polling_set_task_done t k old w w0 :
  gated w → tasks w !! t = Some old → pending old = true → pending k = false →
  tasks w0 = <[t := k]> (tasks w) → gated w0.
Proof.
  intros [H1 H0] Ht Hp Hk E. unfold gated, outstanding in *. rewrite E.
  pose proof (polling_outstanding_insert (tasks w) t old k Ht) as H.
  rewrite Hp, Hk in H. split; [lia|]. intros _. lia.
Qed.

Lemma polling_set_task_on t k old w w0 :
  gated w → tasks w !! t = Some old → pending old = true → pending k = true →
  tasks w0 = <[t := k]> (tasks w) → isProcessing (hook w0) = isProcessing (hook w) →
  gated w0.
Proof.
  intros [H1 H0] Ht Hp Hk E Ei. unfold gated, outstanding in *. rewrite E, Ei.
  pose proof (polling_outstanding_insert (tasks w) t old k Ht) as H.
  rewrite Hp, Hk in H. split; [lia|]. intros Hi. specialize (H0 Hi). lia.
Qed.

Lemma polling_reject_gated t f old w w0 :
  gated w → tasks w !! t = Some old → pending old = true → tasks w0 = tasks w →
  gated (reject t f w0).
Proof.
  intros Hg Ht Hp E. apply (polling_set_task_done t (Rejected f) old w); try done.
  by rewrite polling_reject_tasks, E.
Qed.

Lemma poll_gated t p sel old w :
  gated w → tasks w !! t = Some old → pending old = true → gated (poll t p sel w).
Proof.
  intros Hg Ht Hp. unfold poll. destruct (cancelledRef (hook w)).
  - by eapply polling_reject_gated.
  - by eapply (polling_set_task_on t (AwaitStatus p sel)).
Qed.

Lemma polling_step_gated w e w' :
  gated w → offered w e = true → step w e = Some w' → gated w'.
Proof.
  intros Hg Ho H. destruct e; simpl in H.
  - destruct (polling_start_never_refused w (call_separate fileName uuid))
      as (w1 & E & Hout & _ & Hp & _); [done|].
    simpl in E. rewrite E in H. injection H as <-.
    unfold offered in Ho. simpl in Ho. apply negb_true_iff in Ho.
    destruct Hg as [_ H0]. specialize (H0 Ho). split; [lia|]. congruence.
  - destruct (polling_start_never_refused w (call_separateFromUrl audioUrl selectedStems))
      as (w1 & E & Hout & _ & Hp & _); [done|].
    simpl in E. rewrite E in H. injection H as <-.
    unfold offered in Ho. simpl in Ho. apply negb_true_iff in Ho.
    destruct Hg as [_ H0]. specialize (H0 Ho). split; [lia|]. congruence.
  - done.
  - destruct (tasks w !! t) as [[]|] eqn:Et; try done.
    destruct uploadError; injection H as <-.
    + by eapply polling_reject_gated.
    + by eapply (polling_set_task_on t (AwaitSubmit None)).
  - destruct (tasks w !! t) as [[]|] eqn:Et; try done.
    repeat case_match; simplify_eq; try by eapply polling_reject_gated.
    by eapply poll_gated.
  - destruct (tasks w !! t) as [[]|] eqn:Et; try done.
    repeat case_match; simplify_eq; try by eapply polling_reject_gated.
    + by eapply (polling_set_task_done t (Resolved _)).
    + by eapply (polling_set_task_on t (AwaitTimer _ predictionId selectedStems)).
  - destruct (tasks w !! t) as [[]|] eqn:Et; try done.
    injection H as <-. by eapply poll_gated.
Qed.

Lemma polling_gated_run_gated events : ∀ w w',
  gated w → gated_run w events = Some w' → gated w'.
Proof.
  induction events as [|e events IH]; intros w w' Hg H; simpl in H.
  - by injection H as <-.
  - destruct (offered w e) eqn:Ho; [|done].
    destruct (step w e) as [w1|] eqn:E; [|done]. simpl in H.
    eapply IH; [|exact H]. by eapply polling_step_gated.
Qed.

Lemma polling_single_flight :
  (∀ w e, is_start e = true →
     ∃ w', step w e = Some w' ∧
       outstanding w' = S (outstanding w) ∧
       length (calls w') = S (length (calls w))) ∧
  (∀ events w, gated_run initial events = Some w →
     outstanding w ≤ 1 ∧ (isProcessing (hook w) = false → outstanding w = 0)).
Proof.
  split.
  - intros w e He.
    destruct (polling_start_never_refused w e He) as (w' & ? & ? & ? & _). eauto.
  - intros events w H. apply (polling_gated_run_gated events initial w); [|done].
    split; [vm_compute; lia|done].
Qed.

(** ** A success without stems *)

(** C2. In this revision a status response that reports success
    with an empty stem map completes the run: stage [complete], progress 100,
    no stems and no error. *)
Theorem empty_success_completes :
  ∃ w, run initial
         [call_separateFromUrl "https://cdn.example/song.mp3" None;
          submit_settled 0 (submitted "p1");
          status_settled 0 (status "succeeded" (Some (JObject [])))] = Some w ∧
    progress_state (hook w) = mkProgress complete 100 "Separation complete!" ∧
    stems (hook w) = [] ∧ error_state (hook w) = None ∧
    tasks w = [Resolved []].
Proof. eexists. split; [vm_compute; reflexivity|]. done. Qed.

Lemma empty_success_is_not_an_error : ¬ empty_success_is_an_error.
Proof.
  intros H.
  specialize (H [call_separateFromUrl "https://cdn.example/song.mp3" None;
                 submit_settled 0 (submitted "p1")]).
  simpl in H. specialize (H _ 0 None (Some "p1") _ eq_refl eq_refl eq_refl).
  vm_compute in H. discriminate.
Qed.

(** ** Cancellation *)

(** What [cancel] does at once. *)
Lemma cancel_at_once w :
  ∃ w', step w call_cancel = Some w' ∧
    cancelledRef (hook w') = true ∧ isProcessing (hook w') = false ∧
    progress_state (hook w') = mkProgress idle 0 "Cancelled" ∧
    error_state (hook w') = error_state (hook w) ∧
    calls w' = calls w ∧
    ∀ t timer p sel, pollTimeoutRef (hook w) = Some timer →
      tasks w !! t = Some (AwaitTimer timer p sel) → tasks w' !! t = Some Orphaned.
Proof.
  eexists. split; [done|]. unfold cancel. simpl.
  destruct (pollTimeoutRef (hook w)) as [timer|] eqn:E; simpl; repeat split; try done.
  intros t timer' p sel [= <-] Ht. rewrite list_lookup_fmap, Ht. simpl.
  by rewrite bool_decide_eq_true_2.
Qed.

Lemma other_call_snoc (l : list Call) c :
  is_status_call c = false →
  filter (λ c, is_status_call c = true) (l ++ [c]) =
    filter (λ c, is_status_call c = true) l.
Proof.
  intros H. rewrite filter_app, filter_cons_False, filter_nil, app_nil_r; [done|].
  by rewrite H.
Qed.

(** Once cancelled, and until a new start, the hook asks for no status. *)
Lemma step_after_cancel w e w' :
  cancelledRef (hook w) = true → is_start e = false → step w e = Some w' →
  cancelledRef (hook w') = true ∧
  filter (λ c, is_status_call c = true) (calls w') =
    filter (λ c, is_status_call c = true) (calls w).
Proof.
  intros Hc Hs H. destruct e; try done; simpl in H.
  - injection H as <-. unfold cancel. simpl.
    by destruct (pollTimeoutRef (hook w)).
  - repeat case_match; simplify_eq.
    + by rewrite reject_cancelledRef, polling_reject_calls.
    + simpl. split; [done|]. by rewrite other_call_snoc.
  - repeat case_match; simplify_eq;
      try (by rewrite reject_cancelledRef, polling_reject_calls).
    unfold poll. rewrite Hc. by rewrite reject_cancelledRef, polling_reject_calls.
  - repeat case_match; simplify_eq;
      try (by rewrite reject_cancelledRef, polling_reject_calls); done.
  - repeat case_match; simplify_eq.
    unfold poll. rewrite Hc. by rewrite reject_cancelledRef, polling_reject_calls.
Qed.

Lemma no_status_call_after_cancel events : ∀ w w',
  cancelledRef (hook w) = true → Forall (λ e, is_start e = false) events →
  run w events = Some w' →
  filter (λ c, is_status_call c = true) (calls w') =
    filter (λ c, is_status_call c = true) (calls w).
Proof.
  induction events as [|e events IH]; intros w w' Hc Hs H; simpl in H.
  - by injection H as <-.
  - destruct (step w e) as [w1|] eqn:E; [|done]. simpl in H.
    apply Forall_cons in Hs as [He Hs].
    destruct (step_after_cancel w e w1 Hc He E) as [Hc1 Hf].
    rewrite <- Hf. by apply IH.
Qed.

(** ** One undisturbed run *)

Lemma polling_reject_climb t f w : climb (emitted (reject t f w)) = climb (emitted w).
Proof.
  unfold reject. case_bool_decide; [|done]. simpl. by rewrite climb_snoc_drop.
Qed.

Lemma polled_range e x : polled e = Some x → (25 ≤ x ≤ 50)%Z.
Proof.
  destruct e; try done. simpl. repeat case_match; try done.
  intros [= <-]. apply status_progress_range.
Qed.

Lemma poll_climbing p sel w b :
  tasks w = [b] → non_decreasing (climb (emitted w)) →
  (progress (progress_state (hook w)) ≤ 50)%Z →
  Forall (λ y, (y ≤ progress (progress_state (hook w)))%Z) (climb (emitted w)) →
  climbing (poll 0 p sel w).
Proof.
  intros Ek Hs H50 Hle. unfold poll. destruct (cancelledRef (hook w)).
  - exists (Rejected Cancelled). rewrite polling_reject_tasks, polling_reject_climb, Ek. by repeat split.
  - exists (AwaitStatus p sel). simpl. rewrite Ek. by repeat split.
Qed.

Lemma poll_ahead p sel w b events :
  tasks w = [b] →
  Forall (λ x, (progress (progress_state (hook w)) ≤ x)%Z) (omap polled events) →
  ahead (poll 0 p sel w) events.
Proof.
  intros Ek Ha k. unfold poll. destruct (cancelledRef (hook w)).
  - rewrite polling_reject_tasks, Ek. simpl. by intros [= <-].
  - simpl. rewrite Ek. simpl. by intros [= <-].
Qed.

Lemma finished_ahead w f events : tasks w = [Rejected f] → ahead w events.
Proof. intros E k. rewrite E. by intros [= <-]. Qed.

(** One event of an undisturbed run keeps the history climbing, provided
    the status it carries is not below the progress shown. *)
Lemma polling_step_climbing w e events w' :
  climbing w → is_start e = false → is_cancel e = false →
  no_regress (e :: events) → ahead w (e :: events) →
  step w e = Some w' → climbing w' ∧ ahead w' events.
Proof.
  intros (k & Ek & Hs & Hk) Hns Hnc Hreg Hah H.
  specialize (Hah k Ek).
  assert (Hrest : ∀ x, polled e = Some x →
            Forall (λ y, (x ≤ y)%Z) (omap polled events)).
  { intros x Hx. unfold no_regress in Hreg. simpl in Hreg. rewrite Hx in Hreg.
    by apply StronglySorted_inv in Hreg as [_ ?]. }
  assert (Hlow : ∀ b, (b ≤ 25)%Z →
            Forall (λ y, (b ≤ y)%Z) (omap polled events)).
  { intros b Hb. apply Forall_forall. intros y Hy.
    apply list_elem_of_omap in Hy as (e' & _ & He').
    apply polled_range in He'. lia. }
  assert (Hrej : ∀ f w0, tasks w0 = tasks w → emitted w0 = emitted w →
            climbing (reject 0 f w0) ∧ ahead (reject 0 f w0) events).
  { intros f w0 Et Ee. split.
    - exists (Rejected f). rewrite polling_reject_tasks, polling_reject_climb, Et, Ee, Ek.
      by repeat split.
    - apply (finished_ahead _ f). by rewrite polling_reject_tasks, Et, Ek. }
  destruct e; try done; simpl in H; rewrite Ek in H.
  - (* upload_settled *)
    destruct ([k] !! t) as [k'|] eqn:Et; [|done].
    apply single_task_lookup in Et as [-> ->].
    destruct k; try done. destruct uploadError; injection H as <-.
    + by apply Hrej.
    + split.
      * exists (AwaitSubmit None). simpl. rewrite Ek. split; [done|].
        rewrite climb_snoc_keep by done. simpl.
        split; [apply non_decreasing_snoc; [done|by apply (Forall_le_trans _ 10)]|].
        split; [lia|]. apply Forall_app.
        split; [by apply (Forall_le_trans _ 10)|]. by constructor.
      * intros k. simpl. rewrite Ek. simpl. by intros [= <-].
  - (* submit_settled *)
    destruct ([k] !! t) as [k'|] eqn:Et; [|done].
    apply single_task_lookup in Et as [-> ->].
    destruct k; try done. destruct Hk as [H20 Hle].
    repeat case_match; simplify_eq; try by apply Hrej.
    split.
    + eapply poll_climbing; try done. lia.
    + eapply poll_ahead; [done|]. apply Hlow. lia.
  - (* status_settled *)
    destruct ([k] !! t) as [k'|] eqn:Et; [|done].
    apply single_task_lookup in Et as [-> ->].
    destruct k; try done. destruct Hk as [H50 Hle].
    destruct (invokeError r) as [m|] eqn:Ei; [injection H as <-; by apply Hrej|].
    destruct (data r) as [d|] eqn:Ed; [|injection H as <-; by apply Hrej].
    simpl in Hah, Hrest. rewrite Ei, Ed in Hah, Hrest.
    destruct (bool_decide (data_status d = Some "succeeded")) eqn:E1.
    { destruct (Object_entries (data_output d)); injection H as <-; [|by apply Hrej].
      split.
      - exists (Resolved (filter_selected selectedStems (extract_stems STEM_LABELS l))).
        simpl. rewrite Ek. split; [done|]. rewrite climb_snoc_keep by done. simpl.
        split; [|done]. apply non_decreasing_snoc; [done|].
        apply (Forall_le_trans _ _ _ Hle). lia.
      - intros k. simpl. rewrite Ek. simpl. by intros [= <-]. }
    destruct (bool_decide (data_status d = Some "failed")
              || bool_decide (data_status d = Some "canceled")) eqn:E2.
    { injection H as <-. by apply Hrej. }
    injection H as <-. simpl in Hah, Hrest.
    apply orb_false_iff in E2 as [E2 E3]. rewrite E2, E3 in Hah, Hrest.
    simpl in Hah, Hrest.
    apply Forall_cons in Hah as [Hup Hah].
    destruct (status_progress_range (data_status d)) as [Hst Hrg].
    split.
    + exists (AwaitTimer (S (timers w)) predictionId selectedStems).
      simpl. rewrite Ek. split; [done|].
      rewrite climb_snoc_keep by (by rewrite Hst). simpl.
      split; [apply non_decreasing_snoc; [done|by apply (Forall_le_trans _ _ _ Hle)]|].
      split; [lia|]. apply Forall_app.
      split; [by apply (Forall_le_trans _ _ _ Hle)|]. by constructor.
    + intros k. simpl. rewrite Ek. simpl. intros [= <-]. by apply Hrest.
  - (* timer_fired *)
    destruct ([k] !! t) as [k'|] eqn:Et; [|done].
    apply single_task_lookup in Et as [-> ->].
    destruct k; try done. destruct Hk as [H50 Hle]. injection H as <-.
    split.
    + by eapply poll_climbing.
    + eapply poll_ahead; [done|]. simpl in Hah. done.
Qed.

Lemma polling_run_climbing events : ∀ w w',
  climbing w → undisturbed events → no_regress events → ahead w events →
  run w events = Some w' → climbing w'.
Proof.
  induction events as [|e events IH]; intros w w' Hc Hu Hr Ha H; simpl in H.
  - by injection H as <-.
  - destruct (step w e) as [w1|] eqn:E; [|done]. simpl in H.
    apply Forall_cons in Hu as [[Hs Hn] Hu].
    destruct (polling_step_climbing w e events w1 Hc Hs Hn Hr Ha E) as [Hc1 Ha1].
    eapply IH; [exact Hc1|exact Hu| |exact Ha1|exact H].
    unfold no_regress in *. simpl in Hr.
    destruct (polled e); [|done]. by apply StronglySorted_inv in Hr as [? _].
Qed.

Lemma polling_start_climbing e w events :
  is_start e = true → step initial e = Some w → climbing w ∧ ahead w events.
Proof.
  intros He H. destruct e; try done; injection H as <-.
  - split.
    + eexists. split; [reflexivity|]. split; [repeat constructor|].
      simpl. repeat constructor. done.
    + intros k. simpl. by intros [= <-].
  - split.
    + eexists. split; [reflexivity|]. split; [repeat constructor|].
      simpl. split; [lia|]. repeat constructor. done.
    + intros k. simpl. by intros [= <-].
Qed.

Example regressing_statuses :
  ∃ w, run initial
         [call_separateFromUrl "https://cdn.example/song.mp3" None;
          submit_settled 0 (submitted "p1");
          status_settled 0 (status "processing" None);
          timer_fired 0;
          status_settled 0 (status "starting" None)] = Some w ∧
       progress <$> emitted w = [20; 50; 25]%Z.
Proof. eexists. split; vm_compute; reflexivity. Qed.

(** The counterexample to C5 as stated: a polled status that goes back from
    [processing] to [starting] lowers the progress from 50 to 25. *)
Lemma progress_can_decrease : ¬ progress_never_decreases.
Proof.
  intros H. destruct regressing_statuses as (w & E & T).
  assert (Hu : undisturbed
                 [submit_settled 0 (submitted "p1");
                  status_settled 0 (status "processing" None);
                  timer_fired 0;
                  status_settled 0 (status "starting" None)])
    by (by repeat constructor).
  specialize (H (call_separateFromUrl "https://cdn.example/song.mp3" None) _ w
                eq_refl Hu E).
  rewrite T in H.
  apply StronglySorted_inv in H as [H _].
  apply StronglySorted_inv in H as [_ H].
  apply Forall_cons in H as [H _]. by apply H.
Qed.
End PollingFacts.

(** * Properties stated for both revisions of the orchestrator *)
Module Orchestrator.
Import Stems Runs.
#[local] Open Scope list_scope.
#[local] Open Scope nat_scope.

(** ** Vocabulary *)

(** The entries of a stem map that yield a stem: those whose value is a
    non-empty string, in the order of the map. *)
Definition usable (entries : list (string * json)) : list (string * string) :=
  omap (λ '(key, v),
          match v with
          | JStr u => if bool_decide (u = EmptyString) then None else Some (key, u)
          | _ => None
          end) entries.

(** The specification's table of known stem identifiers. *)
Definition known_labels : list (string * string) :=
  [ ("vocals", "Vocals"); ("drums", "Drums"); ("bass", "Bass");
    ("other", "Other"); ("instrumental", "Instrumental");
    ("guitar", "Guitar"); ("piano", "Piano") ].

(** The same table without "instrumental", as the polling revision has it. *)
Definition known_labels_polling : list (string * string) :=
  [ ("vocals", "Vocals"); ("drums", "Drums"); ("bass", "Bass");
    ("other", "Other"); ("guitar", "Guitar"); ("piano", "Piano") ].

(** ** Labels *)

Lemma stem_label_known (table : list (string * string)) key l :
  NoDup table.*1 → (key, l) ∈ table → l ≠ EmptyString →
  stem_label (list_to_map table) key = Text l.
Proof.
  intros Hnd Hin Hl. unfold stem_label, js_get.
  rewrite (elem_of_list_to_map_1 table key l Hnd Hin).
  by rewrite bool_decide_eq_false_2.
Qed.

Lemma stem_label_unknown (table : list (string * string)) key :
  key ∉ table.*1 → key ∉ object_prototype_keys →
  stem_label (list_to_map table) key = Text key.
Proof.
  intros Hk Hp. unfold stem_label, js_get.
  rewrite (not_elem_of_list_to_map_1 table key Hk).
  by rewrite bool_decide_eq_false_2.
Qed.

Lemma known_labels_NoDup : NoDup known_labels.*1 ∧ NoDup known_labels_polling.*1.
Proof. split; apply (bool_decide_unpack _); vm_compute; exact I. Qed.

Lemma known_labels_nonempty key l :
  (key, l) ∈ known_labels → l ≠ EmptyString.
Proof.
  intros H ->. unfold known_labels in H.
  repeat (apply elem_of_cons in H as [H|H]; [discriminate|]).
  by apply elem_of_nil in H.
Qed.

Lemma known_labels_polling_sub key l :
  (key, l) ∈ known_labels_polling → (key, l) ∈ known_labels.
Proof.
  unfold known_labels_polling, known_labels. intros H.
  repeat (apply elem_of_cons in H as [->|H];
          [apply (bool_decide_unpack _); vm_compute; exact I|]).
  by apply elem_of_nil in H.
Qed.

(** ** The loop over the stem map *)

Lemma extract_stems_usable labels entries :
  extract_stems labels entries =
    (λ '(key, u), {| id := key; label := stem_label labels key; url := u |})
      <$> usable entries.
Proof.
  unfold extract_stems, usable. rewrite list_fmap_omap.
  apply list_omap_ext, Forall_Forall2_diag, Forall_forall.
  intros [key v] _. destruct v as [| | |u|]; try done.
  simpl. by case_bool_decide.
Qed.

Lemma usable_all entries :
  Forall (λ e, ∃ u, e.2 = JStr u ∧ u ≠ EmptyString) entries →
  (usable entries).*1 = entries.*1.
Proof.
  unfold usable. induction 1 as [|[key v] entries (u & Hv & Hu) _ IH]; [done|].
  simpl in Hv. subst v. cbn. rewrite bool_decide_eq_false_2 by done.
  cbn. by f_equal.
Qed.

Lemma extract_stems_ids labels entries :
  id <$> extract_stems labels entries = (usable entries).*1.
Proof.
  rewrite extract_stems_usable, <- list_fmap_compose.
  apply list_fmap_ext. by intros i [key u] _.
Qed.

(** ** The filter of the polling revision *)

Lemma filter_selected_spec sel results :
  Polling.filter_selected sel results =
    match sel with
    | None | Some [] => results
    | Some l => filter (λ r, id r ∈ l) results
    end.
Proof. by destruct sel as [[|x l]|]. Qed.

(** C6 as stated does not hold: an entry whose value is the empty string
    yields no record. *)
Lemma not_every_entry_is_normalized :
  ¬ SyncFacts.normalizes_every_entry SyncFacts.begins_with_scheme.
Proof.
  intros H.
  specialize (H SyncFacts.awaiting_service 0 "https://cdn.example/song.mp3" "htdemucs_ft"
                [("vocals", JStr "url1"); ("drums", JStr EmptyString)] _ eq_refl eq_refl eq_refl).
  vm_compute in H. discriminate.
Qed.

(** C6. Result normalization.  The stem map of a successful response is
    turned into one record per entry whose value is a non-empty string, in
    the order of the map, with the key as id and the value as url; other
    entries yield nothing.  The label of a known identifier is its table
    entry (the polling revision's table has no "instrumental"), the label of
    any other key that is not a member name of [Object.prototype] is the key
    itself.  The synchronous revision stores exactly these records and
    completes when there is at least one; it takes no subset.  The polling
    revision stores them filtered to the requested stems when a non-empty
    list of stems was requested, unfiltered otherwise, and completes.  For
    the map {vocals: "url1", drums: "url2"} the result is the two records of
    the specification's example, with stage [complete]. *)
Theorem stems_are_normalized (URL_parses : string → bool) :
  (∀ labels entries,
     extract_stems labels entries =
       (λ '(key, u), {| id := key; label := stem_label labels key; url := u |})
         <$> usable entries) ∧
  (∀ entries, Forall (λ e, ∃ u, e.2 = JStr u ∧ u ≠ EmptyString) entries →
     id <$> extract_stems Sync.STEM_LABELS entries = entries.*1) ∧
  (∀ key l, (key, l) ∈ known_labels → stem_label Sync.STEM_LABELS key = Text l) ∧
  (∀ key, key ∉ known_labels.*1 → key ∉ object_prototype_keys →
     stem_label Sync.STEM_LABELS key = Text key) ∧
  (∀ key l, (key, l) ∈ known_labels_polling →
     stem_label Polling.STEM_LABELS key = Text l) ∧
  (∀ key, key ∉ known_labels_polling.*1 → key ∉ object_prototype_keys →
     stem_label Polling.STEM_LABELS key = Text key) ∧
  (∀ w t audioUrl modelName entries,
     Sync.tasks w !! t = Some (Sync.AwaitInvoke audioUrl modelName) →
     Sync.cancelledRef (Sync.hook w) = false →
     extract_stems Sync.STEM_LABELS entries ≠ [] →
     ∃ w', Sync.step URL_parses w (Sync.invoke_settled t (SyncFacts.succeeded entries))
             = Some w' ∧
       Sync.stems (Sync.hook w') = extract_stems Sync.STEM_LABELS entries ∧
       stage (Sync.progress_state (Sync.hook w')) = complete ∧
       Sync.tasks w' !! t = Some (Sync.Resolved (extract_stems Sync.STEM_LABELS entries))) ∧
  (∀ w t predictionId selectedStems entries,
     Polling.tasks w !! t = Some (Polling.AwaitStatus predictionId selectedStems) →
     ∃ w', Polling.step w (Polling.status_settled t
                             (PollingFacts.status "succeeded" (Some (JObject entries))))
             = Some w' ∧
       Polling.stems (Polling.hook w') =
         match selectedStems with
         | None | Some [] => extract_stems Polling.STEM_LABELS entries
         | Some l => filter (λ r, id r ∈ l) (extract_stems Polling.STEM_LABELS entries)
         end ∧
       stage (Polling.progress_state (Polling.hook w')) = complete) ∧
  (∃ w, Sync.run URL_parses Sync.initial
          [Sync.call_separateFromUrl "https://cdn.example/song.mp3" None;
           Sync.invoke_settled 0
             (SyncFacts.succeeded [("vocals", JStr "url1"); ("drums", JStr "url2")])]
          = Some w ∧
     Sync.stems (Sync.hook w) =
       [ {| id := "vocals"; label := Text "Vocals"; url := "url1" |};
         {| id := "drums"; label := Text "Drums"; url := "url2" |} ] ∧
     stage (Sync.progress_state (Sync.hook w)) = complete).
Proof.
  destruct known_labels_NoDup as [Nd Ndp].
  split; [apply extract_stems_usable|].
  split; [intros entries H; rewrite extract_stems_ids; by apply usable_all|].
  split.
  { intros key l H. apply (stem_label_known known_labels); [done|done|].
    by eapply known_labels_nonempty. }
  split; [intros key; apply (stem_label_unknown known_labels)|].
  split.
  { intros key l H. apply (stem_label_known known_labels_polling); [done|done|].
    eapply known_labels_nonempty. by apply known_labels_polling_sub. }
  split; [intros key; apply (stem_label_unknown known_labels_polling)|].
  split.
  { intros w t a m entries Ht Hc Hne. simpl. rewrite Ht, Hc.
    rewrite (SyncFacts.success_outcome (SyncFacts.succeeded entries)) by done.
    simpl. rewrite bool_decide_eq_false_2 by done.
    eexists. split; [done|]. split; [done|]. split; [done|].
    simpl. apply list_lookup_insert_eq. by eapply lookup_lt_Some. }
  split.
  { intros w t p sel entries Ht. simpl. rewrite Ht. simpl.
    eexists. split; [done|]. split; [|done]. simpl. apply filter_selected_spec. }
  eexists. split; [vm_compute; reflexivity|]. done.
Qed.



(** ** Single flight *)

(** C3. Single flight.  Neither revision of the hook has a guard of its
    own: a call of [separate] or [separateFromUrl] is never refused, whatever
    is in flight, and adds one activation with its own request.  At most one
    activation is in flight, and none while [isProcessing] is false, in every
    run in which the caller starts only while [isProcessing] is false and
    does not cancel. *)
Theorem single_flight_by_the_caller (URL_parses : string → bool) :
  (∀ w e, SyncFacts.is_start e = true →
     ∃ w', Sync.step URL_parses w e = Some w' ∧
       Sync.outstanding w' = S (Sync.outstanding w) ∧
       length (Sync.calls w') = S (length (Sync.calls w))) ∧
  (∀ w e, PollingFacts.is_start e = true →
     ∃ w', Polling.step w e = Some w' ∧
       Polling.outstanding w' = S (Polling.outstanding w) ∧
       length (Polling.calls w') = S (length (Polling.calls w))) ∧
  (∀ events w, SyncFacts.gated_run URL_parses Sync.initial events = Some w →
     Sync.outstanding w ≤ 1 ∧
     (Sync.isProcessing (Sync.hook w) = false → Sync.outstanding w = 0)) ∧
  (∀ events w, PollingFacts.gated_run Polling.initial events = Some w →
     Polling.outstanding w ≤ 1 ∧
     (Polling.isProcessing (Polling.hook w) = false → Polling.outstanding w = 0)).
Proof.
  destruct (SyncFacts.sync_single_flight URL_parses) as [S1 S2].
  destruct PollingFacts.polling_single_flight as [P1 P2].
  done.
Qed.

Lemma single_flight_by_the_caller_witness :
  ∃ w, SyncFacts.gated_run SyncFacts.begins_with_scheme Sync.initial
         [Sync.call_separate "song.mp3" "6f1c" None; Sync.upload_settled 0 None] = Some w ∧
       Sync.outstanding w ≤ 1.
Proof.
  eexists. split; [vm_compute; reflexivity|].
  refine (proj1 (proj1 (proj2 (proj2
    (single_flight_by_the_caller SyncFacts.begins_with_scheme)))
    [Sync.call_separate "song.mp3" "6f1c" None; Sync.upload_settled 0 None] _ _)).
  vm_compute. reflexivity.
Defined.

(** ** Cancellation *)

(** C4. Cancellation.  A cancel while a request is in flight does not keep
    the error or the stage: in the polling revision, a status request that
    was in flight at the cancel and then fails sets the error and the stage
    [error]; in the synchronous revision, an upload that was in flight at the
    cancel and then fails does the same, and one that succeeds goes on to
    stage [processing], calls the separation service and leaves the stage
    there.  At the cancel itself the stage is [idle] and the error is
    unset. *)
Theorem cancel_then_failure_reports_an_error :
  (∃ w1 w2,
     Polling.run Polling.initial
       [Polling.call_separateFromUrl "https://cdn.example/song.mp3" None;
        Polling.submit_settled 0 (PollingFacts.submitted "p1");
        Polling.call_cancel] = Some w1 ∧
     Polling.progress_state (Polling.hook w1) = mkProgress idle 0 "Cancelled" ∧
     Polling.error_state (Polling.hook w1) = None ∧
     Polling.step w1 (Polling.status_settled 0
                        (PollingFacts.network_error "Failed to fetch")) = Some w2 ∧
     Polling.progress_state (Polling.hook w2) =
       mkProgress error 0 "Failed to check status: Failed to fetch" ∧
     Polling.error_state (Polling.hook w2) =
       Some "Failed to check status: Failed to fetch") ∧
  (∃ w1 w2,
     Sync.run SyncFacts.begins_with_scheme Sync.initial
       [Sync.call_separate "song.mp3" "6f1c" None; Sync.call_cancel] = Some w1 ∧
     Sync.progress_state (Sync.hook w1) = mkProgress idle 0 "Megszakítva" ∧
     Sync.error_state (Sync.hook w1) = None ∧
     Sync.step SyncFacts.begins_with_scheme w1
       (Sync.upload_settled 0 (Some "quota exceeded")) = Some w2 ∧
     stage (Sync.progress_state (Sync.hook w2)) = error ∧
     Sync.error_state (Sync.hook w2) = Some "Feltöltés sikertelen: quota exceeded") ∧
  (∃ w,
     Sync.run SyncFacts.begins_with_scheme Sync.initial
       [Sync.call_separate "song.mp3" "6f1c" None; Sync.call_cancel;
        Sync.upload_settled 0 None;
        Sync.signedUrl_settled 0 (Some "https://store.example/sign/song.mp3?token=t") None;
        Sync.invoke_settled 0
          (SyncFacts.succeeded [("vocals", JStr "url1"); ("drums", JStr "url2")])]
       = Some w ∧
     stage (Sync.progress_state (Sync.hook w)) = processing ∧
     Sync.calls w =
       [Sync.StorageUpload "uploads/6f1c-song.mp3";
        Sync.CreateSignedUrl "uploads/6f1c-song.mp3";
        Sync.InvokeSeparation "https://store.example/sign/song.mp3?token=t"
                              "htdemucs_ft"] ∧
     Sync.tasks w = [Sync.Rejected Sync.Cancelled]).
Proof.
  split; [|split].
  - eexists _, _. split; [vm_compute; reflexivity|].
    do 2 (split; [reflexivity|]). split; [vm_compute; reflexivity|]. done.
  - eexists _, _. split; [vm_compute; reflexivity|].
    do 2 (split; [reflexivity|]). split; [vm_compute; reflexivity|]. done.
  - eexists. split; [vm_compute; reflexivity|]. done.
Qed.

Example error_after_cancel :
  ∃ w w', Polling.run Polling.initial
            ([Polling.call_separateFromUrl "https://cdn.example/song.mp3" None;
              Polling.submit_settled 0 (PollingFacts.submitted "p1")]
             ++ [Polling.call_cancel]) = Some w ∧
          Polling.run w [Polling.status_settled 0
                           (PollingFacts.network_error "Failed to fetch")] = Some w' ∧
          Polling.error_state (Polling.hook w) = None ∧
          Polling.error_state (Polling.hook w') =
            Some "Failed to check status: Failed to fetch".
Proof. eexists _, _. split; [vm_compute; reflexivity|]. split; [vm_compute; reflexivity|]. done. Qed.

Lemma cancel_can_report_an_error : ¬ PollingFacts.cancel_never_reports_an_error.
Proof.
  intros H. destruct error_after_cancel as (w & w' & E & E' & N & S).
  assert (Hu : PollingFacts.undisturbed
                 [Polling.status_settled 0 (PollingFacts.network_error "Failed to fetch")])
    by (by repeat constructor).
  specialize (H _ _ w w' E Hu E').
  rewrite N, S in H. discriminate H.
Qed.

(** ** Progress *)

Lemma ramp_below_100 prev sp :
  Sync.ramp prev = Some sp →
  (progress prev ≤ progress sp ≤ 90)%Z ∧ stage sp = stage prev.
Proof.
  unfold Sync.ramp. case_bool_decide; [|done]. intros [= <-]. simpl.
  split; [lia|done].
Qed.

(** C5. Progress.  In both revisions and in every run, each emitted
    progress value lies within [0, 100] and is 100 only together with stage
    [complete]; a tick of the simulated ramp never lowers the value and never
    takes it above 90.  The values emitted by one run that is neither
    cancelled nor overlapped by another start never decrease up to the reset
    to 0 of a failure, in the polling revision provided the polled statuses
    do not regress; for the statuses starting, processing, processing,
    succeeded they are 20, 25, 50, 50, 100. *)
Theorem progress_is_bounded_and_climbs (URL_parses : string → bool) :
  (∀ events w, Sync.run URL_parses Sync.initial events = Some w →
     Forall in_bounds (Sync.emitted w)) ∧
  (∀ events w, Polling.run Polling.initial events = Some w →
     Forall in_bounds (Polling.emitted w)) ∧
  (∀ prev sp, Sync.ramp prev = Some sp →
     (progress prev ≤ progress sp ≤ 90)%Z ∧ stage sp = stage prev) ∧
  (∀ e events w, SyncFacts.is_start e = true → SyncFacts.undisturbed events →
     Sync.run URL_parses Sync.initial (e :: events) = Some w →
     non_decreasing (climb (Sync.emitted w))) ∧
  (∀ e events w, PollingFacts.is_start e = true → PollingFacts.undisturbed events →
     PollingFacts.no_regress events →
     Polling.run Polling.initial (e :: events) = Some w →
     non_decreasing (climb (Polling.emitted w))) ∧
  (∃ w, Polling.run Polling.initial
          [Polling.call_separateFromUrl "https://cdn.example/song.mp3" None;
           Polling.submit_settled 0 (PollingFacts.submitted "p1");
           Polling.status_settled 0 (PollingFacts.status "starting" None);
           Polling.timer_fired 0;
           Polling.status_settled 0 (PollingFacts.status "processing" None);
           Polling.timer_fired 0;
           Polling.status_settled 0 (PollingFacts.status "processing" None);
           Polling.timer_fired 0;
           Polling.status_settled 0
             (PollingFacts.status "succeeded"
                (Some (JObject [("vocals", JStr "url1"); ("drums", JStr "url2")])))]
          = Some w ∧
        progress <$> Polling.emitted w = [20; 25; 50; 50; 100]%Z ∧
        stage <$> Polling.emitted w =
          [processing; processing; processing; processing; complete]).
Proof.
  split.
  { intros events w H.
    by destruct (SyncFacts.run_bounded URL_parses events _ w SyncFacts.initial_bounded H). }
  split.
  { intros events w H.
    by destruct (PollingFacts.polling_run_bounded events _ w PollingFacts.polling_initial_bounded H). }
  split; [apply ramp_below_100|].
  split.
  { intros e events w He Hu H. simpl in H.
    destruct (Sync.step URL_parses Sync.initial e) as [w1|] eqn:E; [|done]. simpl in H.
    pose proof (SyncFacts.start_climbing URL_parses e w1 He E) as Hc.
    by destruct (SyncFacts.run_climbing URL_parses events w1 w Hc Hu H) as (k & _ & Hs & _). }
  split.
  { intros e events w He Hu Hr H. simpl in H.
    destruct (Polling.step Polling.initial e) as [w1|] eqn:E; [|done]. simpl in H.
    destruct (PollingFacts.polling_start_climbing e w1 events He E) as [Hc Ha].
    by destruct (PollingFacts.polling_run_climbing events w1 w Hc Hu Hr Ha H) as (k & _ & Hs & _). }
  eexists. split; [vm_compute; reflexivity|]. done.
Qed.

Lemma progress_is_bounded_and_climbs_witness :
  ∃ w, Sync.run SyncFacts.begins_with_scheme Sync.initial
         [Sync.call_separateFromUrl "https://cdn.example/song.mp3" None;
          Sync.interval_tick 0; Sync.interval_tick 0;
          Sync.invoke_settled 0
            (SyncFacts.succeeded [("vocals", JStr "url1"); ("drums", JStr "url2")])]
         = Some w ∧
       progress <$> Sync.emitted w = [30; 35; 40; 100]%Z ∧
       non_decreasing (climb (Sync.emitted w)).
Proof.
  eexists. split; [vm_compute; reflexivity|]. split; [vm_compute; reflexivity|].
  refine (proj1 (proj2 (proj2 (proj2
    (progress_is_bounded_and_climbs SyncFacts.begins_with_scheme))))
    (Sync.call_separateFromUrl "https://cdn.example/song.mp3" None)
    [Sync.interval_tick 0; Sync.interval_tick 0;
     Sync.invoke_settled 0
       (SyncFacts.succeeded [("vocals", JStr "url1"); ("drums", JStr "url2")])]
    _ eq_refl _ _).
  - repeat constructor.
  - vm_compute. reflexivity.
Defined.

Lemma stems_are_normalized_witness :
  Sync.tasks SyncFacts.awaiting_service !! 0 =
    Some (Sync.AwaitInvoke "https://cdn.example/song.mp3" "htdemucs_ft") ∧
  ∃ w', Sync.step SyncFacts.begins_with_scheme SyncFacts.awaiting_service
          (Sync.invoke_settled 0
             (SyncFacts.succeeded [("vocals", JStr "url1"); ("drums", JStr EmptyString)]))
          = Some w' ∧
        Sync.stems (Sync.hook w') =
          [ {| id := "vocals"; label := Text "Vocals"; url := "url1" |} ].
Proof.
  split; [reflexivity|].
  destruct (proj1 (proj2 (proj2 (proj2 (proj2 (proj2 (proj2
              (stems_are_normalized SyncFacts.begins_with_scheme)))))))
              SyncFacts.awaiting_service 0 "https://cdn.example/song.mp3" "htdemucs_ft"
              [("vocals", JStr "url1"); ("drums", JStr EmptyString)] eq_refl eq_refl)
    as (w' & E & St & _).
  { vm_compute. discriminate. }
  exists w'. split; [exact E|]. rewrite St. vm_compute. reflexivity.
Defined.

End Orchestrator.

(** * The mix engine outside the admissible mutations, its effects and its
      transport *)
Module MixMore.
Import Mix MixFacts.

(** ** Vocabulary *)

(** A stem is silenced by the rule of [updateTrackVolumes]: some solo flag is
    set and its own is not, or no solo flag is set and it is muted. *)
Definition silenced (p : Player) (k : string) : bool :=
  if hasSolo p then negb (soloed p k) else muted p k.

(** The element of a track is a new one that nothing has touched but the
    gain. *)
Definition untouched (t : AudioTrack) : Prop :=
  audio_paused (audio t) = true ∧ audio_currentTime (audio t) = 0%Q ∧
  audio_duration (audio t) = None.


(** A session with files whose props keep their identity. *)
Definition desk : Player := settled (init_effect two_files (initial two_files)).

(** ** Tracks of a render *)

Lemma rerender_tracks_reduce o fresh m p :
  tracksRef (rerender o fresh (reduce m p)) = tracksRef (rerender o fresh p).
Proof.
  destruct fresh; [|by destruct m].
  destruct (reinit_cells o (reduce m p)) as (_ & _ & _ & _ & ->).
  destruct (reinit_cells o p) as (_ & _ & _ & _ & ->).
  by destruct m.
Qed.

Lemma rerender_track_of_props o fresh m p t :
  consistent o p → t ∈ tracksRef (rerender o fresh (reduce m p)) →
  id t ∈ stemIds o ∧ ∃ u, u ∈ tracksRef p ∧ id u = id t.
Proof.
  intros Hc Ht. rewrite rerender_tracks_reduce in Ht.
  pose proof (rerender_consistent o fresh p Hc) as Hr.
  assert (Hk : id t ∈ stemIds o).
  { apply (tracks_of_props o _ Hr). by apply in_ids. }
  split; [done|].
  apply (tracks_of_props o p Hc) in Hk.
  apply list_elem_of_fmap in Hk as (u & E & Hu). by exists u.
Qed.

Lemma track_of_stem o fresh m p k :
  consistent o p → k ∈ stemIds o →
  ∃ t, t ∈ tracksRef (rerender o fresh (reduce m p)) ∧ id t = k.
Proof.
  intros Hc Hk. rewrite rerender_tracks_reduce.
  pose proof (rerender_consistent o fresh p Hc) as Hr.
  apply (tracks_of_props o _ Hr) in Hk.
  apply list_elem_of_fmap in Hk as (t & E & Ht). by exists t.
Qed.

Lemma settled_tracks p t :
  t ∈ tracksRef (settled p) →
  ∃ u, u ∈ tracksRef p ∧ id t = id u ∧ audio_volume (audio t) = gain p u.
Proof.
  intros Ht. apply list_elem_of_fmap in Ht as (u & -> & Hu). by exists u.
Qed.

Lemma hasSolo_false p : hasSolo p = false ↔ ∀ k, soloStems p !! k ≠ Some true.
Proof.
  split.
  - intros H k Hk. assert (hasSolo p = true) by (apply hasSolo_true; eauto). congruence.
  - intros H. apply not_true_is_false. intros Ht.
    apply hasSolo_true in Ht as [k Hk]. by apply (H k).
Qed.

Lemma own_volume p t v :
  volumes p !! id t = Some v → js_get (volumes p) (id t) = Own v.
Proof. intros E. unfold js_get. by rewrite E. Qed.

(** ** A solo flag without a track *)

(** X1. [toggleSolo] takes any string.  In a consistent mixer in which no
    track is soloed, toggling the solo flag of an id that is not a stem (and
    whose flag reads false) succeeds, keeps the tracks, and leaves every
    track at gain 0: the flag counts for [hasSolo] although no track carries
    it.  Toggling the same id again gives every track its mute-derived gain
    back. *)
Theorem solo_of_unknown_stem_silences_all (o : Options) (fresh_props : bool)
    (p : Player) (k : string) :
  consistent o p → anySoloed p = false → k ∉ stemIds o → soloed p k = false →
  ∃ p1 p2,
    mutate o fresh_props (ToggleSolo k) p = Some p1 ∧
    (∀ j, j ∈ ids p1 ↔ j ∈ stemIds o) ∧
    (∀ t, t ∈ tracksRef p1 → audio_volume (audio t) = 0%Q) ∧
    mutate o fresh_props (ToggleSolo k) p1 = Some p2 ∧
    (∀ j, j ∈ ids p2 ↔ j ∈ stemIds o) ∧
    (∀ t v, t ∈ tracksRef p2 → volumes p !! id t = Some v →
       audio_volume (audio t) = if muted p (id t) then 0%Q else (v / 100)%Q).
Proof.
  intros Hc Hnone Hk Hsk.
  assert (Hno : hasSolo p = false) by (by rewrite (hasSolo_anySoloed o p Hc)).
  (* first toggle *)
  set (q1 := rerender o fresh_props (reduce (ToggleSolo k) p)).
  destruct (rerender_records o fresh_props (reduce (ToggleSolo k) p)) as (Ev1 & Em1 & Es1).
  fold q1 in Ev1, Em1, Es1. simpl in Ev1, Em1, Es1.
  fold (soloed p k) in Es1. rewrite Hsk in Es1. simpl in Es1.
  assert (Hs1 : hasSolo q1 = true).
  { apply hasSolo_true. exists k. rewrite Es1. apply lookup_insert_eq. }
  assert (G1 : ∀ t, t ∈ tracksRef q1 → effectiveVolume q1 t = Some 0%Q).
  { intros t Ht. destruct (rerender_track_of_props o fresh_props _ p t Hc Ht)
      as (Hin & u & Hu & Eu).
    unfold effectiveVolume. rewrite Hs1, Es1, soloed_insert.
    rewrite bool_decide_eq_false_2 by (intros ->; done).
    rewrite <- Eu. by rewrite (not_anySoloed p u Hnone Hu). }
  assert (U1 : updateTrackVolumes q1 = Some (settled q1)).
  { apply updateTrackVolumes_total. intros t Ht. exists 0%Q.
    split; [by apply G1|]. split; [apply Qle_refl|done]. }
  assert (I1 : ∀ j, j ∈ ids (settled q1) ↔ j ∈ stemIds o).
  { intros j. rewrite ids_settled. unfold q1, ids. rewrite rerender_tracks_reduce.
    apply (tracks_of_props o _ (rerender_consistent o fresh_props p Hc)). }
  (* second toggle *)
  set (p1 := settled q1).
  set (q2 := rerender o fresh_props (reduce (ToggleSolo k) p1)).
  destruct (rerender_records o fresh_props (reduce (ToggleSolo k) p1)) as (Ev2 & Em2 & Es2).
  fold q2 in Ev2, Em2, Es2. simpl in Ev2, Em2, Es2.
  rewrite Ev1 in Ev2. rewrite Em1 in Em2. rewrite Es1 in Es2.
  assert (Hk1 : truthy_flag (js_get (<[k := true]> (soloStems p)) k) = true).
  { unfold js_get. by rewrite lookup_insert_eq. }
  rewrite Hk1 in Es2. simpl in Es2. rewrite insert_insert_eq in Es2.
  assert (Hs2 : hasSolo q2 = false).
  { apply hasSolo_false. intros j Hj. rewrite Es2 in Hj.
    destruct (decide (k = j)) as [->|Hne].
    - by rewrite lookup_insert_eq in Hj.
    - rewrite lookup_insert_ne in Hj by done.
      by apply (proj1 (hasSolo_false p) Hno j). }
  assert (T2 : ∀ t, t ∈ tracksRef q2 → id t ∈ stemIds o).
  { intros t Ht. apply I1. unfold q2 in Ht. rewrite rerender_tracks_reduce in Ht.
    destruct fresh_props; simpl in Ht.
    - destruct (reinit_cells o p1) as (_ & _ & _ & _ & E). simpl in E.
      unfold rerender in Ht. rewrite E in Ht.
      apply (list_elem_of_fmap_2 id) in Ht. apply add_tracks_ids in Ht as [Ht|Ht].
      + by apply elem_of_nil in Ht.
      + by apply I1.
    - by apply in_ids. }
  assert (G2 : ∀ t, t ∈ tracksRef q2 → ∃ v, volumes p !! id t = Some v ∧
             effectiveVolume q2 t = Some (if muted p (id t) then 0 else v / 100)%Q).
  { intros t Ht. destruct (volume_keyed o p Hc (id t) (T2 t Ht)) as [v Hv].
    exists v. split; [done|].
    unfold effectiveVolume. rewrite Hs2, Em2, Ev2, (own_volume p t v Hv).
    fold (muted p (id t)). by destruct (muted p (id t)). }
  assert (U2 : updateTrackVolumes q2 = Some (settled q2)).
  { apply updateTrackVolumes_total. intros t Ht.
    destruct (G2 t Ht) as (v & Hv & E). eexists. split; [exact E|].
    destruct (muted p (id t)).
    - split; [apply Qle_refl|done].
    - apply centi_in_range. by apply (volumes_in_range o p Hc (id t)). }
  exists p1, (settled q2). split; [exact U1|]. split; [exact I1|]. split.
  { intros t Ht. apply settled_tracks in Ht as (u & Hu & _ & ->).
    unfold gain. by rewrite (G1 u Hu). }
  split; [exact U2|]. split.
  { intros j. rewrite ids_settled. split.
    - intros Hj. apply list_elem_of_fmap in Hj as (t & -> & Ht). by apply T2.
    - intros Hj. unfold q2, ids. rewrite rerender_tracks_reduce.
      destruct fresh_props; simpl.
      + destruct (reinit_cells o p1) as (_ & _ & _ & _ & E). simpl in E.
        unfold rerender. rewrite E. apply add_tracks_ids. by right.
      + by apply I1. }
  intros t v Ht Hv. apply settled_tracks in Ht as (u & Hu & Eid & ->).
  destruct (G2 u Hu) as (v' & Hv' & E). unfold gain. rewrite E. simpl.
  rewrite Eid in Hv. rewrite Hv in Hv'. injection Hv' as <-. by rewrite Eid.
Qed.

Lemma solo_of_unknown_stem_silences_all_witness :
  ∃ p1, mutate four_stems false (ToggleSolo "choir") studio = Some p1 ∧
    ∀ t, t ∈ tracksRef p1 → audio_volume (audio t) = 0%Q.
Proof.
  assert (Hc : consistent four_stems studio) by apply mount_consistent.
  assert (H1 : anySoloed studio = false) by (vm_compute; reflexivity).
  assert (H2 : "choir" ∉ stemIds four_stems).
  { intros H. simpl in H. repeat (apply elem_of_cons in H as [H|H]; [done|]).
    by apply elem_of_nil in H. }
  assert (H3 : soloed studio "choir" = false) by (vm_compute; reflexivity).
  destruct (solo_of_unknown_stem_silences_all four_stems false studio "choir" Hc H1 H2 H3)
    as (p1 & p2 & E1 & _ & Z1 & _).
  exists p1. split; [exact E1|exact Z1].
Defined.

(** ** A volume outside the range of the slider *)

Lemma rerender_ids o fresh p :
  (∀ j, j ∈ ids p ↔ j ∈ stemIds o) →
  ∀ j, j ∈ ids (rerender o fresh p) ↔ j ∈ stemIds o.
Proof.
  intros H j. destruct fresh; [|apply H].
  pose proof (reinit_cells o p) as R. cbv zeta in R. destruct R as (_ & _ & _ & _ & E).
  unfold ids. rewrite E, add_tracks_ids. split; [|tauto].
  intros [Hj|Hj]; [by apply elem_of_nil in Hj|done].
Qed.

Lemma write_volume_out_of_range x a :
  ¬ (0 <= x <= 1)%Q → write_volume (Some x) a = None.
Proof.
  intros H. unfold write_volume.
  destruct (Qle_bool 0 x) eqn:E1; [|done].
  destruct (Qle_bool x 1) eqn:E2; [|done].
  exfalso. apply H. split; by apply Qle_bool_iff.
Qed.

Lemma updateTrackVolumes_throws p t x :
  t ∈ tracksRef p → effectiveVolume p t = Some x → ¬ (0 <= x <= 1)%Q →
  updateTrackVolumes p = None.
Proof.
  intros Ht E Hx. unfold updateTrackVolumes.
  assert (M : mapM (λ t, a ← write_volume (effectiveVolume p t) (audio t);
                         Some (with_audio a t)) (tracksRef p) = None).
  { apply mapM_None. apply Exists_exists. exists t. split; [done|].
    by rewrite E, write_volume_out_of_range. }
  by rewrite M.
Qed.

Lemma centi_out_of_range v : ¬ (0 <= v <= 100)%Q → ¬ (0 <= v / 100 <= 1)%Q.
Proof.
  intros H [H0 H1]. apply H.
  assert (E : (v == v / 100 * 100)%Q) by (field; discriminate).
  set (x := (v / 100)%Q) in *. split.
  - rewrite E. lra.
  - rewrite E. lra.
Qed.

Lemma hasSolo_ext p q : soloStems q = soloStems p → hasSolo q = hasSolo p.
Proof. intros E. unfold hasSolo. by rewrite E. Qed.

Lemma effectiveVolume_silenced p t :
  effectiveVolume p t =
    if silenced p (id t) then Some 0%Q
    else match js_get (volumes p) (id t) with
         | Own v => Some (v / 100)%Q
         | Missing => Some (80 / 100)%Q
         | Inherited => None
         end.
Proof.
  unfold effectiveVolume, silenced, soloed, muted.
  destruct (hasSolo p); [by destruct (truthy_flag (js_get (soloStems p) (id t)))|].
  by destruct (truthy_flag (js_get (mutedStems p) (id t))).
Qed.

Lemma silenced_ext p q k :
  mutedStems q = mutedStems p → soloStems q = soloStems p →
  silenced q k = silenced p k.
Proof.
  intros Em Es. unfold silenced, soloed, muted. by rewrite (hasSolo_ext p q Es), Em, Es.
Qed.

(** X2. [setVolume] stores any number; the effect that follows writes
    [volume / 100] to the element, whose setter throws outside [0, 1].  So a
    volume outside [0, 100] for a stem of a consistent mixer makes the
    effect throw when the stem is audible.  When the stem is silenced by a
    mute or a solo the value is stored, the gain is 0, and the effect throws
    at the toggle that makes the stem audible again. *)
Theorem out_of_range_volume_throws (o : Options) (fresh_props : bool)
    (p : Player) (k : string) (v : Q) :
  consistent o p → k ∈ stemIds o → ¬ (0 <= v <= 100)%Q →
  (silenced p k = false → mutate o fresh_props (SetVolume k v) p = None) ∧
  (silenced p k = true →
     ∃ p', mutate o fresh_props (SetVolume k v) p = Some p' ∧
       volumes p' !! k = Some v ∧
       (∀ t, t ∈ tracksRef p' → id t = k → audio_volume (audio t) = 0%Q) ∧
       mutate o fresh_props (if hasSolo p then ToggleSolo k else ToggleMute k) p'
         = None).
Proof.
  intros Hc Hk Hv.
  set (q := rerender o fresh_props (reduce (SetVolume k v) p)).
  destruct (rerender_records o fresh_props (reduce (SetVolume k v) p)) as (Ev & Em & Es).
  fold q in Ev, Em, Es. simpl in Ev, Em, Es.
  assert (Hs : silenced q k = silenced p k) by (by apply silenced_ext).
  assert (Own_k_lookup : volumes q !! k = Some v) by (by rewrite Ev, lookup_insert_eq).
  assert (Own_k : js_get (volumes q) k = Own v).
  { unfold js_get. by rewrite Own_k_lookup. }
  split.
  - intros Hsil. destruct (track_of_stem o fresh_props (SetVolume k v) p k Hc Hk)
      as (t & Ht & Eid).
    apply (updateTrackVolumes_throws q t (v / 100)%Q Ht); [|by apply centi_out_of_range].
    rewrite effectiveVolume_silenced, Eid, Hs, Hsil. by rewrite Own_k.
  - intros Hsil.
    assert (G : ∀ t, t ∈ tracksRef q →
              ∃ x, effectiveVolume q t = Some x ∧ (0 <= x <= 1)%Q ∧ (id t = k → x = 0%Q)).
    { intros t Ht. destruct (decide (id t = k)) as [Eid|Hne].
      - exists 0%Q. rewrite effectiveVolume_silenced, Eid, Hs, Hsil.
        split; [done|]. split; [|done]. split; [apply Qle_refl|done].
      - destruct (rerender_track_of_props o fresh_props _ p t Hc Ht) as (Hin & u & Hu & Eu).
        destruct (effectiveVolume_in_range o p u Hc Hu) as (x & Ex & Hx).
        exists x. split; [|split; [done|by intros ?]].
        rewrite <- Ex. unfold effectiveVolume.
        rewrite (hasSolo_ext p q Es), Es, Em, Eu.
        assert (Ej : js_get (volumes q) (id t) = js_get (volumes p) (id t)).
        { unfold js_get. rewrite Ev, lookup_insert_ne; [done|]. by intros ->. }
        by rewrite Ej. }
    assert (U : updateTrackVolumes q = Some (settled q)).
    { apply updateTrackVolumes_total. intros t Ht.
      destruct (G t Ht) as (x & Ex & Hx & _). by exists x. }
    exists (settled q). split; [exact U|]. split; [by rewrite <- Own_k_lookup|]. split.
    + intros t Ht Eid. apply settled_tracks in Ht as (u & Hu & Eu & ->).
      destruct (G u Hu) as (x & Ex & _ & Hz). unfold gain. rewrite Ex. simpl.
      apply Hz. by rewrite <- Eu.
    + set (m := if hasSolo p then ToggleSolo k else ToggleMute k).
      set (q' := rerender o fresh_props (reduce m (settled q))).
      destruct (rerender_records o fresh_props (reduce m (settled q))) as (Ev' & Em' & Es').
      fold q' in Ev', Em', Es'.
      assert (Hids : ∀ j, j ∈ ids q' ↔ j ∈ stemIds o).
      { apply rerender_ids. intros j.
        assert (E : ids (reduce m (settled q)) = ids q).
        { transitivity (ids (settled q)); [unfold m; by destruct (hasSolo p)|apply ids_settled]. }
        rewrite E. unfold q, ids. rewrite rerender_tracks_reduce.
        apply (tracks_of_props o _ (rerender_consistent o fresh_props p Hc)). }
      apply Hids in Hk. apply list_elem_of_fmap in Hk as (t & Eid & Ht).
      apply (updateTrackVolumes_throws q' t (v / 100)%Q Ht); [|by apply centi_out_of_range].
      rewrite effectiveVolume_silenced, <- Eid.
      assert (Ok : js_get (volumes q') k = Own v).
      { unfold js_get. rewrite Ev'. unfold m. by destruct (hasSolo p); simpl; rewrite Own_k_lookup. }
      rewrite Ok.
      assert (Hs' : silenced q' k = false).
      { unfold silenced in Hsil |- *. unfold soloed, muted in *. unfold m in Es', Em'.
        destruct (hasSolo p) eqn:Hp; simpl in Es', Em'.
        - rewrite Es in Es'. apply negb_true_iff in Hsil. rewrite Hsil in Es'. simpl in Es'.
          assert (H1 : hasSolo q' = true).
          { apply hasSolo_true. exists k. rewrite Es'. apply lookup_insert_eq. }
          rewrite H1, Es'. unfold js_get. by rewrite lookup_insert_eq.
        - rewrite Em in Em'. rewrite Hsil in Em'. simpl in Em'.
          rewrite (hasSolo_ext p q') by (by rewrite Es', Es).
          rewrite Hp, Em'. unfold js_get. by rewrite lookup_insert_eq. }
      by rewrite Hs'.
Qed.

Lemma out_of_range_volume_throws_witness :
  mutate four_stems false (SetVolume "drums" 150) studio = None.
Proof.
  assert (Hc : consistent four_stems studio) by apply mount_consistent.
  assert (Hk : "drums" ∈ stemIds four_stems) by (simpl; set_solver).
  assert (Hv : ¬ (0 <= 150 <= 100)%Q) by (intros [_ H]; by apply Qle_bool_iff in H).
  apply (out_of_range_volume_throws four_stems false studio "drums" 150 Hc Hk Hv).
  vm_compute. reflexivity.
Defined.

(** ** The initialisation effect *)

Lemma add_tracks_fold o seen (l : list string) : ∀ ts,
  NoDup (id <$> ts) →
  let ts' := foldl (λ acc k, if has acc k then acc
                             else (acc ++ [create_track o seen k])%list) ts l in
  NoDup (id <$> ts') ∧
  (∀ t, t ∈ ts' → t ∈ ts ∨ t = create_track o seen (id t)) ∧
  (∀ k, k ∈ l → k ∈ id <$> ts') ∧
  (NoDup l → (∀ k, k ∈ l → k ∉ id <$> ts) → id <$> ts' = ((id <$> ts) ++ l)%list).
Proof.
  induction l as [|k l IH]; intros ts Hnd; cbv zeta; simpl.
  - split; [done|]. split; [by left|]. split.
    + intros k Hk. by apply elem_of_nil in Hk.
    + intros _ _. by rewrite app_nil_r.
  - destruct (has ts k) eqn:Hk; unfold has in Hk;
      [apply bool_decide_eq_true in Hk|apply bool_decide_eq_false in Hk].
    + destruct (IH ts Hnd) as (N & C & M & O). split; [done|]. split; [done|]. split.
      * intros j Hj. apply elem_of_cons in Hj as [->|Hj]; [|by apply M].
        clear -Hk. revert ts Hk. induction l as [|k' l IHl]; intros ts Hk; simpl; [done|].
        apply IHl. unfold has. case_bool_decide; [done|].
        rewrite fmap_app. apply elem_of_app. by left.
      * intros Hn Hf. exfalso. apply (Hf k); [by left|done].
    + assert (Hnd' : NoDup (id <$> (ts ++ [create_track o seen k])%list)).
      { rewrite fmap_app. apply NoDup_app. split; [done|]. split.
        - intros x Hx Hx'. simpl in Hx'. apply list_elem_of_singleton in Hx'. by subst.
        - simpl. apply NoDup_singleton. }
      destruct (IH _ Hnd') as (N & C & M & O). split; [done|]. split.
      * intros t Ht. destruct (C t Ht) as [Hin| ->]; [|by right].
        apply elem_of_app in Hin as [Hin|Hin]; [by left|].
        apply list_elem_of_singleton in Hin. subst. by right.
      * split.
        -- intros j Hj. apply elem_of_cons in Hj as [->|Hj]; [|by apply M].
           assert (H0 : k ∈ id <$> (ts ++ [create_track o seen k])%list).
           { rewrite fmap_app. apply elem_of_app. right. simpl. by left. }
           clear -H0. revert H0. generalize (ts ++ [create_track o seen k])%list.
           induction l as [|k' l IHl]; intros acc Hk; simpl; [done|].
           apply IHl. unfold has. case_bool_decide; [done|].
           rewrite fmap_app. apply elem_of_app. by left.
        -- intros Hn Hf. apply NoDup_cons in Hn as [Hkl Hn].
           rewrite O; [|done|].
           ++ rewrite fmap_app. simpl. by rewrite <- app_assoc.
           ++ intros j Hj Hin. rewrite fmap_app in Hin. apply elem_of_app in Hin as [Hin|Hin].
              ** apply (Hf j); [by right|done].
              ** simpl in Hin. apply list_elem_of_singleton in Hin. by subst.
Qed.

Lemma add_tracks_present o seen (l : list string) : ∀ ts,
  (∀ k, k ∈ l → k ∈ id <$> ts) →
  foldl (λ acc k, if has acc k then acc
                  else (acc ++ [create_track o seen k])%list) ts l = ts.
Proof.
  induction l as [|k l IH]; intros ts H; simpl; [done|].
  assert (Hk : has ts k = true) by (apply bool_decide_eq_true, H; by left).
  rewrite Hk. apply IH. intros j Hj. apply H. by right.
Qed.

(** X3. The initialisation effect creates one track per distinct stem id:
    whatever [stemIds] lists (also an id twice), the tracks of the first
    render have pairwise different ids, which are exactly the ids listed, in
    the order of [stemIds] when that has no repetition; every track is as
    [create_track] makes it (a new paused element at volume 1 whose source
    is the URL of its id, if any); and running the effect once more without
    its cleanup adds or changes no track. *)
Theorem init_effect_one_track_per_stem (o : Options) :
  let p := init_effect o (initial o) in
  NoDup (ids p) ∧ (∀ k, k ∈ ids p ↔ k ∈ stemIds o) ∧
  (NoDup (stemIds o) → ids p = stemIds o) ∧
  (∀ t, t ∈ tracksRef p → t = create_track o 0 (id t)) ∧
  tracksRef (init_effect o p) = tracksRef p.
Proof.
  assert (E : ∀ q, tracksRef (init_effect o q) = add_tracks o (duration q) (tracksRef q)).
  { intros q. unfold init_effect. by destruct (demo_mode o). }
  cbv zeta. unfold ids. rewrite !E. simpl.
  destruct (add_tracks_fold o 0%Q (stemIds o) [] (NoDup_nil_2 : NoDup (id <$> []))) as (N & C & M & O).
  fold (add_tracks o 0%Q []) in N, C, M, O.
  split; [exact N|]. split.
  { intros k. rewrite add_tracks_ids. split; [|tauto].
    intros [H|H]; [by apply elem_of_nil in H|done]. }
  split.
  { intros Hn. apply O; [done|]. intros k _ Hk. by apply elem_of_nil in Hk. }
  split.
  { intros t Ht. destruct (C t Ht) as [H|H]; [by apply elem_of_nil in H|done]. }
  unfold add_tracks at 1. apply add_tracks_present. exact M.
Qed.

Lemma init_effect_one_track_per_stem_witness :
  ids (init_effect two_files (initial two_files)) = ["vocals"; "drums"].
Proof.
  apply (init_effect_one_track_per_stem two_files).
  simpl. apply NoDup_cons. split; [|apply NoDup_singleton].
  intros H. by apply list_elem_of_singleton in H.
Defined.

(** ** Props that change identity in every render *)

Lemma write_volume_keeps x a a' :
  write_volume x a = Some a' →
  audio_paused a' = audio_paused a ∧ audio_currentTime a' = audio_currentTime a ∧
  audio_duration a' = audio_duration a ∧ audio_src a' = audio_src a.
Proof.
  unfold write_volume. destruct x as [q|]; [|done].
  destruct (Qle_bool 0 q && Qle_bool q 1); [|done]. by intros [= <-].
Qed.

Lemma updateTrackVolumes_keeps (P : AudioTrack → Prop) p p' :
  (∀ t a, P t → audio_paused a = audio_paused (audio t) →
          audio_currentTime a = audio_currentTime (audio t) →
          audio_duration a = audio_duration (audio t) → P (with_audio a t)) →
  updateTrackVolumes p = Some p' → Forall P (tracksRef p) → Forall P (tracksRef p').
Proof.
  intros HP H Hall. unfold updateTrackVolumes in H.
  destruct (mapM _ (tracksRef p)) as [ts|] eqn:M; [|done]. injection H as <-. simpl.
  apply mapM_Some in M. clear -HP M Hall.
  induction M as [|t t' l l' Ht M IH]; [done|].
  apply Forall_cons in Hall as [H1 H2]. constructor; [|by apply IH].
  destruct (write_volume _ (audio t)) as [a|] eqn:W; [|done]. injection Ht as <-.
  apply write_volume_keeps in W as (? & ? & ? & _). by apply HP.
Qed.

Lemma updateTrackVolumes_cells p p' :
  updateTrackVolumes p = Some p' →
  isPlaying p' = isPlaying p ∧ currentTime p' = currentTime p ∧
  animationRef p' = animationRef p ∧ duration p' = duration p.
Proof.
  unfold updateTrackVolumes. destruct (mapM _ (tracksRef p)); [|done]. by intros [= <-].
Qed.

(** X4. When the caller passes a new [stemIds] or [audioUrls] object in a
    render (as a caller that builds the array inline does in every render),
    the commit cleans the initialisation effect up and runs it again: it
    keeps [isPlaying] and [currentTime], leaves no frame callback scheduled,
    and every track is a new element, paused, at position 0 and without
    metadata.  When the commit does not change the mix, the gain effect does
    not run, and every new element is at volume 1 whatever the mute and solo
    flags.  In particular the commit that follows [play] leaves [isPlaying]
    true with every element paused. *)
Theorem fresh_props_commit_renews_tracks (o : Options) (mix_changed : bool)
    (p p' : Player) :
  commit o true mix_changed p = Some p' →
  isPlaying p' = isPlaying p ∧ currentTime p' = currentTime p ∧
  animationRef p' = false ∧
  Forall untouched (tracksRef p') ∧
  (mix_changed = false →
   Forall (λ t, audio_volume (audio t) = 1%Q) (tracksRef p')) ∧
  (∀ p0, play o p0 = Some p → isPlaying p' = true).
Proof.
  intros H. unfold commit in H.
  pose proof (reinit_cells o p) as R. cbv zeta in R. destruct R as (Ep & Ec & _ & _ & Et).
  assert (Ea : animationRef (rerender o true p) = false).
  { unfold rerender, init_effect. by destruct (demo_mode o). }
  assert (Hnew : ∀ t, t ∈ tracksRef (rerender o true p) →
                      t = create_track o (duration p) (id t)).
  { intros t Ht. rewrite Et in Ht.
    destruct (add_tracks_fold o (duration p) (stemIds o) [] (NoDup_nil_2 : NoDup (id <$> []))) as (_ & C & _).
    destruct (C t Ht) as [Hin|Hin]; [by apply elem_of_nil in Hin|done]. }
  assert (Hu : Forall untouched (tracksRef (rerender o true p))).
  { apply Forall_forall. intros t Ht. rewrite (Hnew t Ht).
    unfold untouched, create_track. simpl.
    by destruct (js_get (audioUrls o) (id t)) as [u| |]; [case_bool_decide| |]. }
  assert (Hv : Forall (λ t, audio_volume (audio t) = 1%Q) (tracksRef (rerender o true p))).
  { apply Forall_forall. intros t Ht. rewrite (Hnew t Ht).
    unfold create_track. simpl.
    by destruct (js_get (audioUrls o) (id t)) as [u| |]; [case_bool_decide| |]. }
  assert (Hplay : ∀ q p0, isPlaying q = isPlaying p → play o p0 = Some p → isPlaying q = true).
  { intros q p0 -> Hp. unfold play in Hp.
    destruct (updateTrackVolumes p0); [|done]. by injection Hp as <-. }
  destruct mix_changed.
  - destruct (updateTrackVolumes_cells _ _ H) as (E1 & E2 & E3 & _).
    split; [congruence|]. split; [congruence|]. split; [congruence|]. split.
    { apply (updateTrackVolumes_keeps untouched _ _) with (2 := H); [|done].
      intros t a (U1 & U2 & U3) A1 A2 A3. unfold untouched. simpl. by rewrite A1, A2, A3. }
    split; [done|]. intros p0. apply Hplay. congruence.
  - injection H as <-. split; [done|]. split; [done|]. split; [done|].
    split; [done|]. split; [done|]. intros p0. by apply Hplay.
Qed.

Lemma fresh_props_commit_renews_tracks_witness :
  ∃ p p', play two_files desk = Some p ∧ commit two_files true false p = Some p' ∧
    isPlaying p' = true ∧ Forall untouched (tracksRef p').
Proof.
  eexists _, _. split; [vm_compute; reflexivity|].
  split; [reflexivity|].
  assert (H := fresh_props_commit_renews_tracks two_files false _ _
                 (eq_refl : commit two_files true false
                              (default desk (play two_files desk)) = Some _)).
  destruct H as (_ & _ & _ & Hu & _ & Hp). split; [|exact Hu].
  apply (Hp desk). vm_compute. reflexivity.
Defined.

(** ** The transport *)






(** ** The edit page *)




End MixMore.

(** * More on the synchronous orchestrator *)
Module SyncMore.
Import Stems Sync Runs SyncFacts.
#[local] Open Scope list_scope.
#[local] Open Scope nat_scope.

(** ** Vocabulary *)

(** The error banner of the component is rendered when [error] is truthy,
    its error icon when the stage is [error]: the icon never comes without
    the banner. *)
Definition banner_agrees (w : World) : Prop :=
  error_state (hook w) ≠ Some EmptyString ∧
  (stage (progress_state (hook w)) = error → is_Some (error_state (hook w))).

(** The banner shows the message of the progress record. *)
Definition banner_is_message (w : World) : Prop :=
  stage (progress_state (hook w)) = error →
  error_state (hook w) = Some (message (progress_state (hook w))) ∧
  progress (progress_state (hook w)) = 0%Z ∧
  isProcessing (hook w) = false.

(** The caller gave [u] to [separateFromUrl]. *)
Definition asked_for (events : list Event) (u : string) : Prop :=
  ∃ m, call_separateFromUrl u m ∈ events.

(** ** Messages *)

Lemma append_nonempty (s t : string) : s ≠ EmptyString → (s ++ t)%string ≠ EmptyString.
Proof. by destruct s. Qed.

Lemma errorTypeMap_nonempty k m : errorTypeMap !! k = Some m → m ≠ EmptyString.
Proof.
  intros E ->. apply elem_of_list_to_map_2 in E.
  repeat (apply elem_of_cons in E as [E|E]; [discriminate|]).
  by apply elem_of_nil in E.
Qed.

Lemma object_prototype_text_nonempty k : object_prototype_text k ≠ EmptyString.
Proof. unfold object_prototype_text. by repeat case_bool_decide. Qed.

Lemma getErrorMessage_nonempty errorType originalError :
  to_text (getErrorMessage errorType originalError) ≠ EmptyString.
Proof.
  unfold getErrorMessage, js_get.
  destruct (errorTypeMap !! default "undefined" errorType) as [m|] eqn:E; simpl.
  - by apply (errorTypeMap_nonempty _ m E).
  - case_bool_decide; simpl; [apply object_prototype_text_nonempty|].
    by case_bool_decide.
Qed.

Lemma outcome_message c r f :
  processSeparation_result c r = inl f → failure_message f ≠ EmptyString.
Proof.
  unfold processSeparation_result. destruct c; [by intros [= <-]|].
  destruct (invokeError r) as [m|]; [by intros [= <-]|].
  destruct (truthy_text _).
  { intros [= <-]. simpl. apply append_nonempty, getErrorMessage_nonempty. }
  destruct (negb _); [by intros [= <-]|].
  destruct (data r ≫= data_output) as [[| | | |entries]|]; try (by intros [= <-]).
  case_bool_decide; [by intros [= <-]|done].
Qed.

(** ** The banner and the stage *)

Lemma reject_banner t f w :
  failure_message f ≠ EmptyString → banner_agrees w → banner_agrees (reject t f w).
Proof.
  intros Hf [H1 H2]. unfold reject, banner_agrees. case_bool_decide; simpl.
  - split; [congruence|]. by intros _.
  - by split.
Qed.

Lemma step_banner URL_parses w e w' :
  banner_agrees w → step URL_parses w e = Some w' → banner_agrees w'.
Proof.
  intros Hb H. pose proof Hb as [H1 H2].
  destruct e; simpl in H.
  - injection H as <-. by split.
  - injection H as <-. by split.
  - injection H as <-. unfold cancel.
    destruct (abortControllerRef (hook (set_cancelledRef true w))); by split.
  - destruct (tasks w !! t) as [[]|]; try done.
    destruct uploadError; injection H as <-; [|done].
    by apply reject_banner.
  - destruct (tasks w !! t) as [[]|]; try done.
    destruct urlError as [m|].
    { injection H as <-. by apply reject_banner. }
    destruct signedUrl as [u|]; [|injection H as <-; by apply reject_banner].
    destruct (isValidUrl URL_parses u); injection H as <-.
    + by split.
    + by apply reject_banner.
  - destruct (tasks w !! t) as [[]|]; try done.
    destruct (processSeparation_result _ r) as [f|results] eqn:E; injection H as <-.
    + apply reject_banner; [by apply (outcome_message _ _ _ E)|done].
    + by split.
  - destruct (tasks w !! t) as [[]|]; try done.
    unfold ramp in H. case_bool_decide; injection H as <-; [|done].
    by split.
Qed.

Lemma pending_outstanding w t k :
  tasks w !! t = Some k → pending k = true → 1 ≤ outstanding w.
Proof.
  intros Ht Hk. unfold outstanding.
  assert (Hin : k ∈ filter (λ k, pending k = true) (tasks w)).
  { apply list_elem_of_filter. split; [done|]. by apply list_elem_of_lookup_2 in Ht. }
  destruct (filter _ (tasks w)); [by apply elem_of_nil in Hin|simpl; lia].
Qed.

Lemma gated_busy w t k :
  gated w → tasks w !! t = Some k → pending k = true →
  isProcessing (hook w) = true.
Proof.
  intros [_ H0] Ht Hk. pose proof (pending_outstanding w t k Ht Hk).
  destruct (isProcessing (hook w)); [done|]. specialize (H0 eq_refl). lia.
Qed.

Lemma reject_message t f w :
  gated w → (∃ k, tasks w !! t = Some k ∧ pending k = true) →
  banner_is_message w → banner_is_message (reject t f w).
Proof.
  intros Hg (k & Ht & Hk) Hm. unfold reject, banner_is_message. case_bool_decide; simpl.
  - by intros _.
  - intros Hs. destruct (Hm Hs) as (_ & _ & Hi).
    rewrite (gated_busy w t k Hg Ht Hk) in Hi. done.
Qed.

Lemma step_message URL_parses w e w' :
  gated w → banner_is_message w → offered w e = true →
  step URL_parses w e = Some w' → banner_is_message w'.
Proof.
  intros Hg Hm Ho H.
  assert (Busy : ∀ t k, tasks w !! t = Some k → pending k = true →
                        stage (progress_state (hook w)) ≠ error).
  { intros t k Ht Hk Hs. destruct (Hm Hs) as (_ & _ & Hi).
    rewrite (gated_busy w t k Hg Ht Hk) in Hi. done. }
  destruct e; simpl in H; try done.
  - by injection H as <-.
  - by injection H as <-.
  - destruct (tasks w !! t) as [[]|] eqn:Ht; try done.
    destruct uploadError; injection H as <-.
    + apply reject_message; eauto.
    + intros Hs. by apply (Busy t _ Ht) in Hs.
  - destruct (tasks w !! t) as [[]|] eqn:Ht; try done.
    destruct urlError as [m|].
    { injection H as <-. apply reject_message; eauto. }
    destruct signedUrl as [u|]; [|injection H as <-; apply reject_message; eauto].
    destruct (isValidUrl URL_parses u); injection H as <-.
    + by intros Hs.
    + apply reject_message; eauto.
  - destruct (tasks w !! t) as [[]|] eqn:Ht; try done.
    destruct (processSeparation_result _ r) as [f|results] eqn:E; injection H as <-.
    + apply reject_message; [done| |].
      * exists (AwaitInvoke audioUrl modelName). split; [exact Ht|done].
      * intros Hs. by apply (Busy t _ Ht) in Hs.
    + by intros Hs.
  - destruct (tasks w !! t) as [[]|] eqn:Ht; try done.
    unfold ramp in H. case_bool_decide; injection H as <-; [|done].
    intros Hs. simpl in Hs. by apply (Busy t _ Ht) in Hs.
Qed.

Lemma gated_run_message URL_parses events : ∀ w w',
  gated w → banner_is_message w → gated_run URL_parses w events = Some w' →
  banner_is_message w'.
Proof.
  induction events as [|e events IH]; intros w w' Hg Hm H; simpl in H.
  - by injection H as <-.
  - destruct (offered w e) eqn:Ho; [|done].
    destruct (step URL_parses w e) as [w1|] eqn:E; [|done]. simpl in H.
    apply (IH w1 w'); [by apply (step_gated URL_parses w e)| |done].
    by apply (step_message URL_parses w e).
Qed.

(** X7. The error icon never comes without the error banner.  In every run
    of the hook, overlapping starts and cancels included, the error is never
    the empty string (the banner is rendered by its truthiness), and
    whenever the stage is [error] an error is set.  In a run in which the
    caller starts only while [isProcessing] is false and does not cancel,
    the stage [error] moreover comes with exactly the message of the
    progress record as the error, with progress 0 and with [isProcessing]
    false. *)
Theorem error_stage_has_a_message (URL_parses : string → bool)
    (events : list Event) (w : World) :
  (run URL_parses initial events = Some w → banner_agrees w) ∧
  (gated_run URL_parses initial events = Some w → banner_is_message w).
Proof.
  split.
  - assert (G : ∀ events w0 w, banner_agrees w0 →
                  run URL_parses w0 events = Some w → banner_agrees w).
    { clear. induction events as [|e events IH]; intros w0 w Hb H; simpl in H.
      - by injection H as <-.
      - destruct (step URL_parses w0 e) as [w1|] eqn:E; [|done]. simpl in H.
        apply (IH w1 w); [|done]. by apply (step_banner URL_parses w0 e). }
    apply G. unfold banner_agrees. simpl. by split.
  - apply gated_run_message.
    + unfold gated, outstanding. simpl. split; [lia|done].
    + unfold banner_is_message. simpl. by intros Hs.
Qed.

Lemma error_stage_has_a_message_witness :
  ∃ w, run begins_with_scheme initial
         [call_separate "song.mp3" "6f1c" None; upload_settled 0 (Some "quota exceeded")]
       = Some w ∧
       stage (progress_state (hook w)) = error ∧ banner_agrees w.
Proof.
  eexists. split; [vm_compute; reflexivity|]. split; [reflexivity|].
  apply (error_stage_has_a_message begins_with_scheme
           [call_separate "song.mp3" "6f1c" None; upload_settled 0 (Some "quota exceeded")]).
  vm_compute. reflexivity.
Defined.

(** ** The simulated ramp *)

(** X8. While the separation service is awaited the interval raises the
    progress by 5 per tick up to 90 and no further: from progress [p ≤ 90],
    [n] ticks of the interval of a waiting activation are all accepted and
    leave the progress at [min (p + 5 n) 90]; they change neither the stage,
    the error, the result, the activations nor the requests sent.  After
    [processSeparation] has set 30, twelve ticks (one minute) reach 90. *)
Theorem ramp_closed_form (URL_parses : string → bool) (n : nat) :
  ∀ (w : World) (t : nat) (audioUrl modelName : string),
  tasks w !! t = Some (AwaitInvoke audioUrl modelName) →
  (progress (progress_state (hook w)) ≤ 90)%Z →
  ∃ w', run URL_parses w (replicate n (interval_tick t)) = Some w' ∧
    progress (progress_state (hook w')) =
      Z.min (progress (progress_state (hook w)) + 5 * Z.of_nat n) 90 ∧
    stage (progress_state (hook w')) = stage (progress_state (hook w)) ∧
    error_state (hook w') = error_state (hook w) ∧
    stems (hook w') = stems (hook w) ∧
    isProcessing (hook w') = isProcessing (hook w) ∧
    tasks w' = tasks w ∧ calls w' = calls w.
Proof.
  induction n as [|n IH]; intros w t a m Ht Hp.
  - exists w. simpl. split; [done|]. split; [lia|done].
  - simpl. rewrite Ht. unfold ramp. case_bool_decide as Hlt; simpl.
    + set (w1 := setProgress _ w).
      destruct (IH w1 t a m) as (w' & E & P & S & R); [done|simpl; lia|].
      exists w'. split; [exact E|]. split; [rewrite P; simpl; lia|].
      split; [by rewrite S|exact R].
    + destruct (IH w t a m Ht Hp) as (w' & E & P & R).
      exists w'. split; [exact E|]. split; [rewrite P; lia|exact R].
Qed.

Lemma ramp_closed_form_witness :
  ∃ w', run begins_with_scheme awaiting_service (replicate 12 (interval_tick 0)) = Some w' ∧
    progress (progress_state (hook w')) = 90%Z.
Proof.
  destruct (ramp_closed_form begins_with_scheme 12 awaiting_service 0
              "https://cdn.example/song.mp3" "htdemucs_ft" eq_refl)
    as (w' & E & P & _).
  - vm_compute. discriminate.
  - exists w'. split; [exact E|]. rewrite P. reflexivity.
Defined.

(** ** What is sent to the separation service *)

Lemma reject_calls_in t f w c : c ∈ calls (reject t f w) → c ∈ calls w.
Proof. by rewrite reject_calls. Qed.

Lemma step_service_url URL_parses w e w' u m :
  step URL_parses w e = Some w' → InvokeSeparation u m ∈ calls w' →
  InvokeSeparation u m ∈ calls w ∨ isValidUrl URL_parses u = true ∨
  ∃ m', e = call_separateFromUrl u m'.
Proof.
  intros H Hin. destruct e; simpl in H.
  - injection H as <-. simpl in Hin. apply elem_of_app in Hin as [Hin|Hin]; [by left|].
    by apply list_elem_of_singleton in Hin.
  - injection H as <-. simpl in Hin. apply elem_of_app in Hin as [Hin|Hin]; [by left|].
    apply list_elem_of_singleton in Hin. injection Hin as -> _. right. right. by eexists.
  - injection H as <-. left. unfold cancel in Hin.
    by destruct (abortControllerRef (hook (set_cancelledRef true w))).
  - destruct (tasks w !! t) as [[]|]; try done.
    destruct uploadError; injection H as <-.
    + left. by apply reject_calls_in in Hin.
    + simpl in Hin. apply elem_of_app in Hin as [Hin|Hin]; [by left|].
      by apply list_elem_of_singleton in Hin.
  - destruct (tasks w !! t) as [[]|]; try done.
    destruct urlError as [e|].
    { injection H as <-. left. by apply reject_calls_in in Hin. }
    destruct signedUrl as [s|]; [|injection H as <-; left; by apply reject_calls_in in Hin].
    destruct (isValidUrl URL_parses s) eqn:V; injection H as <-.
    + simpl in Hin. apply elem_of_app in Hin as [Hin|Hin]; [by left|].
      apply list_elem_of_singleton in Hin. injection Hin as -> _. right. by left.
    + left. by apply reject_calls_in in Hin.
  - destruct (tasks w !! t) as [[]|]; try done.
    destruct (processSeparation_result _ r); injection H as <-; left.
    + by apply reject_calls_in in Hin.
    + done.
  - destruct (tasks w !! t) as [[]|]; try done.
    destruct (ramp _); injection H as <-; by left.
Qed.

(** X9. The separation service is only ever called with a URL that the
    caller gave to [separateFromUrl] or that passed [isValidUrl] (the signed
    URL of an upload).  [separateFromUrl] itself sends its argument
    unchecked. *)
Theorem service_urls_are_validated_or_given (URL_parses : string → bool)
    (events : list Event) (w : World) :
  run URL_parses initial events = Some w →
  (∀ u m, InvokeSeparation u m ∈ calls w →
     isValidUrl URL_parses u = true ∨ asked_for events u) ∧
  (∀ u, ∃ w', step URL_parses w (call_separateFromUrl u None) = Some w' ∧
     calls w' = calls w ++ [InvokeSeparation u "htdemucs_ft"]).
Proof.
  intros H. split; [|by eexists].
  assert (G : ∀ events w0 w, run URL_parses w0 events = Some w →
            ∀ u m, InvokeSeparation u m ∈ calls w →
              InvokeSeparation u m ∈ calls w0 ∨ isValidUrl URL_parses u = true ∨
              asked_for events u).
  { clear. induction events as [|e events IH]; intros w0 w H u m Hin; simpl in H.
    - injection H as <-. by left.
    - destruct (step URL_parses w0 e) as [w1|] eqn:E; [|done]. simpl in H.
      destruct (IH w1 w H u m Hin) as [H1|[H1|[m' H1]]].
      + destruct (step_service_url URL_parses w0 e w1 u m E H1) as [H2|[H2|[m' ->]]].
        * by left.
        * right. by left.
        * right. right. exists m'. by left.
      + right. by left.
      + right. right. exists m'. by right. }
  intros u m Hin. destruct (G events initial w H u m Hin) as [H1|H1]; [|done].
  by apply elem_of_nil in H1.
Qed.

Lemma service_urls_are_validated_or_given_witness :
  ∃ w, run begins_with_scheme initial
         [call_separate "song.mp3" "6f1c" None; upload_settled 0 None;
          signedUrl_settled 0 (Some "https://store.example/sign/song.mp3?token=t") None]
       = Some w ∧
    ∀ u m, InvokeSeparation u m ∈ calls w →
      isValidUrl begins_with_scheme u = true ∨
      asked_for [call_separate "song.mp3" "6f1c" None; upload_settled 0 None;
                 signedUrl_settled 0 (Some "https://store.example/sign/song.mp3?token=t")
                                   None] u.
Proof.
  eexists. split; [vm_compute; reflexivity|].
  apply (service_urls_are_validated_or_given begins_with_scheme).
  vm_compute. reflexivity.
Defined.

End SyncMore.

(** * More on the polling orchestrator *)
Module PollingMore.
Import Stems Polling Runs PollingFacts.
#[local] Open Scope list_scope.
#[local] Open Scope nat_scope.

(** ** Vocabulary *)

(** The error is never the empty string, and the stage [error] comes with
    the message of the progress record as the error, progress 0 and
    [isProcessing] false. *)
Definition failure_shown (w : World) : Prop :=
  error_state (hook w) ≠ Some EmptyString ∧
  (stage (progress_state (hook w)) = error →
   error_state (hook w) = Some (message (progress_state (hook w))) ∧
   progress (progress_state (hook w)) = 0%Z ∧
   isProcessing (hook w) = false).

Definition is_status_event (e : Event) : bool :=
  match e with
  | status_settled _ _ => true
  | _ => false
  end.

Definition awaits_status (k : Task) : bool :=
  match k with
  | AwaitStatus _ _ => true
  | _ => false
  end.

(** Status requests sent, status answers received, and activations waiting
    for a status answer. *)
Definition status_calls (w : World) : nat :=
  length (filter (λ c, is_status_call c = true) (calls w)).

Definition answered (events : list Event) : nat :=
  length (filter (λ e, is_status_event e = true) events).

Definition awaiting_status (w : World) : nat :=
  length (filter (λ k, awaits_status k = true) (tasks w)).

(** A hook that waits between two polls. *)
Definition between_polls : World :=
  default initial
    (run initial [call_separateFromUrl "https://cdn.example/song.mp3" None;
                  submit_settled 0 (submitted "p1");
                  status_settled 0 (status "processing" None)]).

(** ** The error and the stage *)

Lemma reject_shown t f w :
  failure_message f ≠ EmptyString → failure_shown w → failure_shown (reject t f w).
Proof.
  intros Hf [H1 H2]. unfold reject, failure_shown. case_bool_decide; simpl.
  - split; [congruence|]. by intros _.
  - split; [done|]. intros Hs. by destruct (H2 Hs) as (? & ? & _).
Qed.

Lemma text_nonempty (s t : string) : s ≠ EmptyString → (s ++ t)%string ≠ EmptyString.
Proof. by destruct s. Qed.

Lemma truthy_text_nonempty s : truthy_text s = true → default EmptyString s ≠ EmptyString.
Proof. destruct s as [s|]; [|done]. simpl. by intros ?%negb_true_iff%bool_decide_eq_false. Qed.

Lemma poll_shown t p sel w : failure_shown w → failure_shown (poll t p sel w).
Proof.
  intros H. unfold poll. destruct (cancelledRef (hook w)); [|done].
  by apply reject_shown.
Qed.

Lemma step_shown w e w' : failure_shown w → step w e = Some w' → failure_shown w'.
Proof.
  intros Hb H. pose proof Hb as [H1 H2].
  destruct e; simpl in H.
  - injection H as <-. by split.
  - injection H as <-. by split.
  - injection H as <-. unfold cancel.
    destruct (pollTimeoutRef (hook (set_cancelledRef true w))); by split.
  - destruct (tasks w !! t) as [[]|]; try done.
    destruct uploadError; injection H as <-; [by apply reject_shown|by split].
  - destruct (tasks w !! t) as [[]|]; try done.
    destruct (invokeError r) as [m|]; [injection H as <-; by apply reject_shown|].
    destruct (data r) as [d|]; [|injection H as <-; by apply reject_shown].
    destruct (truthy_text (data_error d)) eqn:T; injection H as <-.
    + apply reject_shown; [|done]. by apply truthy_text_nonempty.
    + by apply poll_shown.
  - destruct (tasks w !! t) as [[]|]; try done.
    destruct (invokeError r) as [m|]; [injection H as <-; by apply reject_shown|].
    destruct (data r) as [d|]; [|injection H as <-; by apply reject_shown].
    case_bool_decide.
    { destruct (Object_entries (data_output d)); injection H as <-.
      - by split.
      - by apply reject_shown. }
    destruct (_ || _); injection H as <-.
    + apply reject_shown; [|done]. simpl.
      destruct (truthy_text (data_error d)) eqn:T; [by apply truthy_text_nonempty|done].
    + split; [done|]. simpl. intros Hs.
      by destruct (status_progress_range (data_status d)) as [Hst _]; rewrite Hst in Hs.
  - destruct (tasks w !! t) as [[]|]; try done.
    injection H as <-. by apply poll_shown.
Qed.

(** X10. In every run of the polling hook, overlapping starts and cancels
    included, the error is never the empty string, and whenever the stage is
    [error] the error is exactly the message of the progress record, the
    progress is 0 and [isProcessing] is false. *)
Theorem polling_error_stage_shows_the_error (events : list Event) (w : World) :
  run initial events = Some w → failure_shown w.
Proof.
  assert (G : ∀ events w0 w, failure_shown w0 → run w0 events = Some w → failure_shown w).
  { clear. induction events as [|e events IH]; intros w0 w Hb H; simpl in H.
    - by injection H as <-.
    - destruct (step w0 e) as [w1|] eqn:E; [|done]. simpl in H.
      apply (IH w1 w); [|done]. by apply (step_shown w0 e). }
  apply G. unfold failure_shown. simpl. by split.
Qed.

Lemma polling_error_stage_shows_the_error_witness :
  ∃ w, run initial
         [call_separateFromUrl "https://cdn.example/song.mp3" None;
          submit_settled 0 (network_error "Failed to fetch")] = Some w ∧
       stage (progress_state (hook w)) = error ∧ failure_shown w.
Proof.
  eexists. split; [vm_compute; reflexivity|]. split; [reflexivity|].
  apply (polling_error_stage_shows_the_error
           [call_separateFromUrl "https://cdn.example/song.mp3" None;
            submit_settled 0 (network_error "Failed to fetch")]).
  vm_compute. reflexivity.
Defined.

(** ** A cancel between two polls *)

Lemma reject_orphan t t' f w :
  tasks w !! t = Some Orphaned → tasks w !! t' ≠ Some Orphaned →
  tasks (reject t' f w) !! t = Some Orphaned.
Proof.
  intros Ht Ht'. rewrite polling_reject_tasks.
  rewrite list_lookup_insert_ne; [done|]. by intros ->.
Qed.

Lemma set_task_orphan t t' k w :
  tasks w !! t = Some Orphaned → tasks w !! t' ≠ Some Orphaned →
  tasks (set_task t' k w) !! t = Some Orphaned.
Proof.
  intros Ht Ht'. simpl. rewrite list_lookup_insert_ne; [done|]. by intros ->.
Qed.

Lemma poll_orphan t t' p sel w :
  tasks w !! t = Some Orphaned → tasks w !! t' ≠ Some Orphaned →
  tasks (poll t' p sel w) !! t = Some Orphaned.
Proof.
  intros Ht Ht'. unfold poll. destruct (cancelledRef (hook w)).
  - by apply reject_orphan.
  - by apply set_task_orphan.
Qed.

Lemma step_orphan w e w' t :
  tasks w !! t = Some Orphaned → step w e = Some w' → tasks w' !! t = Some Orphaned.
Proof.
  intros Ht H. destruct e; simpl in H.
  - injection H as <-. simpl. by apply lookup_app_l_Some.
  - injection H as <-. simpl. by apply lookup_app_l_Some.
  - injection H as <-. unfold cancel.
    destruct (pollTimeoutRef (hook (set_cancelledRef true w))); simpl; [|done].
    by rewrite list_lookup_fmap, Ht.
  - destruct (tasks w !! t0) as [[]|] eqn:E; try done.
    destruct uploadError; injection H as <-.
    + apply reject_orphan; [done|congruence].
    + simpl. rewrite list_lookup_insert_ne; [done|]. intros ->. congruence.
  - destruct (tasks w !! t0) as [[]|] eqn:E; try done.
    assert (N : tasks w !! t0 ≠ Some Orphaned) by congruence.
    destruct (invokeError r) as [m|]; [injection H as <-; by apply reject_orphan|].
    destruct (data r) as [d|]; [|injection H as <-; by apply reject_orphan].
    destruct (truthy_text (data_error d)); injection H as <-.
    + by apply reject_orphan.
    + by apply poll_orphan.
  - destruct (tasks w !! t0) as [[]|] eqn:E; try done.
    assert (N : tasks w !! t0 ≠ Some Orphaned) by congruence.
    destruct (invokeError r) as [m|]; [injection H as <-; by apply reject_orphan|].
    destruct (data r) as [d|]; [|injection H as <-; by apply reject_orphan].
    case_bool_decide.
    { destruct (Object_entries (data_output d)); injection H as <-.
      - simpl. rewrite list_lookup_insert_ne; [done|]. by intros ->.
      - by apply reject_orphan. }
    destruct (_ || _); injection H as <-.
    + by apply reject_orphan.
    + simpl. rewrite list_lookup_insert_ne; [done|]. by intros ->.
  - destruct (tasks w !! t0) as [[]|] eqn:E; try done.
    injection H as <-. apply poll_orphan; [done|congruence].
Qed.

Lemma run_orphan events : ∀ w w' t,
  tasks w !! t = Some Orphaned → run w events = Some w' → tasks w' !! t = Some Orphaned.
Proof.
  induction events as [|e events IH]; intros w w' t Ht H; simpl in H.
  - by injection H as <-.
  - destruct (step w e) as [w1|] eqn:E; [|done]. simpl in H.
    apply (IH w1 w' t); [|done]. by apply (step_orphan w e).
Qed.

(** X11. A cancel during the two seconds between two polls clears the
    timer the activation waits for, so the promise that [separate] or
    [separateFromUrl] returned never settles: the cancel leaves
    [isProcessing] false and the stage [idle] without touching the error,
    no response or timer event is accepted for that activation any more, and
    whatever happens afterwards (new starts included) it is neither resolved
    nor rejected. *)
Theorem cancel_between_polls_never_settles (w : World) (t timer : nat)
    (predictionId : option string) (selectedStems : option (list string)) :
  tasks w !! t = Some (AwaitTimer timer predictionId selectedStems) →
  pollTimeoutRef (hook w) = Some timer →
  ∃ w1, step w call_cancel = Some w1 ∧
    isProcessing (hook w1) = false ∧
    progress_state (hook w1) = mkProgress idle 0 "Cancelled" ∧
    error_state (hook w1) = error_state (hook w) ∧
    step w1 (timer_fired t) = None ∧
    (∀ r, step w1 (status_settled t r) = None) ∧
    ∀ events w2, run w1 events = Some w2 →
      tasks w2 !! t = Some Orphaned ∧ pending Orphaned = false.
Proof.
  intros Ht Href.
  destruct (cancel_at_once w) as (w1 & E & _ & Hi & Hp & He & _ & Ho).
  specialize (Ho t timer predictionId selectedStems Href Ht).
  exists w1. split; [exact E|]. split; [exact Hi|]. split; [exact Hp|].
  split; [exact He|]. split; [by simpl; rewrite Ho|]. split.
  - intros r. simpl. by rewrite Ho.
  - intros events w2 H. split; [|done]. by apply (run_orphan events w1).
Qed.

Lemma cancel_between_polls_never_settles_witness :
  ∃ w1, step between_polls call_cancel = Some w1 ∧
    ∀ events w2, run w1 events = Some w2 →
      tasks w2 !! 0 = Some Orphaned ∧ pending Orphaned = false.
Proof.
  destruct (cancel_between_polls_never_settles between_polls 0 1 (Some "p1") None
              eq_refl eq_refl) as (w1 & E & _ & _ & _ & _ & _ & H).
  exists w1. split; [exact E|exact H].
Defined.

(** ** Polls follow one another *)

Lemma gated_run_is_run events : ∀ w w',
  gated_run w events = Some w' → run w events = Some w'.
Proof.
  induction events as [|e events IH]; intros w w' H; simpl in *; [done|].
  destruct (offered w e); [|done].
  destruct (step w e) as [w1|]; [|done]. simpl in *. by apply IH.
Qed.

Lemma status_calls_snoc w c :
  length (filter (λ c, is_status_call c = true) (calls w ++ [c])) =
    status_calls w + (if is_status_call c then 1 else 0).
Proof.
  unfold status_calls. rewrite count_snoc. by destruct (is_status_call c).
Qed.

Lemma awaiting_insert (l : list Task) t old new :
  l !! t = Some old →
  length (filter (λ k, awaits_status k = true) (<[t := new]> l))
    + (if awaits_status old then 1 else 0) =
  length (filter (λ k, awaits_status k = true) l) + (if awaits_status new then 1 else 0).
Proof.
  intros Ht.
  pose proof (count_insert (λ k, awaits_status k = true) l t old new Ht) as H.
  cbv beta in H. revert H.
  by destruct (awaits_status old), (awaits_status new).
Qed.

Lemma awaiting_snoc (l : list Task) k :
  length (filter (λ k, awaits_status k = true) (l ++ [k])) =
    length (filter (λ k, awaits_status k = true) l) + (if awaits_status k then 1 else 0).
Proof. rewrite count_snoc. by destruct (awaits_status k). Qed.

Lemma awaiting_clearTimeout timer w :
  awaiting_status (clearTimeout timer w) = awaiting_status w.
Proof.
  unfold awaiting_status. simpl. induction (tasks w) as [|k l IH]; [done|].
  rewrite fmap_cons, !filter_cons.
  destruct k; simpl; try case_bool_decide; simpl;
    repeat case_decide; try done; simpl; by rewrite IH.
Qed.

(** What a step does to the two counters. *)
Lemma reject_counts t f w old :
  tasks w !! t = Some old →
  status_calls (reject t f w) = status_calls w ∧
  awaiting_status (reject t f w) + (if awaits_status old then 1 else 0) = awaiting_status w.
Proof.
  intros Ht. unfold status_calls, awaiting_status.
  rewrite polling_reject_calls, polling_reject_tasks. split; [done|].
  pose proof (awaiting_insert (tasks w) t old (Rejected f) Ht) as H. simpl in H. lia.
Qed.

Lemma poll_counts t p sel w old :
  tasks w !! t = Some old → awaits_status old = false →
  status_calls (poll t p sel w) + awaiting_status w =
    status_calls w + awaiting_status (poll t p sel w).
Proof.
  intros Ht Ho. unfold poll. destruct (cancelledRef (hook w)).
  - destruct (reject_counts t Cancelled w old Ht) as [E1 E2]. rewrite Ho in E2. lia.
  - unfold status_calls, awaiting_status. simpl. rewrite status_calls_snoc. simpl.
    pose proof (awaiting_insert (tasks w) t old (AwaitStatus p sel) Ht) as H.
    rewrite Ho in H. simpl in H. unfold status_calls. lia.
Qed.

Lemma step_counts w e w' :
  step w e = Some w' →
  status_calls w' + awaiting_status w =
    status_calls w + awaiting_status w' + (if is_status_event e then 1 else 0).
Proof.
  intros H. destruct e; simpl in H.
  - injection H as <-. unfold status_calls, awaiting_status. simpl.
    rewrite status_calls_snoc, awaiting_snoc. simpl. unfold status_calls. simpl. lia.
  - injection H as <-. unfold status_calls, awaiting_status. simpl.
    rewrite status_calls_snoc, awaiting_snoc. simpl. unfold status_calls. simpl. lia.
  - injection H as <-. unfold cancel.
    destruct (pollTimeoutRef (hook (set_cancelledRef true w))) as [timer|]; simpl.
    + change (status_calls (clearTimeout timer (set_cancelledRef true w)) + awaiting_status w =
              status_calls w + awaiting_status (clearTimeout timer (set_cancelledRef true w)) + 0).
      rewrite awaiting_clearTimeout. unfold status_calls, awaiting_status. simpl. lia.
    + unfold status_calls, awaiting_status. simpl. lia.
  - destruct (tasks w !! t) as [[]|] eqn:E; try done.
    destruct uploadError; injection H as <-.
    + destruct (reject_counts t (UploadError s) w _ E) as [E1 E2]. simpl in E2. simpl. lia.
    + unfold status_calls, awaiting_status. simpl. rewrite status_calls_snoc. simpl.
      pose proof (awaiting_insert (tasks w) t _ (AwaitSubmit None) E) as H. simpl in H.
      unfold status_calls. lia.
  - destruct (tasks w !! t) as [[]|] eqn:E; try done. simpl.
    destruct (invokeError r) as [m|].
    { injection H as <-. destruct (reject_counts t (StartError m) w _ E) as [E1 E2].
      simpl in E2. lia. }
    destruct (data r) as [d|].
    2:{ injection H as <-.
        destruct (reject_counts t (TypeError "Cannot read properties of null (reading 'error')")
                    w _ E) as [E1 E2]. simpl in E2. lia. }
    destruct (truthy_text (data_error d)); injection H as <-.
    + destruct (reject_counts t (StartRejected (default EmptyString (data_error d))) w _ E)
        as [E1 E2]. simpl in E2. lia.
    + pose proof (poll_counts t (data_id d) selectedStems w _ E eq_refl). lia.
  - destruct (tasks w !! t) as [[]|] eqn:E; try done. simpl.
    destruct (invokeError r) as [m|].
    { injection H as <-. destruct (reject_counts t (StatusError m) w _ E) as [E1 E2].
      simpl in E2. lia. }
    destruct (data r) as [d|].
    2:{ injection H as <-.
        destruct (reject_counts t (TypeError "Cannot read properties of null (reading 'status')")
                    w _ E) as [E1 E2]. simpl in E2. lia. }
    case_bool_decide.
    { destruct (Object_entries (data_output d)); injection H as <-.
      - unfold status_calls, awaiting_status. simpl.
        pose proof (awaiting_insert (tasks w) t _
                      (Resolved (filter_selected selectedStems
                                   (extract_stems STEM_LABELS l))) E) as H.
        simpl in H. lia.
      - destruct (reject_counts t (TypeError "Cannot convert undefined or null to object")
                    w _ E) as [E1 E2]. simpl in E2. lia. }
    destruct (_ || _); injection H as <-.
    + match goal with |- context [reject t ?f w] =>
        destruct (reject_counts t f w _ E) as [E1 E2] end.
      simpl in E2. lia.
    + unfold status_calls, awaiting_status. simpl.
      pose proof (awaiting_insert (tasks w) t _
                    (AwaitTimer (S (timers w)) predictionId selectedStems) E) as H.
      simpl in H. lia.
  - destruct (tasks w !! t) as [[]|] eqn:E; try done. simpl.
    injection H as <-.
    pose proof (poll_counts t predictionId selectedStems w _ E eq_refl). lia.
Qed.

Lemma run_counts events : ∀ w w',
  run w events = Some w' →
  status_calls w' + awaiting_status w =
    status_calls w + awaiting_status w' + answered events.
Proof.
  induction events as [|e events IH]; intros w w' H; simpl in H.
  - injection H as <-. unfold answered. simpl. lia.
  - destruct (step w e) as [w1|] eqn:E; [|done]. simpl in H.
    pose proof (step_counts w e w1 E). pose proof (IH w1 w' H).
    unfold answered in *. rewrite filter_cons.
    destruct (is_status_event e); repeat case_decide; try done; simpl; lia.
Qed.

Lemma awaiting_le_outstanding w : awaiting_status w ≤ outstanding w.
Proof.
  unfold awaiting_status, outstanding. induction (tasks w) as [|k l IH]; [done|].
  rewrite !filter_cons. destruct k; simpl; repeat case_decide; try done; simpl; lia.
Qed.

(** X12. Polls follow one another.  In every run the status requests sent
    are the status answers received plus one for each activation that is
    waiting for an answer: an activation sends its next status request only
    after the previous one was answered (and the timer fired).  When the
    caller starts only while [isProcessing] is false and does not cancel, at
    most one status request is in flight at any time. *)
Theorem polls_are_sequential (events : list Event) (w : World) :
  (run initial events = Some w →
   status_calls w = answered events + awaiting_status w) ∧
  (gated_run initial events = Some w →
   status_calls w - answered events ≤ 1).
Proof.
  assert (R : run initial events = Some w →
              status_calls w = answered events + awaiting_status w).
  { intros H. pose proof (run_counts events initial w H) as C.
    unfold status_calls at 2 in C. unfold awaiting_status at 1 in C. simpl in C. lia. }
  split; [exact R|].
  intros H. pose proof (R (gated_run_is_run events initial w H)) as C.
  destruct polling_single_flight as [_ G]. destruct (G events w H) as [G1 _].
  pose proof (awaiting_le_outstanding w). lia.
Qed.

Lemma polls_are_sequential_witness :
  ∃ w, run initial
         [call_separateFromUrl "https://cdn.example/song.mp3" None;
          submit_settled 0 (submitted "p1");
          status_settled 0 (status "processing" None);
          timer_fired 0] = Some w ∧
       status_calls w =
         answered [call_separateFromUrl "https://cdn.example/song.mp3" None;
                   submit_settled 0 (submitted "p1");
                   status_settled 0 (status "processing" None);
                   timer_fired 0] + awaiting_status w.
Proof.
  eexists. split; [vm_compute; reflexivity|].
  apply (polls_are_sequential
           [call_separateFromUrl "https://cdn.example/song.mp3" None;
            submit_settled 0 (submitted "p1");
            status_settled 0 (status "processing" None);
            timer_fired 0]).
  vm_compute. reflexivity.
Defined.

End PollingMore.

(** * Properties of the edge function and of its use by the hook *)
Module EdgeFacts.
Import Stems Edge.
#[local] Open Scope list_scope.
#[local] Open Scope nat_scope.

(** ** Vocabulary *)

(** The error types the function answers with. *)
Definition error_types : list string :=
  [ "MISSING_BACKEND_CONFIG"; "INVALID_BACKEND_URL"; "MISSING_AUDIO_URL";
    "INVALID_AUDIO_URL"; "AUDIO_DOWNLOAD_FAILED"; "AUDIO_DOWNLOAD_HTTP_ERROR";
    "BACKEND_CONNECTION_FAILED"; "PROCESSING_FAILED"; "UNEXPECTED_ERROR" ].

(** What an entry of [result.stems] becomes in [output]: a string becomes a
    data URL (itself when it already is one), an object with a [url] gives
    that value, anything else is dropped. *)
Definition delivered (outputFormat : string) (e : string * json)
  : option (string * json) :=
  match e.2 with
  | JStr d =>
      Some (e.1, JStr (if String.prefix "data:" d then d else data_url outputFormat d))
  | JObject entries =>
      match field "url" entries with
      | Some url => Some (e.1, url)
      | None => None
      end
  | _ => None
  end.

(** The body of the loop over [result.stems]. *)
Definition deliver (outputFormat : string) (output : list (string * json))
    (e : string * json) : list (string * json) :=
  match e.2 with
  | JStr stemData =>
      if String.prefix "data:" stemData
      then assign e.1 (JStr stemData) output
      else assign e.1 (JStr (data_url outputFormat stemData)) output
  | JObject entries =>
      match field "url" entries with
      | Some url => assign e.1 url output
      | None => output
      end
  | _ => output
  end.

(** The response body as the hook reads it after [JSON.stringify] and
    parsing (lines 239-243 and the error bodies): the fields of [data]. *)
Definition as_data (b : Body) : option Sync.ResponseData :=
  match b with
  | NoBody => None
  | ErrorBody e d ty _ =>
      Some {| Sync.data_error := Some e; Sync.data_errorType := Some ty;
              Sync.data_details := d; Sync.data_status := None;
              Sync.data_output := None |}
  | SuccessBody output _ =>
      Some {| Sync.data_error := None; Sync.data_errorType := None;
              Sync.data_details := None; Sync.data_status := Some "succeeded";
              Sync.data_output := Some (JObject output) |}
  end.

(** The error text that comes with each error type. *)
Definition error_texts : list (string * string) :=
  [ ("MISSING_BACKEND_CONFIG", "AUDIO_SPLITTER_API_URL is not configured");
    ("INVALID_BACKEND_URL", "Invalid AUDIO_SPLITTER_API_URL format");
    ("MISSING_AUDIO_URL", "Missing required field: audioUrl");
    ("INVALID_AUDIO_URL", "Invalid audio URL format");
    ("AUDIO_DOWNLOAD_FAILED", "Failed to download audio file");
    ("AUDIO_DOWNLOAD_HTTP_ERROR", "Failed to download audio file");
    ("BACKEND_CONNECTION_FAILED", "Backend server unreachable");
    ("PROCESSING_FAILED", "Audio processing failed");
    ("UNEXPECTED_ERROR", "Unexpected error") ].

(** [details ? ` (${details})` : ''] of the hook (line 210). *)
Definition details_text (d : option string) : string :=
  if Sync.truthy_text d then " (" ++ default EmptyString d ++ ")" else EmptyString.

(** What [supabase.functions.invoke] resolves to when the body of a response
    reaches the hook as [data]. *)
Definition received (b : Body) : Sync.InvokeResult :=
  {| Sync.data := as_data b; Sync.invokeError := None |}.

(** Whether [new URL(s)] returns: the parser of the hook's [isValidUrl] is
    the same platform function. *)
Definition parses (new_URL : string → outcome Url) (s : string) : bool :=
  match new_URL s with
  | Returns _ => true
  | Throws _ => false
  end.

(** A parser that knows two schemes. *)
Definition parse_by_scheme (s : string) : outcome Url :=
  if String.prefix "https://" s
  then Returns {| protocol := "https:"; hostname := "store.example" |}
  else if String.prefix "ftp://" s
  then Returns {| protocol := "ftp:"; hostname := "store.example" |}
  else Throws "Invalid URL".

(** A platform for the examples: every URL parses as an https URL of one
    host, and file names decode to themselves. *)
Definition parse_as_https (s : string) : outcome Url :=
  Returns {| protocol := "https:"; hostname := "store.example" |}.

Definition decode_plain (s : string) : outcome string := Returns s.

(** An environment in which the download and the separation succeed. *)
Definition studio_env (result : Result) : Env :=
  {| AUDIO_SPLITTER_API_URL := Some "http://localhost:8000";
     download := λ _, download_responds 200 (Returns "ID3");
     separate := λ _ _, separation_responds 200 (Returns EmptyString) (Returns result) |}.

Definition song_request : Request :=
  {| method := "POST";
     json_body := Returns {| audioUrl := Some (JStr "https://store.example/uploads/6f1c-song.mp3");
                             modelName := None; outputFormat := None |} |}.

(** ** Status and body *)

(** X13. The responses of the edge function.  A preflight request is
    answered 200 without a body and without any request made.  Any other
    request is answered either 200 with [status: succeeded] and an output,
    or with an error body that carries one of the nine error types; the
    status is 400 exactly for a missing or invalid audio URL and 500 for
    every other error. *)
Theorem serve_response_discipline (new_URL : string → outcome Url)
    (decodeURIComponent : string → outcome string) (env : Env) (req : Request) :
  let r := serve new_URL decodeURIComponent env req in
  match body r.1 with
  | NoBody => method req = "OPTIONS" ∧ status r.1 = 200 ∧ r.2 = []
  | SuccessBody _ _ => method req ≠ "OPTIONS" ∧ status r.1 = 200
  | ErrorBody _ _ ty _ =>
      method req ≠ "OPTIONS" ∧ ty ∈ error_types ∧
      (status r.1 = 400 ∨ status r.1 = 500) ∧
      (status r.1 = 400 ↔ ty = "MISSING_AUDIO_URL" ∨ ty = "INVALID_AUDIO_URL")
  end.
Proof.
  cbv zeta. unfold serve, process.
  repeat (case_bool_decide || case_match); simpl in *; simplify_eq; try done;
    (split; [done|]); (split; [by apply (bool_decide_unpack _)|]);
    (split; [lia|]);
    (split; [intros; first [lia | by left | by right] | intros [?|?]; first [lia | done]]).
Qed.

(** ** The requests the function makes *)

(** X14. The edge function makes no request unless the backend URL is
    configured and valid, the body parses and its audio URL is a valid
    string; it then downloads that URL, and posts to [/api/separate] of the
    backend only after the download answered with a 2xx status, its body
    was read and the file name decoded: at most one download and one post,
    in this order.  A success response is only given after both. *)
Theorem serve_fetch_discipline (new_URL : string → outcome Url)
    (decodeURIComponent : string → outcome string) (env : Env) (req : Request) :
  let r := serve new_URL decodeURIComponent env req in
  (r.2 = [] ∧ ∀ output t, body r.1 ≠ SuccessBody output t) ∨
  ∃ backend url f,
    method req ≠ "OPTIONS" ∧
    AUDIO_SPLITTER_API_URL env = Some backend ∧
    isValidUrl new_URL (JStr backend) = Valid ∧
    json_body req = Returns f ∧ audioUrl f = Some (JStr url) ∧
    isValidUrl new_URL (JStr url) = Valid ∧
    ((r.2 = [fetch_audio url] ∧ ∀ output t, body r.1 ≠ SuccessBody output t) ∨
     ∃ st blob name,
       download env url = download_responds st (Returns blob) ∧ ok st = true ∧
       decodeURIComponent (if bool_decide (last_segment url = EmptyString)
                           then "audio.mp3" else last_segment url) = Returns name ∧
       r.2 = [fetch_audio url;
              fetch_backend (backend ++ "/api/separate")
                {| file := blob; filename := name;
                   model_name := default "htdemucs_ft" (modelName f);
                   output_format := default "mp3" (outputFormat f) |}]).
Proof.
  cbv zeta. unfold serve.
  case_bool_decide; [by left|].
  destruct (AUDIO_SPLITTER_API_URL env) as [backend|] eqn:Eb; [|by left].
  case_bool_decide; [by left|].
  destruct (isValidUrl new_URL (JStr backend)) eqn:Vb; [|by left].
  destruct (json_body req) as [|f] eqn:Ef; [by left|].
  destruct (audioUrl f) as [v|] eqn:Ev; [|by left].
  destruct (truthy v); simpl; [|by left].
  destruct (isValidUrl new_URL v) eqn:Vu; [|by left].
  destruct v as [| | |url|]; try (by left).
  right. exists backend, url, f. do 6 (split; [done|]).
  unfold process. destruct (download env url) as [|st [|blob]] eqn:Ed; simpl.
  - by left.
  - destruct (ok st); simpl; by left.
  - destruct (ok st) eqn:Eo; simpl; [|by left].
    destruct (decodeURIComponent _) as [|name] eqn:En; [by left|].
    right. exists st, blob, name. do 3 (split; [done|]).
    destruct (separate env _ _) as [|st' text parsed]; [done|].
    destruct (ok st'); simpl; [|done]. by destruct parsed.
Qed.

(** ** The output *)

Lemma assign_new k v (output : list (string * json)) :
  k ≠ "__proto__" → k ∉ output.*1 → assign k v output = output ++ [(k, v)].
Proof.
  intros H1 H2. unfold assign.
  rewrite bool_decide_eq_false_2 by done. by rewrite bool_decide_eq_false_2.
Qed.

Lemma transform_loop outputFormat (entries : list (string * json)) : ∀ output,
  NoDup entries.*1 → "__proto__" ∉ entries.*1 →
  (∀ k, k ∈ entries.*1 → k ∉ output.*1) →
  foldl (deliver outputFormat) output entries
  = output ++ omap (delivered outputFormat) entries.
Proof.
  induction entries as [|[k v] entries IH]; intros output Hnd Hp Hfresh.
  - simpl. by rewrite app_nil_r.
  - rewrite fmap_cons in Hnd, Hp, Hfresh. simpl in Hnd, Hp, Hfresh.
    apply NoDup_cons in Hnd as [Hk Hnd].
    apply not_elem_of_cons in Hp as [Hkp Hp].
    assert (Hko : k ∉ output.*1) by (apply Hfresh; by left).
    assert (Step : ∀ u, foldl (deliver outputFormat) (assign k u output) entries
                        = (output ++ [(k, u)]) ++ omap (delivered outputFormat) entries).
    { intros u. rewrite assign_new by done. apply IH; [done|done|].
      intros j Hj. rewrite fmap_app. simpl. intros Hin.
      apply elem_of_app in Hin as [Hin|Hin].
      - apply (Hfresh j); [by right|done].
      - apply list_elem_of_singleton in Hin. by subst. }
    assert (Skip : foldl (deliver outputFormat) output entries
                   = output ++ omap (delivered outputFormat) entries).
    { apply IH; [done|done|]. intros j Hj. apply Hfresh. by right. }
    change (foldl (deliver outputFormat) (deliver outputFormat output (k, v)) entries =
            output ++ match delivered outputFormat (k, v) with
                      | Some y => y :: omap (delivered outputFormat) entries
                      | None => omap (delivered outputFormat) entries
                      end).
    set (G := foldl (deliver outputFormat)) in *.
    set (R := omap (delivered outputFormat) entries) in *.
    unfold deliver, delivered. simpl.
    destruct v as [| | |d|es]; try exact Skip.
    + destruct (String.prefix "data:" d); rewrite Step; by rewrite <- app_assoc.
    + destruct (field "url" es) as [u|]; [|exact Skip].
      rewrite Step. by rewrite <- app_assoc.
Qed.

Lemma data_url_prefix outputFormat payload :
  String.prefix "data:" (data_url outputFormat payload) = true.
Proof. done. Qed.

Lemma transform_object (outputFormat : string) (entries : list (string * json)) :
  NoDup entries.*1 → "__proto__" ∉ entries.*1 →
  transform outputFormat (Some (JObject entries)) = omap (delivered outputFormat) entries.
Proof.
  intros Hnd Hp. unfold transform. simpl. fold (deliver outputFormat).
  rewrite (transform_loop outputFormat entries [] Hnd Hp); [done|].
  intros k _ Hk. by apply elem_of_nil in Hk.
Qed.

(** X15. The output of a successful answer.  For the stems of a backend
    result given as an object (its keys are pairwise different) without the
    key "__proto__", the loop delivers the entries in their order: a string
    becomes a data URL of the requested format, and is passed unchanged when
    it already starts with "data:"; an object with a [url] gives the value
    of that field; every other entry is dropped.  Every delivered string
    payload starts with "data:".  An absent or falsy [stems] gives the empty
    output. *)
Theorem transform_delivers (outputFormat : string) (entries : list (string * json)) :
  NoDup entries.*1 → "__proto__" ∉ entries.*1 →
  transform outputFormat (Some (JObject entries)) = omap (delivered outputFormat) entries ∧
  (∀ k d, (k, JStr d) ∈ entries →
     ∃ d', (k, JStr d') ∈ transform outputFormat (Some (JObject entries)) ∧
           String.prefix "data:" d' = true ∧
           (String.prefix "data:" d = true → d' = d)) ∧
  transform outputFormat None = [] ∧
  transform outputFormat (Some JNull) = [] ∧
  transform outputFormat (Some (JStr EmptyString)) = [].
Proof.
  intros Hnd Hp.
  pose proof (transform_object outputFormat entries Hnd Hp) as E.
  split; [exact E|]. split; [|done].
  intros k d Hin. rewrite E.
  exists (if String.prefix "data:" d then d else data_url outputFormat d). split.
  - apply list_elem_of_omap. by exists (k, JStr d).
  - destruct (String.prefix "data:" d) eqn:P; [done|]. split; [|done].
    apply data_url_prefix.
Qed.

Lemma transform_delivers_witness :
  transform "mp3" (Some (JObject [("vocals", JStr "SUQz"); ("drums", JStr "data:audio/mp3;base64,AAAA");
                                  ("bass", JObject [("url", JStr "https://cdn.example/bass.mp3")]);
                                  ("other", JNum 3)]))
  = [("vocals", JStr "data:audio/mp3;base64,SUQz");
     ("drums", JStr "data:audio/mp3;base64,AAAA");
     ("bass", JStr "https://cdn.example/bass.mp3")].
Proof.
  refine (eq_trans (proj1 (transform_delivers "mp3" _ _ _)) _).
  - apply (bool_decide_unpack _). vm_compute. exact I.
  - apply (bool_decide_unpack _). vm_compute. exact I.
  - vm_compute. reflexivity.
Defined.

(** ** The hook reads the answer *)

Lemma delivered_strings outputFormat labels (entries : list (string * json)) :
  Forall (λ e, ∃ d, e.2 = JStr d) entries →
  let results := extract_stems labels (omap (delivered outputFormat) entries) in
  id <$> results = entries.*1 ∧
  Forall (λ s, String.prefix "data:" (url s) = true) results.
Proof.
  induction 1 as [|[k v] entries [d Hd] _ [IH1 IH2]]; [done|].
  simpl in Hd. subst v. cbv zeta.
  change (omap (delivered outputFormat) ((k, JStr d) :: entries))
    with ((k, JStr (if String.prefix "data:" d then d else data_url outputFormat d))
          :: omap (delivered outputFormat) entries).
  set (u := if String.prefix "data:" d then d else data_url outputFormat d).
  assert (Hu : String.prefix "data:" u = true).
  { unfold u. by destruct (String.prefix "data:" d) eqn:P. }
  assert (Hne : u ≠ EmptyString) by (by intros E; rewrite E in Hu).
  set (rest := omap (delivered outputFormat) entries) in *.
  assert (E : extract_stems labels ((k, JStr u) :: rest)
              = {| id := k; label := stem_label labels k; url := u |}
                :: extract_stems labels rest).
  { unfold extract_stems. cbn. rewrite bool_decide_eq_false_2 by done. by cbn. }
  rewrite E. split.
  - rewrite fmap_cons. simpl. f_equal. exact IH1.
  - constructor; [done|exact IH2].
Qed.

(** X16. A successful answer is accepted by the hook.  When every stem of
    the backend result is a string (the keys pairwise different, none
    "__proto__"), the loop of the hook over the [output] of the edge
    function yields one record per stem, in order, with the stem name as id
    and a data URL as url; [processSeparation] returns these records, and
    throws the no-stems error exactly when the result had no stem. *)
Theorem edge_success_reaches_the_hook (outputFormat : string)
    (entries : list (string * json)) (t : option json) :
  NoDup entries.*1 → "__proto__" ∉ entries.*1 →
  Forall (λ e, ∃ d, e.2 = JStr d) entries →
  let output := transform outputFormat (Some (JObject entries)) in
  let results := extract_stems Sync.STEM_LABELS output in
  id <$> results = entries.*1 ∧
  Forall (λ s, String.prefix "data:" (url s) = true) results ∧
  Sync.processSeparation_result false (received (SuccessBody output t)) =
    if bool_decide (entries = []) then inl Sync.NoStemsProducedError else inr results.
Proof.
  intros Hnd Hp Hs. cbv zeta.
  rewrite (transform_object outputFormat entries Hnd Hp).
  destruct (delivered_strings outputFormat Sync.STEM_LABELS entries Hs) as [I U].
  split; [exact I|]. split; [exact U|].
  rewrite SyncFacts.success_outcome by done. simpl.
  destruct entries as [|e entries].
  - by rewrite bool_decide_eq_true_2.
  - rewrite (bool_decide_eq_false_2 (e :: entries = [])) by done.
    rewrite bool_decide_eq_false_2; [done|].
    intros E. rewrite E in I. done.
Qed.

Lemma edge_success_reaches_the_hook_witness :
  Sync.processSeparation_result false
    (received (SuccessBody (transform "mp3" (Some (JObject [("vocals", JStr "SUQz");
                                                            ("drums", JStr "T2dn")]))) None))
  = inr (extract_stems Sync.STEM_LABELS
           (transform "mp3" (Some (JObject [("vocals", JStr "SUQz"); ("drums", JStr "T2dn")])))).
Proof.
  refine (proj2 (proj2 (edge_success_reaches_the_hook "mp3"
            [("vocals", JStr "SUQz"); ("drums", JStr "T2dn")] None _ _ _))).
  - apply (bool_decide_unpack _). vm_compute. exact I.
  - apply (bool_decide_unpack _). vm_compute. exact I.
  - repeat constructor; by eexists.
Defined.

Lemma serve_error_texts (new_URL : string → outcome Url)
    (decodeURIComponent : string → outcome string) (env : Env) (req : Request)
    e d ty sc :
  body (serve new_URL decodeURIComponent env req).1 = ErrorBody e d ty sc →
  (ty, e) ∈ error_texts.
Proof.
  unfold serve, process.
  repeat (case_bool_decide || case_match); simpl in *; intros; simplify_eq;
    by apply (bool_decide_unpack _).
Qed.

(** X17. The hook's table knows every error type of the edge function but
    one.  When an error body of the edge function reaches the hook as
    [data], [processSeparation] throws the message of [getErrorMessage]
    followed by the details in parentheses: the Hungarian text of the table
    for every error type except MISSING_AUDIO_URL, for which the table has
    no entry and the English error text of the edge function is shown. *)
Theorem edge_errors_reach_the_hook (new_URL : string → outcome Url)
    (decodeURIComponent : string → outcome string) (env : Env) (req : Request)
    (e : string) (d : option string) (ty : string) (sc : option nat) :
  body (serve new_URL decodeURIComponent env req).1 = ErrorBody e d ty sc →
  ∃ msg,
    Sync.processSeparation_result false (received (ErrorBody e d ty sc)) =
      inl (Sync.RemoteProcessingError (msg ++ details_text d)) ∧
    (if bool_decide (ty = "MISSING_AUDIO_URL")
     then msg = e ∧ Sync.errorTypeMap !! ty = None
     else Sync.errorTypeMap !! ty = Some msg).
Proof.
  intros H. apply serve_error_texts in H. unfold error_texts in H.
  repeat (apply elem_of_cons in H as [H|H];
          [injection H as -> ->; eexists; split; [reflexivity|by vm_compute]|]).
  by apply elem_of_nil in H.
Qed.

Lemma edge_errors_reach_the_hook_witness :
  ∃ msg,
    Sync.processSeparation_result false
      (received (ErrorBody "Missing required field: audioUrl" None "MISSING_AUDIO_URL" None))
    = inl (Sync.RemoteProcessingError (msg ++ details_text None)) ∧
    msg = "Missing required field: audioUrl".
Proof.
  destruct (edge_errors_reach_the_hook parse_as_https decode_plain
              (studio_env {| stems := None; processing_time := None |})
              {| method := "POST";
                 json_body := Returns {| audioUrl := None; modelName := None;
                                         outputFormat := None |} |}
              "Missing required field: audioUrl" None "MISSING_AUDIO_URL" None eq_refl)
    as (msg & E & M).
  exists msg. split; [exact E|]. by destruct M.
Defined.

(** ** Two validators *)

(** X18. The edge function validates more than the hook.  Every string its
    [isValidUrl] accepts is accepted by the [isValidUrl] of the hook (with
    the same URL parser), but not conversely: a URL that the hook accepts
    and whose scheme is neither http nor https is answered by a configured
    edge function with status 400 and INVALID_AUDIO_URL, before any request
    is made. *)
Theorem edge_validation_is_stricter (new_URL : string → outcome Url)
    (decodeURIComponent : string → outcome string) (s : string) :
  (isValidUrl new_URL (JStr s) = Valid → Sync.isValidUrl (parses new_URL) s = true) ∧
  (∀ url env req backend f,
     Sync.isValidUrl (parses new_URL) s = true →
     new_URL s = Returns url → protocol url ∉ ["http:"; "https:"] →
     method req ≠ "OPTIONS" →
     AUDIO_SPLITTER_API_URL env = Some backend →
     isValidUrl new_URL (JStr backend) = Valid →
     json_body req = Returns f → audioUrl f = Some (JStr s) →
     serve new_URL decodeURIComponent env req
       = (invalid_audio_url "URL must use http or https protocol", [])).
Proof.
  split.
  - unfold isValidUrl, Sync.isValidUrl, parses.
    case_bool_decide; [done|]. destruct (includes "undefined" s); [done|].
    by destruct (new_URL s).
  - intros url env req backend f Hc Hu Hp Hm Hb Hv Hf Ha.
    assert (Hs : s ≠ EmptyString ∧ includes "undefined" s = false).
    { unfold Sync.isValidUrl in Hc. case_bool_decide; [done|].
      by destruct (includes "undefined" s). }
    destruct Hs as [Hne Hi].
    assert (Hbne : backend ≠ EmptyString).
    { intros ->. unfold isValidUrl in Hv. by rewrite bool_decide_eq_true_2 in Hv. }
    assert (Vs : isValidUrl new_URL (JStr s) = Invalid "URL must use http or https protocol").
    { unfold isValidUrl. rewrite bool_decide_eq_false_2 by done. rewrite Hi, Hu.
      by rewrite (bool_decide_eq_false_2 (protocol url ∈ _)). }
    assert (T : truthy (JStr s) = true) by (simpl; by rewrite bool_decide_eq_false_2).
    unfold serve. rewrite bool_decide_eq_false_2 by done. rewrite Hb.
    rewrite bool_decide_eq_false_2 by done. by rewrite Hv, Hf, Ha, T, Vs.
Qed.

Lemma edge_validation_is_stricter_witness :
  Sync.isValidUrl (parses parse_by_scheme) "ftp://store.example/song.mp3" = true ∧
  serve parse_by_scheme decode_plain
        {| AUDIO_SPLITTER_API_URL := Some "https://backend.example";
           download := λ _, download_responds 200 (Returns "ID3");
           separate := λ _ _, separation_fails "unreachable" |}
        {| method := "POST";
           json_body := Returns {| audioUrl := Some (JStr "ftp://store.example/song.mp3");
                                   modelName := None; outputFormat := None |} |}
    = (invalid_audio_url "URL must use http or https protocol", []).
Proof.
  split; [reflexivity|].
  apply (proj2 (edge_validation_is_stricter parse_by_scheme decode_plain
                  "ftp://store.example/song.mp3")
           {| protocol := "ftp:"; hostname := "store.example" |} _ _
           "https://backend.example"
           {| audioUrl := Some (JStr "ftp://store.example/song.mp3");
              modelName := None; outputFormat := None |});
    try reflexivity; try done.
  intros H. simpl in H. repeat (apply elem_of_cons in H as [H|H]; [done|]).
  by apply elem_of_nil in H.
Defined.

End EdgeFacts.

(** * Properties of the separator component *)
Module SeparatorFacts.
Import Stems Separator.
#[local] Open Scope list_scope.
#[local] Open Scope nat_scope.

(** ** Vocabulary *)

(** Only the stem shown as playing is audible. *)
Definition exclusive (v : Preview) : Prop :=
  ∀ k a, audioRefs v !! k = Some a → paused a = false → playingStem v = Some k.

(** A click on a stem with a non-empty id. *)
Definition named (e : Event) : Prop :=
  match e with
  | click stem => id stem ≠ EmptyString
  | _ => True
  end.

(** Every element is paused. *)
Definition quiet (refs : gmap string Element) : Prop :=
  ∀ k a, refs !! k = Some a → paused a = true.

(** The invariant of the preview. *)
Definition steady (v : Preview) : Prop :=
  exclusive v ∧ playingStem v ≠ Some EmptyString.

(** The elements after the first block of [handlePlayStem]. *)
Definition stopped (v : Preview) : gmap string Element :=
  match playingStem v with
  | Some current =>
      if bool_decide (current = EmptyString) then audioRefs v
      else match audioRefs v !! current with
           | Some currentAudio =>
               <[current := pause_and_rewind currentAudio]> (audioRefs v)
           | None => audioRefs v
           end
  | None => audioRefs v
  end.





Definition vocals_stem : StemResult :=
  {| id := "vocals"; label := Text "Vocals"; url := "https://cdn.example/vocals.mp3" |}.

Definition drums_stem : StemResult :=
  {| id := "drums"; label := Text "Drums"; url := "https://cdn.example/drums.mp3" |}.

(** ** The selection *)


(** X19. The checkboxes of the stem selection.  A toggle flips the
    membership of its stem and of no other; a selection without duplicates stays
    without duplicates; ticking a box that was clear appends the
    stem and clearing it again gives the selection back; and two toggles of
    the same stem always give a selection with the same members, though a
    stem that was selected moves to the end. *)
Theorem toggle_selection (stemId : string) (prev : list string) :
  NoDup prev →
  NoDup (handleStemToggle stemId prev) ∧
  (stemId ∈ handleStemToggle stemId prev ↔ stemId ∉ prev) ∧
  (∀ s, s ≠ stemId → s ∈ handleStemToggle stemId prev ↔ s ∈ prev) ∧
  (stemId ∉ prev → handleStemToggle stemId (handleStemToggle stemId prev) = prev) ∧
  (stemId ∈ prev →
   handleStemToggle stemId (handleStemToggle stemId prev)
     = filter (λ s, s ≠ stemId) prev ++ [stemId]) ∧
  handleStemToggle stemId (handleStemToggle stemId prev) ≡ₚ prev.
Proof.
  intros Hnd.
  assert (Hf : stemId ∉ filter (λ s, s ≠ stemId) prev).
  { intros H. apply list_elem_of_filter in H as [H _]. by apply H. }
  assert (Ha : stemId ∈ prev ++ [stemId]) by (apply elem_of_app; right; by left).
  assert (Fa : filter (λ s, s ≠ stemId) (prev ++ [stemId]) = filter (λ s, s ≠ stemId) prev).
  { rewrite filter_app. rewrite (filter_cons_False _ stemId []) by (intros H; by apply H).
    by rewrite filter_nil, app_nil_r. }
  assert (Fid : stemId ∉ prev → filter (λ s, s ≠ stemId) prev = prev).
  { intros Hn. clear -Hn. induction prev as [|x l IH]; [done|].
    apply not_elem_of_cons in Hn as [Hx Hl].
    rewrite filter_cons_True by done. by rewrite IH. }
  assert (Perm : stemId ∈ prev → filter (λ s, s ≠ stemId) prev ++ [stemId] ≡ₚ prev).
  { intros Hin. clear -Hin Hnd. induction prev as [|x l IH]; [by apply elem_of_nil in Hin|].
    apply NoDup_cons in Hnd as [Hx Hnd].
    destruct (decide (x = stemId)) as [->|Hne].
    - rewrite filter_cons_False by (intros H; by apply H).
      assert (E : filter (λ s, s ≠ stemId) l = l).
      { clear -Hx. induction l as [|y l IH]; [done|].
        apply not_elem_of_cons in Hx as [Hy Hl].
        rewrite filter_cons_True by done. by rewrite IH. }
      rewrite E. symmetry. apply Permutation_cons_append.
    - rewrite filter_cons_True by done. simpl. constructor. apply IH; [done|].
      apply elem_of_cons in Hin as [Hin|Hin]; [by subst|done]. }
  assert (L1 : ∀ l, stemId ∈ l → handleStemToggle stemId l = filter (λ s, s ≠ stemId) l).
  { intros l H. unfold handleStemToggle. by rewrite bool_decide_eq_true_2. }
  assert (L2 : ∀ l, stemId ∉ l → handleStemToggle stemId l = l ++ [stemId]).
  { intros l H. unfold handleStemToggle. by rewrite bool_decide_eq_false_2. }
  destruct (decide (stemId ∈ prev)) as [Hin|Hn].
  - rewrite (L1 prev Hin), (L2 _ Hf).
    split; [by apply NoDup_filter|]. split; [tauto|]. split.
    { intros s Hs. rewrite list_elem_of_filter. tauto. }
    split; [tauto|]. split; [done|]. by apply Perm.
  - rewrite (L2 prev Hn), (L1 _ Ha), Fa, (Fid Hn).
    split.
    { apply NoDup_app. split; [done|]. split; [|apply NoDup_singleton].
      intros x Hx Hx'. apply list_elem_of_singleton in Hx'. by subst. }
    split; [tauto|]. split.
    { intros s Hs. rewrite elem_of_app, list_elem_of_singleton. tauto. }
    split; [done|]. split; [tauto|done].
Qed.

Lemma toggle_selection_witness :
  handleStemToggle "drums" (handleStemToggle "drums" initial_selection)
  = ["vocals"; "bass"; "other"; "drums"].
Proof.
  assert (Hnd : NoDup initial_selection) by (apply (bool_decide_unpack _); vm_compute; exact I).
  destruct (toggle_selection "drums" initial_selection Hnd) as (_ & _ & _ & _ & E & _).
  rewrite E; [vm_compute; reflexivity|].
  apply (bool_decide_unpack _). vm_compute. exact I.
Defined.

(** ** The preview *)

Lemma stopped_quiet v : steady v → quiet (stopped v).
Proof.
  intros [Hx Hn] k a Hk. unfold stopped in Hk.
  destruct (playingStem v) as [current|] eqn:Ec.
  - rewrite bool_decide_eq_false_2 in Hk by congruence.
    destruct (audioRefs v !! current) as [c|] eqn:Ecur.
    + destruct (decide (current = k)) as [->|Hne].
      * rewrite lookup_insert_eq in Hk. by injection Hk as <-.
      * rewrite lookup_insert_ne in Hk by done.
        destruct (paused a) eqn:Ep; [done|]. specialize (Hx k a Hk Ep). congruence.
    + destruct (paused a) eqn:Ep; [done|]. specialize (Hx k a Hk Ep). congruence.
  - destruct (paused a) eqn:Ep; [done|]. specialize (Hx k a Hk Ep). congruence.
Qed.

Lemma handlePlayStem_steady stem v :
  id stem ≠ EmptyString → steady v → steady (handlePlayStem stem v).
Proof.
  intros Hid Hs. pose proof (stopped_quiet v Hs) as Hq.
  unfold handlePlayStem. fold (stopped v). case_bool_decide.
  - split; [|done]. intros k a Hk Hp. simpl in Hk. by rewrite (Hq k a Hk) in Hp.
  - split; [|simpl; congruence]. intros k a Hk Hp. simpl in *.
    destruct (decide (id stem = k)) as [->|Hne]; [done|].
    rewrite lookup_insert_ne in Hk by done. by rewrite (Hq k a Hk) in Hp.
Qed.

Lemma step_steady v e v' : named e → steady v → step v e = Some v' → steady v'.
Proof.
  intros Hn Hs H. destruct e as [stem|k x|k]; simpl in H.
  - injection H as <-. by apply handlePlayStem_steady.
  - destruct (audioRefs v !! k) as [a|] eqn:Ek; [|done].
    destruct (paused a) eqn:Ep; [done|]. injection H as <-.
    destruct Hs as [Hx Hne]. split; [|done]. intros j b Hj Hp. simpl in *.
    destruct (decide (k = j)) as [->|Hkj].
    + by apply (Hx j a).
    + rewrite lookup_insert_ne in Hj by done. by apply (Hx j b).
  - destruct (audioRefs v !! k) as [a|] eqn:Ek; [|done].
    destruct (paused a) eqn:Ep; [done|]. injection H as <-.
    destruct Hs as [Hx Hne]. split; [|done]. intros j b Hj Hp. simpl in *.
    destruct (decide (k = j)) as [->|Hkj].
    + rewrite lookup_insert_eq in Hj. by injection Hj as <-.
    + rewrite lookup_insert_ne in Hj by done.
      pose proof (Hx j b Hj Hp). pose proof (Hx k a Ek Ep). congruence.
Qed.

(** X20. One preview at a time.  Whatever sequence of clicks on the play
    buttons of stems with non-empty ids, of playback progress and of
    elements reaching their end, an element that is not paused is the one
    of the stem shown as playing.  A click on the stem that is playing stops
    it: nothing is shown as playing, every element is paused and that one
    is rewound to 0.  A click on another stem leaves exactly that stem
    playing. *)
Theorem preview_is_exclusive (events : list Event) (v : Preview) :
  Forall named events → run no_preview events = Some v →
  exclusive v ∧
  (∀ stem, id stem ≠ EmptyString →
     let v' := handlePlayStem stem v in
     if bool_decide (playingStem v = Some (id stem))
     then playingStem v' = None ∧ quiet (audioRefs v') ∧
          ∀ a, audioRefs v !! id stem = Some a →
               audioRefs v' !! id stem = Some (mkElement (src a) true 0 false)
     else playingStem v' = Some (id stem) ∧
          (∃ a, audioRefs v' !! id stem = Some a ∧ paused a = false) ∧
          ∀ k a, k ≠ id stem → audioRefs v' !! k = Some a → paused a = true).
Proof.
  intros Hn H.
  assert (G : ∀ events v0 v, Forall named events → steady v0 →
                run v0 events = Some v → steady v).
  { clear. induction events as [|e events IH]; intros v0 v Hn Hs H; simpl in H.
    - by injection H as <-.
    - apply Forall_cons in Hn as [He Hn].
      destruct (step v0 e) as [v1|] eqn:E; [|done]. simpl in H.
      apply (IH v1 v Hn); [|done]. by apply (step_steady v0 e). }
  assert (Hs : steady v).
  { apply (G events no_preview v Hn); [|done]. split; [|done].
    intros k a Hk. simpl in Hk. by rewrite lookup_empty in Hk. }
  split; [apply Hs|].
  intros stem Hid. cbv zeta. pose proof (stopped_quiet v Hs) as Hq.
  unfold handlePlayStem. fold (stopped v). case_bool_decide as Hp; simpl.
  - split; [done|]. split; [exact Hq|].
    intros a Ha. unfold stopped. rewrite Hp.
    rewrite bool_decide_eq_false_2 by done. rewrite Ha. apply lookup_insert_eq.
  - split; [done|]. split.
    + eexists. split; [apply lookup_insert_eq|done].
    + intros k a Hk Ha. rewrite lookup_insert_ne in Ha by done. by apply (Hq k a).
Qed.

Lemma preview_is_exclusive_witness :
  ∃ v, run no_preview [click vocals_stem; plays "vocals" 12; click drums_stem] = Some v ∧
    exclusive v ∧ playingStem v = Some "drums".
Proof.
  eexists. split; [vm_compute; reflexivity|]. split; [|reflexivity].
  apply (preview_is_exclusive [click vocals_stem; plays "vocals" 12; click drums_stem]).
  - repeat constructor; done.
  - vm_compute. reflexivity.
Defined.

(** ** A session *)










End SeparatorFacts.

(** * Properties of the project store *)
Module ProjectFacts.
Import LocalProjects ConfigurePage.
#[local] Open Scope list_scope.
#[local] Open Scope nat_scope.

(** ** Vocabulary *)

(** The project is in the hook's list and its row is in the table. *)
Definition known (pid : string) (s : Store) : Prop :=
  is_Some (getProject pid s) ∧ pid ∈ row_id <$> table s.

Definition demo_row : Row :=
  {| row_id := "p1"; row_title := "Song"; row_artist := None; row_genre := None;
     row_bpm := None; row_key := None; row_duration := None;
     row_status := Some "uploaded"; row_created_at := "t0"; row_updated_at := "t0";
     row_original_file_url := Some "https://store.example/u/song.mp3";
     row_separation_config :=
       Some {| cfg_stems := Some []; cfg_selected_stems := Some [];
               cfg_file_name := Some "song.mp3"; cfg_file_type := Some "audio/mpeg" |} |}.

Definition demo_store : Store := loadProjects (mkStore [] [demo_row]).

(** ** Lookup *)

Lemma find_fmap_id (f : LocalProject → LocalProject) (pid : string) (l : list LocalProject) :
  (∀ p, id (f p) = id p) →
  snd <$> list_find (λ p, id p = pid) (f <$> l)
    = f <$> (snd <$> list_find (λ p, id p = pid) l).
Proof.
  intros Hf. induction l as [|p l IH]; [done|].
  rewrite fmap_cons. simpl. rewrite Hf.
  destruct (decide (id p = pid)); [done|].
  rewrite <- !option_fmap_compose in *. simpl.
  destruct (list_find _ (f <$> l)) as [[i q]|]; destruct (list_find _ l) as [[j r]|];
    simpl in *; congruence.
Qed.

Lemma find_filter_ne (pid j : string) (l : list LocalProject) :
  j ≠ pid →
  snd <$> list_find (λ p, id p = j) (filter (λ p, id p ≠ pid) l)
    = snd <$> list_find (λ p, id p = j) l.
Proof.
  intros Hne. induction l as [|p l IH]; [done|].
  destruct (decide (id p = pid)) as [E|E].
  - rewrite filter_cons_False by (intros H; by apply H). simpl.
    rewrite decide_False by congruence. rewrite IH.
    rewrite <- option_fmap_compose. by destruct (list_find _ l) as [[i q]|].
  - rewrite filter_cons_True by done. simpl.
    destruct (decide (id p = j)); [done|].
    rewrite <- !option_fmap_compose. simpl.
    destruct (list_find _ (filter _ l)) as [[i q]|]; destruct (list_find _ l) as [[i' q']|];
      simpl in *; congruence.
Qed.

Lemma find_filter_eq (pid : string) (l : list LocalProject) :
  list_find (λ p, id p = pid) (filter (λ p, id p ≠ pid) l) = None.
Proof.
  apply list_find_None. apply Forall_forall. intros p Hp.
  apply list_elem_of_filter in Hp as [Hp _]. done.
Qed.

Lemma getProject_updateProject (pid : string) (s : Store) (updates : Updates)
    (now now' : string) :
  u_id updates = None →
  getProject pid (updateProject false now now' pid updates s)
  = merged updates now' <$> getProject pid s.
Proof.
  intros Hid. unfold getProject, updateProject. simpl.
  rewrite find_fmap_id.
  - destruct (list_find _ (projects s)) as [[i p]|] eqn:E; [|done]. simpl.
    apply list_find_Some in E as (_ & E & _). by rewrite bool_decide_eq_true_2.
  - intros p. case_bool_decide; [|done]. simpl. by rewrite Hid.
Qed.

(** X22. Looking a project up after a change.  After a delete that the
    table accepted the project is not found any more, and every other
    project is found as before.  After an update that the table accepted
    (and that does not give a new id) the project is found with the updates
    merged in and the new time, and every other project is found as before;
    the list keeps its length.  A change the table refused leaves the store
    as it was. *)
Theorem lookup_after_change (pid : string) (s : Store) :
  getProject pid (deleteProject false pid s) = None ∧
  (∀ j, j ≠ pid → getProject j (deleteProject false pid s) = getProject j s) ∧
  (∀ updates now now', u_id updates = None →
     let s' := updateProject false now now' pid updates s in
     getProject pid s' = merged updates now' <$> getProject pid s ∧
     (∀ j, j ≠ pid → getProject j s' = getProject j s) ∧
     length (projects s') = length (projects s)) ∧
  (∀ updates now now', updateProject true now now' pid updates s = s) ∧
  deleteProject true pid s = s.
Proof.
  split; [|split; [|split; [|done]]].
  - unfold getProject, deleteProject. simpl. by rewrite find_filter_eq.
  - intros j Hj. unfold getProject, deleteProject. simpl. by apply find_filter_ne.
  - intros updates now now' Hid. cbv zeta. unfold getProject, updateProject. simpl.
    split; [|split].
    + by apply (getProject_updateProject pid s updates now now').
    + intros j Hj. rewrite find_fmap_id.
      * destruct (list_find _ (projects s)) as [[i p]|] eqn:E; [|done]. simpl.
        apply list_find_Some in E as (_ & E & _).
        rewrite bool_decide_eq_false_2; [done|]. congruence.
      * intros p. case_bool_decide; [|done]. simpl. by rewrite Hid.
    + by rewrite length_fmap.
Qed.

Lemma lookup_after_change_witness :
  getProject "p1" (updateProject false "t1" "t1'" "p1"
                     (start_updates (mkMetadata "Artist" EmptyString None EmptyString)
                                    ["vocals"]) demo_store)
  = merged (start_updates (mkMetadata "Artist" EmptyString None EmptyString) ["vocals"])
           "t1'" <$> getProject "p1" demo_store.
Proof.
  apply (proj1 (proj2 (proj2 (lookup_after_change "p1" demo_store)))
           (start_updates (mkMetadata "Artist" EmptyString None EmptyString) ["vocals"])
           "t1" "t1'" eq_refl).
Defined.

(** ** What is stored and what is shown *)

Lemma find_row_fmap (g : Row → Row) (pid : string) (l : list Row) :
  (∀ r, row_id (g r) = row_id r) →
  snd <$> list_find (λ p, id p = pid) (mapped <$> (g <$> l))
    = (λ r, mapped (g r)) <$> (snd <$> list_find (λ r, row_id r = pid) l).
Proof.
  intros Hg. induction l as [|r l IH]; [done|].
  rewrite !fmap_cons. simpl. rewrite Hg.
  destruct (decide (row_id r = pid)); [done|].
  rewrite <- !option_fmap_compose in *. simpl.
  destruct (list_find _ (mapped <$> (g <$> l))) as [[i q]|];
    destruct (list_find _ l) as [[j r']|]; simpl in *; congruence.
Qed.

Lemma find_row_is_Some (pid : string) (l : list Row) :
  pid ∈ row_id <$> l →
  ∃ r, snd <$> list_find (λ r, row_id r = pid) l = Some r ∧ row_id r = pid.
Proof.
  intros H. apply list_elem_of_fmap in H as (r & E & Hr).
  destruct (list_find_elem_of (λ r, row_id r = pid) l r Hr (eq_sym E)) as [[i r'] F].
  exists r'. rewrite F. split; [done|]. by apply list_find_Some in F as (_ & F & _).
Qed.

(** X23. Saving replaces the stored configuration.  The configure page
    saves the selection when the separation starts and the stems when it
    completes.  In the hook's list the project then has both; in the table
    the second update has replaced [separation_config] by a new object, so
    that after a reload the project has the stems but an empty selection,
    and the file name and type that the configuration held are gone. *)
Theorem stored_selection_is_lost (pid : string) (metadata : Metadata)
    (selectedStems : list string) (stemData : list StemData)
    (t1 t1' t2 t2' : string) (s : Store) :
  known pid s →
  let s' := updateProject false t2 t2' pid (complete_updates stemData)
              (updateProject false t1 t1' pid (start_updates metadata selectedStems) s) in
  (∃ p, getProject pid s' = Some p ∧
        selected_stems p = Some selectedStems ∧ stems p = Some stemData ∧
        status p = "completed") ∧
  (∃ q, getProject pid (loadProjects s') = Some q ∧
        selected_stems q = Some [] ∧ stems q = Some stemData ∧
        status q = "completed" ∧ file_name q = None ∧ file_type q = None).
Proof.
  intros [[p Hp] Hrow]. cbv zeta. split.
  - rewrite !getProject_updateProject by done.
    rewrite Hp. simpl. by eexists.
  - destruct (find_row_is_Some pid (table s) Hrow) as (r & Hr & Hid).
    unfold getProject, loadProjects, updateProject. simpl.
    set (g1 := λ r, if bool_decide (row_id r = pid)
                    then update_row (start_updates metadata selectedStems) t1 r else r).
    set (g2 := λ r, if bool_decide (row_id r = pid)
                    then update_row (complete_updates stemData) t2 r else r).
    rewrite <- (list_fmap_compose g1 g2 (table s)).
    assert (Hg : ∀ r0, row_id ((g2 ∘ g1) r0) = row_id r0).
    { intros r0. unfold g1, g2. simpl. case_bool_decide; simpl; by case_bool_decide. }
    rewrite (find_row_fmap (g2 ∘ g1) pid (table s) Hg), Hr. simpl.
    eexists. split; [done|]. unfold g1, g2.
    rewrite (bool_decide_eq_true_2 (row_id r = pid)) by done. simpl.
    rewrite (bool_decide_eq_true_2 (row_id r = pid)) by done. simpl.
    by repeat split.
Qed.

Lemma stored_selection_is_lost_witness :
  ∃ p q,
    getProject "p1"
      (updateProject false "t2" "t2'" "p1" (complete_updates [mkStemData "vocals" "Vocals" "u1"])
         (updateProject false "t1" "t1'" "p1"
            (start_updates (mkMetadata "Artist" EmptyString None EmptyString) ["vocals"])
            demo_store)) = Some p ∧
    selected_stems p = Some ["vocals"] ∧
    getProject "p1"
      (loadProjects
         (updateProject false "t2" "t2'" "p1" (complete_updates [mkStemData "vocals" "Vocals" "u1"])
            (updateProject false "t1" "t1'" "p1"
               (start_updates (mkMetadata "Artist" EmptyString None EmptyString) ["vocals"])
               demo_store))) = Some q ∧
    selected_stems q = Some [].
Proof.
  assert (K : known "p1" demo_store).
  { split; [by eexists|]. simpl. by left. }
  destruct (stored_selection_is_lost "p1" (mkMetadata "Artist" EmptyString None EmptyString)
              ["vocals"] [mkStemData "vocals" "Vocals" "u1"] "t1" "t1'" "t2" "t2'"
              demo_store K) as [(p & Ep & Sp & _) (q & Eq & Sq & _)].
  by exists p, q.
Defined.

End ProjectFacts.
